(** * Quizzy: the game session state machine, its registry and the socket handlers

    A shallow embedding of the socket event handlers with the deadline
    callback of [handleQuestion] ([server/src/socket/handlers.ts]) and of
    the class [GameSession] with the [activeGames] registry
    (services/gameSession, the second half of the same source file).

    Conventions of the embedding:
    - a JS [Map] keeps insertion order and its iteration order is observable
      ([getGameByAdminSocket], [getGameByPlayerSocket], the order of
      [playerResults]), so it is an association list with [Map.set]
      replacing in place or appending;
    - JS numbers that hold integers (ids, indexes, scores, millisecond
      timestamps) are [Z]; [null] is [None];
    - a [GameSession] is a mutable object shared by the registry and by the
      deadline closures: the server keeps the objects in a store indexed by
      reference, the registry and the pending timeouts hold references;
    - [Date.now()] and the code drawn by [generateGameCode()] are inputs of
      the event that triggers them;
    - a thrown exception is the [Throw] result; mutations done before the
      throw stay in the returned state;
    - the case conversions of strings are built-ins of the runtime: they are
      the two operations of [CaseFolding], over which the session and the
      handlers are generic. *)

From Stdlib Require Import Ascii ZArith QArith Qround Lia.
From stdpp Require Import base option strings numbers list.

Local Open Scope string_scope.
Local Open Scope Z_scope.

(** ** Results of fallible operations *)

Inductive Res (A : Type) : Type :=
  | Ret (a : A)
  | Throw (msg : string).
Arguments Ret {A} a.
Arguments Throw {A} msg.

(** ** JS [Map] with string keys, in insertion order *)

Module JsMap.

Definition t (V : Type) : Type := list (string * V).

Fixpoint get {V} (k : string) (m : t V) : option V :=
  match m with
  | [] => None
  | (k', v) :: m' => if decide (k' = k) then Some v else get k m'
  end.

Definition has {V} (k : string) (m : t V) : bool :=
  match get k m with Some _ => true | None => false end.

(** [Map.prototype.set]: an existing key keeps its position. *)
Fixpoint set {V} (k : string) (v : V) (m : t V) : t V :=
  match m with
  | [] => [(k, v)]
  | (k', v') :: m' =>
      if decide (k' = k) then (k, v) :: m' else (k', v') :: set k v m'
  end.

Fixpoint delete {V} (k : string) (m : t V) : t V :=
  match m with
  | [] => []
  | (k', v') :: m' =>
      if decide (k' = k) then m' else (k', v') :: delete k m'
  end.

Definition values {V} (m : t V) : list V := m.*2.

Definition keys {V} (m : t V) : list string := m.*1.

Definition size {V} (m : t V) : Z := Z.of_nat (length m).

(** Mutating every value object in place while iterating [values()]. *)
Definition update_all {V} (f : V → V) (m : t V) : t V :=
  prod_map id f <$> m.

End JsMap.

(** ** Case conversion

    [String.prototype.toLowerCase] and [toUpperCase] are built-ins of the
    JavaScript runtime, which fold every cased letter of Unicode. The
    session and the handlers are embedded over any two conversions, so that
    what is proved of them holds for the runtime's own. *)
Class CaseFolding : Type := {
  toLowerCase : string → string;
  toUpperCase : string → string;
}.

(** The two conversions on ASCII letters, every other character kept: this
    is what the runtime's conversions do on ASCII text. The sample games,
    whose codes and names are ASCII, run on it. *)
Definition lower_ascii (c : ascii) : ascii :=
  let n := nat_of_ascii c in
  if (65 <=? n)%nat && (n <=? 90)%nat then ascii_of_nat (n + 32) else c.

Definition upper_ascii (c : ascii) : ascii :=
  let n := nat_of_ascii c in
  if (97 <=? n)%nat && (n <=? 122)%nat then ascii_of_nat (n - 32) else c.

Fixpoint map_string (f : ascii → ascii) (s : string) : string :=
  match s with
  | EmptyString => EmptyString
  | String c s' => String (f c) (map_string f s')
  end.

Definition ascii_case : CaseFolding :=
  {| toLowerCase := map_string lower_ascii;
     toUpperCase := map_string upper_ascii |}.

(** ** Data model (shared/types) *)

Inductive GameStatus : Type :=
  | IDLE | WAITING | QUESTION | REVEAL | LEADERBOARD | FINISHED.

Global Instance GameStatus_eq_dec : EqDecision GameStatus.
Proof. solve_decision. Defined.

Record Quiz : Type := mkQuiz {
  quiz_title : string;
  quiz_timer_seconds : Z;
}.

Record Option_ : Type := mkOption {
  opt_id : Z;
  option_text : string;
  is_correct : bool;
}.

Record Question : Type := mkQuestion {
  q_id : Z;
  question_text : string;
}.

Record QuestionWithOptions : Type := mkQuestionWithOptions {
  qw_id : Z;
  qw_question_text : string;
  qw_options : list Option_;
}.

Record Player : Type := mkPlayer {
  p_id : string;
  username : string;
  score : Z;
  currentAnswer : option Z;
  answerTimestamp : option Z;
}.

Definition QuestionResult : Type := (bool * Z)%type.

(** Handle returned by [setTimeout]. *)
Definition Timeout : Type := nat.

Record GameSession : Type := mkGameSession {
  gameCode : string;
  quizId : Z;
  quizTitle : string;
  players : JsMap.t Player;
  currentQuestionIndex : Z;
  totalQuestions : Z;
  timerSeconds : Z;
  status : GameStatus;
  questionStartTime : option Z;
  adminSocketId : string;
  questions : list QuestionWithOptions;
  questionResults : JsMap.t QuestionResult;
  questionTimer : option Timeout;
}.

(** Field assignments. *)

Definition set_players (f : JsMap.t Player → JsMap.t Player) (s : GameSession) : GameSession :=
  mkGameSession (gameCode s) (quizId s) (quizTitle s) (f (players s))
    (currentQuestionIndex s) (totalQuestions s) (timerSeconds s) (status s)
    (questionStartTime s) (adminSocketId s) (questions s) (questionResults s)
    (questionTimer s).

Definition set_currentQuestionIndex (i : Z) (s : GameSession) : GameSession :=
  mkGameSession (gameCode s) (quizId s) (quizTitle s) (players s)
    i (totalQuestions s) (timerSeconds s) (status s)
    (questionStartTime s) (adminSocketId s) (questions s) (questionResults s)
    (questionTimer s).

Definition set_status (st : GameStatus) (s : GameSession) : GameSession :=
  mkGameSession (gameCode s) (quizId s) (quizTitle s) (players s)
    (currentQuestionIndex s) (totalQuestions s) (timerSeconds s) st
    (questionStartTime s) (adminSocketId s) (questions s) (questionResults s)
    (questionTimer s).

Definition set_questionStartTime (t : option Z) (s : GameSession) : GameSession :=
  mkGameSession (gameCode s) (quizId s) (quizTitle s) (players s)
    (currentQuestionIndex s) (totalQuestions s) (timerSeconds s) (status s)
    t (adminSocketId s) (questions s) (questionResults s)
    (questionTimer s).

Definition set_questionResults (r : JsMap.t QuestionResult) (s : GameSession) : GameSession :=
  mkGameSession (gameCode s) (quizId s) (quizTitle s) (players s)
    (currentQuestionIndex s) (totalQuestions s) (timerSeconds s) (status s)
    (questionStartTime s) (adminSocketId s) (questions s) r
    (questionTimer s).

Definition set_questionTimer (t : option Timeout) (s : GameSession) : GameSession :=
  mkGameSession (gameCode s) (quizId s) (quizTitle s) (players s)
    (currentQuestionIndex s) (totalQuestions s) (timerSeconds s) (status s)
    (questionStartTime s) (adminSocketId s) (questions s) (questionResults s)
    t.

(** ** The timer table of the runtime ([setTimeout] / [clearTimeout])

    The only callback the program ever schedules is the deadline closure of
    [handleQuestion], which captures one session object. *)

Inductive Callback : Type :=
  | Deadline (session : nat).

Global Instance Callback_eq_dec : EqDecision Callback.
Proof. solve_decision. Defined.

Record Timeouts : Type := mkTimeouts {
  pending : list (Timeout * Callback);
  nextTimeout : Timeout;
}.

Definition setTimeout (cb : Callback) (tm : Timeouts) : Timeouts * Timeout :=
  (mkTimeouts (pending tm ++ [(nextTimeout tm, cb)]) (S (nextTimeout tm)),
   nextTimeout tm).

Definition clearTimeout (h : Timeout) (tm : Timeouts) : Timeouts :=
  mkTimeouts (filter (λ e, e.1 ≠ h) (pending tm)) (nextTimeout tm).

(** ** The quiz data source *)

(** Modelled from the spec: [getDb()] of database/db.js is not among the
    sources; the three prepared statements the constructor runs are taken as
    the interface of the data source ("fetch quiz by id with its ordered
    questions and ordered options"). *)
Record Db : Type := mkDb {
  quiz_by_id : Z → option Quiz;
  questions_of_quiz : Z → list Question;
  options_of_question : Z → list Option_;
}.

(** [arr[i]] for a JS number [i] holding an integer: [undefined] out of range. *)
Definition js_index {A} (l : list A) (i : Z) : option A :=
  if decide (0 ≤ i) then l !! Z.to_nat i else None.

(** Truthiness of a [number | null] timestamp. *)
Definition truthy (t : option Z) : bool :=
  match t with
  | Some v => bool_decide (v ≠ 0)
  | None => false
  end.

(** ** class GameSession *)

Record QuestionData : Type := mkQuestionData {
  qd_questionIndex : Z;
  qd_totalQuestions : Z;
  qd_questionText : string;
  qd_options : list (Z * string);
  qd_timerSeconds : Z;
}.

Definition PlayerResult : Type := (string * bool * Z)%type.

Record EndResult : Type := mkEndResult {
  correctOptionId : Z;
  playerResults : list PlayerResult;
}.

Definition set_score (v : Z) (p : Player) : Player :=
  mkPlayer (p_id p) (username p) v (currentAnswer p) (answerTimestamp p).

Definition set_answer (a t : option Z) (p : Player) : Player :=
  mkPlayer (p_id p) (username p) (score p) a t.

(** [new GameSession(quizId, adminSocketId)]; [code] is what
    [generateGameCode()] returns for this call. *)
Definition GameSession_constructor (db : Db) (quizId : Z) (adminSocketId : string)
    (code : string) : Res GameSession :=
  match quiz_by_id db quizId with
  | None => Throw "Quiz not found"
  | Some quiz =>
      let rows := questions_of_quiz db quizId in
      if decide (length rows = 0%nat) then Throw "Quiz has no questions"
      else
        let questions :=
          (λ q, mkQuestionWithOptions (q_id q) (question_text q)
                  (options_of_question db (q_id q))) <$> rows in
        Ret {| gameCode := code;
               quizId := quizId;
               quizTitle := quiz_title quiz;
               players := [];
               currentQuestionIndex := -1;
               totalQuestions := Z.of_nat (length questions);
               timerSeconds := quiz_timer_seconds quiz;
               status := WAITING;
               questionStartTime := None;
               adminSocketId := adminSocketId;
               questions := questions;
               questionResults := [];
               questionTimer := None |}
  end.

Definition addPlayer `{CaseFolding} (s : GameSession) (socketId name : string)
    : Res (GameSession * Player) :=
  if decide (status s ≠ WAITING) then Throw "Game has already started"
  else if existsb (λ p, bool_decide (toLowerCase (username p) = toLowerCase name))
            (JsMap.values (players s))
  then Throw "Username already taken"
  else
    let player := mkPlayer socketId name 0 None None in
    Ret (set_players (JsMap.set socketId player) s, player).

Definition removePlayer (s : GameSession) (socketId : string) : GameSession :=
  set_players (JsMap.delete socketId) s.

(** [now] is the value of [Date.now()]. The result is [Ret None] for the
    [null] return. *)
Definition startNextQuestion (s : GameSession) (now : Z)
    : GameSession * Res (option QuestionData) :=
  let s := set_currentQuestionIndex (currentQuestionIndex s + 1) s in
  if decide (currentQuestionIndex s >= totalQuestions s) then (s, Ret None)
  else
    let s := set_status QUESTION s in
    let s := set_questionStartTime (Some now) s in
    let s := set_questionResults [] s in
    let s := set_players (JsMap.update_all (set_answer None None)) s in
    match js_index (questions s) (currentQuestionIndex s) with
    | None => (s, Throw "TypeError: question is undefined")
    | Some question =>
        (s, Ret (Some {| qd_questionIndex := currentQuestionIndex s;
                         qd_totalQuestions := totalQuestions s;
                         qd_questionText := qw_question_text question;
                         qd_options :=
                           (λ o, (opt_id o, option_text o)) <$> qw_options question;
                         qd_timerSeconds := timerSeconds s |}))
    end.

Definition submitAnswer (s : GameSession) (socketId : string) (optionId : Z)
    (now : Z) : GameSession * bool :=
  if decide (status s ≠ QUESTION) then (s, false)
  else
    match JsMap.get socketId (players s) with
    | None => (s, false)
    | Some player =>
        match currentAnswer player with
        | Some _ => (s, false)
        | None =>
            (set_players
               (JsMap.set socketId (set_answer (Some optionId) (Some now) player)) s,
             true)
        end
    end.

Definition allPlayersAnswered (s : GameSession) : bool :=
  forallb (λ p, match currentAnswer p with Some _ => true | None => false end)
    (JsMap.values (players s)).

Definition isLastQuestion (s : GameSession) : bool :=
  bool_decide (currentQuestionIndex s >= totalQuestions s - 1).

(** [setQuestionTimer(callback)]: the delay [timerSeconds * 1000] does not
    appear, the table only records that the callback is pending. *)
Definition setQuestionTimer (tm : Timeouts) (s : GameSession) (callback : Callback)
    : Timeouts * GameSession :=
  let '(tm, h) := setTimeout callback tm in
  (tm, set_questionTimer (Some h) s).

Definition cleanup (tm : Timeouts) (s : GameSession) : Timeouts * GameSession :=
  match questionTimer s with
  | Some h => (clearTimeout h tm, set_questionTimer None s)
  | None => (tm, s)
  end.

Definition correctOptionIdOf (question : QuestionWithOptions) : Z :=
  match find is_correct (qw_options question) with
  | Some correctOption => opt_id correctOption
  | None => -1
  end.

Section Scoring.

(** [calculateScore(timeTaken, timerSeconds)] of services/scoring.js, which
    is not among the sources: a parameter of the session. [timeTaken] is
    the quotient of a millisecond difference by 1000, passed as that
    rational. *)
Variable calculateScore : Q → Z → Z.

(** The body of the [for] loop of [endQuestion] for one player:
    [correct] and [points]. *)
Definition answerOutcome (s : GameSession) (correctId : Z) (p : Player)
    : bool * Z :=
  let correct := bool_decide (currentAnswer p = Some correctId) in
  let points :=
    match questionStartTime s, answerTimestamp p with
    | Some t0, Some t1 =>
        if correct && truthy (Some t0) && truthy (Some t1)
        then calculateScore (Qmake (t1 - t0) 1000) (timerSeconds s)
        else 0
    | _, _ => 0
    end in
  (correct, points).

(** The [for (const player of this.players.values())] loop of
    [endQuestion]: the players with their scores updated, the
    [questionResults] map and the [playerResults] array. *)
Fixpoint endQuestion_loop (s : GameSession) (correctId : Z)
    (ps : JsMap.t Player) (results : JsMap.t QuestionResult)
    : JsMap.t Player * JsMap.t QuestionResult * list PlayerResult :=
  match ps with
  | [] => ([], results, [])
  | (k, player) :: rest =>
      let '(correct, points) := answerOutcome s correctId player in
      let player' := set_score (score player + points) player in
      let results := JsMap.set (p_id player) (correct, points) results in
      let '(rest', results', out) := endQuestion_loop s correctId rest results in
      ((k, player') :: rest', results', (username player, correct, points) :: out)
  end.

Definition endQuestion (tm : Timeouts) (s : GameSession)
    : Timeouts * GameSession * Res EndResult :=
  let s := set_status REVEAL s in
  let '(tm, s) :=
    match questionTimer s with
    | Some h => (clearTimeout h tm, set_questionTimer None s)
    | None => (tm, s)
    end in
  match js_index (questions s) (currentQuestionIndex s) with
  | None => (tm, s, Throw "TypeError: question is undefined")
  | Some question =>
      let correctOptionId := correctOptionIdOf question in
      let '(ps, results, out) :=
        endQuestion_loop s correctOptionId (players s) (questionResults s) in
      let s := set_questionResults results (set_players (λ _, ps) s) in
      (tm, s, Ret {| correctOptionId := correctOptionId; playerResults := out |})
  end.

(** What one pass of the loop makes of a player. *)
Definition scored (s : GameSession) (correctId : Z) (p : Player) : Player :=
  set_score (score p + (answerOutcome s correctId p).2) p.

End Scoring.

(** ** The registry [activeGames] and the server state *)

Record Server : Type := mkServer {
  objects : list GameSession;      (* the [GameSession] objects, by reference *)
  activeGames : JsMap.t nat;       (* [Map<string, GameSession>] *)
  timeouts : Timeouts;
}.

Definition emptyServer : Server := mkServer [] [] (mkTimeouts [] 0%nat).

(** Writing the fields of the object behind reference [r]. *)
Definition store (srv : Server) (r : nat) (s : GameSession) : Server :=
  mkServer (<[r := s]> (objects srv)) (activeGames srv) (timeouts srv).

Definition set_timeouts (tm : Timeouts) (srv : Server) : Server :=
  mkServer (objects srv) (activeGames srv) tm.

(** [activeGames.values()], each reference with the object it denotes. *)
Definition sessions (srv : Server) : list (nat * GameSession) :=
  omap (λ r, (λ g, (r, g)) <$> objects srv !! r) (JsMap.values (activeGames srv)).

Definition getGame (srv : Server) (code : string) : option (nat * GameSession) :=
  r ← JsMap.get code (activeGames srv);
  g ← objects srv !! r;
  Some (r, g).

Definition getGameByAdminSocket (srv : Server) (socketId : string)
    : option (nat * GameSession) :=
  find (λ rg, bool_decide (adminSocketId rg.2 = socketId)) (sessions srv).

Definition getGameByPlayerSocket (srv : Server) (socketId : string)
    : option (nat * GameSession) :=
  find (λ rg, JsMap.has socketId (players rg.2)) (sessions srv).

Definition removeGame (srv : Server) (code : string) : Server :=
  match getGame srv code with
  | Some (r, game) =>
      let '(tm, game) := cleanup (timeouts srv) game in
      mkServer (<[r := game]> (objects srv)) (JsMap.delete code (activeGames srv)) tm
  | None => srv
  end.

(** ** Socket events and broadcasts *)

Inductive Token : Type := NoToken | InvalidToken | ValidToken.

Inductive Event : Type :=
  | create_game (socket : string) (token : Token) (quiz : Z) (code : string)
  | join_game (socket : string) (code : string) (name : string)
  | start_game (socket : string) (now : Z)
  | submit_answer (socket : string) (optionId : Z) (now : Z)
  | next_question (socket : string) (now : Z)
  | end_game (socket : string)
  | disconnect (socket : string)
  | timeout_fires (h : Timeout).

(** The leaderboard payloads ([buildLeaderboard] of services/scoring.js) are
    left out of the messages: [getLeaderboard] only reads the session. *)
Inductive Msg : Type :=
  | error_msg (message : string)
  | game_created (code : string)
  | player_joined (name : string) (playerCount : Z)
  | game_status (st : GameStatus) (playerCount : Z)
  | question_start (d : QuestionData)
  | question_end (r : EndResult)
  | leaderboard_update
  | game_end
  | player_left (name : string) (playerCount : Z).

Inductive Emit : Type :=
  | ToSocket (socket : string) (m : Msg)
  | ToRoom (code : string) (m : Msg).

Section Handlers.

Context {folding : CaseFolding}.
Variable calculateScore : Q → Z → Z.
Variable db : Db.

(** [createGame(quizId, adminSocketId)], with the code the constructor
    draws. *)
Definition createGame (srv : Server) (quiz : Z) (admin : string) (code : string)
    : Server * Res (nat * GameSession) :=
  match GameSession_constructor db quiz admin code with
  | Throw msg => (srv, Throw msg)
  | Ret session =>
      let r := length (objects srv) in
      (mkServer (objects srv ++ [session])
         (JsMap.set (gameCode session) r (activeGames srv))
         (timeouts srv),
       Ret (r, session))
  end.

(** The statements that [submit_answer] and the deadline callback share:
    [endQuestion], the two broadcasts and [status = 'leaderboard']. An
    exception of [endQuestion] leaves what it did before throwing. *)
Definition closeQuestion (srv : Server) (r : nat) (session : GameSession)
    : Server * list Emit :=
  let '(tm, session, res) := endQuestion calculateScore (timeouts srv) session in
  match res with
  | Throw _ => (set_timeouts tm (store srv r session), [])
  | Ret results =>
      (set_timeouts tm (store srv r (set_status LEADERBOARD session)),
       [ToRoom (gameCode session) (question_end results);
        ToRoom (gameCode session) leaderboard_update])
  end.

(** The callback passed to [setQuestionTimer] by [handleQuestion]. *)
Definition deadline_callback (srv : Server) (cb : Callback) : Server * list Emit :=
  match cb with
  | Deadline r =>
      match objects srv !! r with
      | Some session => closeQuestion srv r session
      | None => (srv, [])
      end
  end.

Definition handleQuestion (srv : Server) (r : nat) (session : GameSession)
    (d : QuestionData) : Server * list Emit :=
  let '(tm, session) := setQuestionTimer (timeouts srv) session (Deadline r) in
  (set_timeouts tm (store srv r session),
   [ToRoom (gameCode session) (question_start d)]).

Definition on_create_game (srv : Server) (socket : string) (token : Token)
    (quiz : Z) (code : string) : Server * list Emit :=
  match token with
  | NoToken => (srv, [ToSocket socket (error_msg "Authentication required")])
  | InvalidToken => (srv, [ToSocket socket (error_msg "Invalid token")])
  | ValidToken =>
      match getGameByAdminSocket srv socket with
      | Some (_, existing) =>
          (srv, [ToSocket socket (game_created (gameCode existing))])
      | None =>
          match createGame srv quiz socket code with
          | (srv, Ret (_, session)) =>
              (srv, [ToSocket socket (game_created (gameCode session))])
          | (srv, Throw message) => (srv, [ToSocket socket (error_msg message)])
          end
      end
  end.

Definition on_join_game (srv : Server) (socket : string) (gameCode_ : string)
    (name : string) : Server * list Emit :=
  let code := toUpperCase gameCode_ in
  match getGame srv code with
  | None => (srv, [ToSocket socket (error_msg "Game not found")])
  | Some (r, session) =>
      match addPlayer session socket name with
      | Throw message => (srv, [ToSocket socket (error_msg message)])
      | Ret (session, _) =>
          (store srv r session,
           [ToRoom code (player_joined name (JsMap.size (players session)));
            ToSocket socket
              (game_status (status session) (JsMap.size (players session)))])
      end
  end.

Definition on_start_game (srv : Server) (socket : string) (now : Z)
    : Server * list Emit :=
  match getGameByAdminSocket srv socket with
  | None => (srv, [ToSocket socket (error_msg "No game found")])
  | Some (r, session) =>
      if decide (JsMap.size (players session) = 0)
      then (srv, [ToSocket socket (error_msg "No players have joined")])
      else
        match startNextQuestion session now with
        | (session, Throw _) => (store srv r session, [])
        | (session, Ret None) =>
            (store srv r session,
             [ToSocket socket (error_msg "No questions available")])
        | (session, Ret (Some questionData)) =>
            handleQuestion srv r session questionData
        end
  end.

Definition on_submit_answer (srv : Server) (socket : string) (optionId : Z)
    (now : Z) : Server * list Emit :=
  match getGameByPlayerSocket srv socket with
  | None => (srv, [])
  | Some (r, session) =>
      let '(session, accepted) := submitAnswer session socket optionId now in
      if negb accepted then (srv, [])
      else if allPlayersAnswered session then closeQuestion srv r session
      else (store srv r session, [])
  end.

(** The statements that [next_question] (on the last question), [end_game]
    and the admin's [disconnect] share. *)
Definition finishGame (srv : Server) (r : nat) (session : GameSession)
    : Server * list Emit :=
  let session := set_status FINISHED session in
  (removeGame (store srv r session) (gameCode session),
   [ToRoom (gameCode session) game_end]).

Definition on_next_question (srv : Server) (socket : string) (now : Z)
    : Server * list Emit :=
  match getGameByAdminSocket srv socket with
  | None => (srv, [])
  | Some (r, session) =>
      if isLastQuestion session then finishGame srv r session
      else
        match startNextQuestion session now with
        | (session, Throw _) => (store srv r session, [])
        | (session, Ret None) => (store srv r session, [])
        | (session, Ret (Some questionData)) =>
            handleQuestion srv r session questionData
        end
  end.

Definition on_end_game (srv : Server) (socket : string) : Server * list Emit :=
  match getGameByAdminSocket srv socket with
  | None => (srv, [])
  | Some (r, session) => finishGame srv r session
  end.

Definition on_disconnect (srv : Server) (socket : string) : Server * list Emit :=
  match getGameByAdminSocket srv socket with
  | Some (r, adminGame) => finishGame srv r adminGame
  | None =>
      match getGameByPlayerSocket srv socket with
      | Some (r, playerGame) =>
          let name :=
            match JsMap.get socket (players playerGame) with
            | Some player => username player
            | None => "Unknown"
            end in
          let playerGame := removePlayer playerGame socket in
          (store srv r playerGame,
           [ToRoom (gameCode playerGame)
              (player_left name (JsMap.size (players playerGame)))])
      | None => (srv, [])
      end
  end.

(** A pending timeout fires: it leaves the table and its callback runs. A
    handle that is not pending (cleared, or already fired) does nothing. *)
Definition on_timeout (srv : Server) (h : Timeout) : Server * list Emit :=
  match find (λ e, bool_decide (e.1 = h)) (pending (timeouts srv)) with
  | None => (srv, [])
  | Some (_, cb) =>
      deadline_callback (set_timeouts (clearTimeout h (timeouts srv)) srv) cb
  end.

(** One turn of the event loop. *)
Definition step (srv : Server) (e : Event) : Server * list Emit :=
  match e with
  | create_game socket token quiz code => on_create_game srv socket token quiz code
  | join_game socket code name => on_join_game srv socket code name
  | start_game socket now => on_start_game srv socket now
  | submit_answer socket optionId now => on_submit_answer srv socket optionId now
  | next_question socket now => on_next_question srv socket now
  | end_game socket => on_end_game srv socket
  | disconnect socket => on_disconnect srv socket
  | timeout_fires h => on_timeout srv h
  end.

Definition run (srv : Server) (trace : list Event) : Server :=
  foldl (λ srv e, (step srv e).1) srv trace.

End Handlers.

(** ** A scoring function and a quiz data source to run the model on *)

(** Modelled from the spec: [calculateScore] of services/scoring.js is not
    among the sources. "A fixed maximum award for an instantaneous answer,
    decaying toward a fixed minimum award as elapsed time approaches the
    full budget, clamped so no answer submitted within budget scores below
    the minimum and none exceeds the maximum." The spec leaves the two
    awards open; they are arguments here. *)
Definition calculateScore_model (maxAward minAward : Z) (timeTaken : Q)
    (timeBudget : Z) : Z :=
  Z.max minAward
    (Z.min maxAward
       (maxAward
        - Qfloor (inject_Z (maxAward - minAward) * timeTaken / inject_Z timeBudget))).

Definition scoreModel : Q → Z → Z := calculateScore_model 1000 500.

Definition sampleDb : Db :=
  {| quiz_by_id := λ i,
       if decide (i = 1) then Some (mkQuiz "Capitals" 20)
       else if decide (i = 2) then Some (mkQuiz "Unflagged" 20)
       else if decide (i = 3) then Some (mkQuiz "Empty" 20)
       else if decide (i = 4) then Some (mkQuiz "Single" 20)
       else None;
     questions_of_quiz := λ i,
       if decide (i = 1)
       then [mkQuestion 10 "Capital of France?"; mkQuestion 11 "Capital of Spain?"]
       else if decide (i = 2) then [mkQuestion 20 "No right answer?"]
       else if decide (i = 4) then [mkQuestion 40 "Capital of Italy?"]
       else [];
     options_of_question := λ q,
       if decide (q = 10) then [mkOption 100 "Paris" true; mkOption 101 "Rome" false]
       else if decide (q = 11) then [mkOption 110 "Berlin" false; mkOption 111 "Madrid" true]
       else if decide (q = 20) then [mkOption 200 "Yes" false; mkOption 201 "No" false]
       else if decide (q = 40) then [mkOption 400 "Rome" true; mkOption 401 "Milan" false]
       else [] |}.

Section SampleGames.

Local Existing Instance ascii_case.

(** Scenario A of the spec up to Alice's answer: two players, the first
    question open since [t = 1000], Alice answered correctly two seconds in. *)
Definition traceA : list Event :=
  [create_game "admin" ValidToken 1 "ABC123";
   join_game "alice" "abc123" "Alice";
   join_game "bob" "ABC123" "Bob";
   start_game "admin" 1000;
   submit_answer "alice" 100 3000].

Definition serverA : Server := run scoreModel sampleDb emptyServer traceA.

Definition noSession : GameSession :=
  mkGameSession "" 0 "" [] 0 0 0 IDLE None "" [] [] None.

Definition sessionA : GameSession := default noSession (objects serverA !! 0%nat).

Definition aliceA : Player := mkPlayer "alice" "Alice" 0 (Some 100) (Some 3000).

Definition questionA : QuestionWithOptions :=
  mkQuestionWithOptions 10 "Capital of France?"
    [mkOption 100 "Paris" true; mkOption 101 "Rome" false].

(** A quiz whose only question has no option flagged correct, with the
    question open and Alice yet to answer. *)
Definition traceUnflagged : list Event :=
  [create_game "admin" ValidToken 2 "NOFLAG";
   join_game "alice" "NOFLAG" "Alice";
   start_game "admin" 1000].

Definition sessionUnflagged : GameSession :=
  default noSession (objects (run scoreModel sampleDb emptyServer traceUnflagged) !! 0%nat).

Definition aliceUnflagged : Player := mkPlayer "alice" "Alice" 0 None None.

Definition questionUnflagged : QuestionWithOptions :=
  mkQuestionWithOptions 20 "No right answer?"
    [mkOption 200 "Yes" false; mkOption 201 "No" false].

(** The session that a second admin gets for the one-question quiz. *)
Definition sessionFresh : GameSession :=
  match GameSession_constructor sampleDb 4 "other" "FRESH1" with
  | Ret s => s
  | Throw _ => noSession
  end.

(** A one-question quiz on which [start_game] is issued twice. *)
Definition traceTwoStarts : list Event :=
  [create_game "admin" ValidToken 4 "ONEQ42";
   join_game "alice" "ONEQ42" "Alice";
   start_game "admin" 1000;
   start_game "admin" 2000].

(** A second game whose drawn code is the one of a live game. *)
Definition traceLive : list Event :=
  [create_game "admin" ValidToken 1 "ABC123";
   join_game "alice" "ABC123" "Alice"].

Definition traceCollision : list Event :=
  traceLive ++ [create_game "other" ValidToken 4 "ABC123"].

(** The admin asks for the next question while the first one is open; the
    only player then answers the second question, which closes it. *)
Definition traceNextWhileOpen : list Event :=
  [create_game "admin" ValidToken 1 "ABC123";
   join_game "alice" "ABC123" "Alice";
   start_game "admin" 1000;
   next_question "admin" 5000].

Definition traceStaleDeadline : list Event :=
  traceNextWhileOpen ++ [submit_answer "alice" 111 6000].

End SampleGames.

Definition scoreOf (socketId : string) (s : GameSession) : option Z :=
  score <$> JsMap.get socketId (players s).

(** ** What one event can do to one session object

    The handlers reach a session through the registry and call its methods;
    these relations collect the method calls an event can make on one
    object, for the invariants that concern a single session. *)

Section ObjectSteps.

Context {folding : CaseFolding}.
Variable calculateScore : Q → Z → Z.

(** [endQuestion] followed, when it returns, by [status = 'leaderboard']. *)
Definition closeSession (tm : Timeouts) (s : GameSession) : GameSession :=
  match endQuestion calculateScore tm s with
  | (_, s', Ret _) => set_status LEADERBOARD s'
  | (_, s', Throw _) => s'
  end.

(** [startNextQuestion], then [setQuestionTimer] when a question opened. *)
Definition opened (now : Z) (s s' : GameSession) : Prop :=
  s' = (startNextQuestion s now).1 ∨
  ∃ h, s' = set_questionTimer (Some h) (startNextQuestion s now).1.

(** [status = 'finished'] and/or the [cleanup] of [removeGame]. *)
Definition torn_down (s s' : GameSession) : Prop :=
  s' = set_status FINISHED s ∨
  (∃ tm, s' = (cleanup tm s).2) ∨
  (∃ tm, s' = (cleanup tm (set_status FINISHED s)).2).

Definition obj_step (e : Event) (s s' : GameSession) : Prop :=
  s' = s ∨
  match e with
  | create_game _ _ _ _ => False
  | join_game socket _ name => ∃ p, addPlayer s socket name = Ret (s', p)
  | start_game _ now => opened now s s'
  | next_question _ now => opened now s s' ∨ torn_down s s'
  | submit_answer socket optionId now =>
      (submitAnswer s socket optionId now).2 = true ∧
      (allPlayersAnswered (submitAnswer s socket optionId now).1 = false ∧
       s' = (submitAnswer s socket optionId now).1
       ∨ allPlayersAnswered (submitAnswer s socket optionId now).1 = true ∧
         ∃ tm, s' = closeSession tm (submitAnswer s socket optionId now).1)
  | end_game _ => torn_down s s'
  | disconnect socket => torn_down s s' ∨ s' = removePlayer s socket
  | timeout_fires _ => ∃ tm, s' = closeSession tm s
  end.

End ObjectSteps.

(** ** Invariants *)

(** The registry is keyed by the game code of the session it holds, holds
    one entry per code, and holds at most one session per admin socket. *)
Record registry_ok (srv : Server) : Prop := {
  reg_keys : NoDup (JsMap.keys (activeGames srv));
  reg_code : ∀ c r, (c, r) ∈ activeGames srv →
               ∃ g, objects srv !! r = Some g ∧ gameCode g = c;
  reg_admin : ∀ c1 c2 r1 r2 g1 g2,
               (c1, r1) ∈ activeGames srv → (c2, r2) ∈ activeGames srv →
               objects srv !! r1 = Some g1 → objects srv !! r2 = Some g2 →
               adminSocketId g1 = adminSocketId g2 → c1 = c2;
}.

(** Scores are non-negative, and all zero until the first question opens. *)
Definition scores_ok (s : GameSession) : Prop :=
  ∀ p, p ∈ JsMap.values (players s) →
    0 ≤ score p ∧ (status s = WAITING → score p = 0).

(** The roster has one entry per socket. *)
Definition session_ok (s : GameSession) : Prop :=
  NoDup (JsMap.keys (players s)) ∧ scores_ok s.

(** A change of a session that keeps the roster's sockets and can only
    raise scores: each player of [s'] is the player of [s] under the same
    socket, with a score at least as high, and the same score if [s'] is
    still waiting. *)
Definition lifted (s s' : GameSession) : Prop :=
  JsMap.keys (players s') = JsMap.keys (players s) ∧
  (status s' = WAITING → status s = WAITING) ∧
  ∀ socketId, ∃ g : Player → Player,
    (∀ p, score p ≤ score (g p) ∧ (status s' = WAITING → score (g p) = score p)) ∧
    JsMap.get socketId (players s') = g <$> JsMap.get socketId (players s).

(** The deadlines pending for a session. *)
Definition deadlines_of (srv : Server) (r : nat) : list (Timeout * Callback) :=
  filter (λ e, e.2 = Deadline r) (pending (timeouts srv)).

(** Every pending deadline is the one its session records, and that session
    has a question open; handles are never reused. *)
Record timers_ok (srv : Server) : Prop := {
  tm_recorded : ∀ h r, (h, Deadline r) ∈ pending (timeouts srv) →
                  ∃ s, objects srv !! r = Some s ∧
                       questionTimer s = Some h ∧ status s = QUESTION;
  tm_fresh : ∀ h cb, (h, cb) ∈ pending (timeouts srv) →
               (h < nextTimeout (timeouts srv))%nat;
  tm_nodup : NoDup (pending (timeouts srv)).*1;
}.

(** The admin asks for a question ([start_game], [next_question]) only
    while no question of their game is open. *)
Definition guarded (srv : Server) (e : Event) : bool :=
  match e with
  | start_game socket _ | next_question socket _ =>
      match getGameByAdminSocket srv socket with
      | Some (_, session) => negb (bool_decide (status session = QUESTION))
      | None => true
      end
  | _ => true
  end.

Fixpoint guarded_trace `{CaseFolding} (calculateScore : Q → Z → Z) (db : Db) (srv : Server)
    (trace : list Event) : bool :=
  match trace with
  | [] => true
  | e :: trace' =>
      guarded srv e && guarded_trace calculateScore db (step calculateScore db srv e).1 trace'
  end.

(** A step that creates no session: no object is added and the registry
    loses at most one entry. *)
Definition registry_kept (srv srv' : Server) : Prop :=
  length (objects srv') = length (objects srv) ∧
  (activeGames srv' = activeGames srv ∨
   ∃ code, activeGames srv' = JsMap.delete code (activeGames srv)).

Section SampleStates.

Local Existing Instance ascii_case.

(** More states of the sample game: the game waiting with Alice on the
    roster; scenario A after the deadline has fired; scenario A after Bob
    has left. *)
Definition serverLive : Server := run scoreModel sampleDb emptyServer traceLive.

Definition sessionLive : GameSession := default noSession (objects serverLive !! 0%nat).

Definition bobA : Player := mkPlayer "bob" "Bob" 0 None None.

Definition sessionAfterDeadline : GameSession :=
  default noSession
    (objects (step scoreModel sampleDb serverA (timeout_fires 0%nat)).1 !! 0%nat).

Definition sessionAfterBobLeft : GameSession :=
  default noSession
    (objects (step scoreModel sampleDb serverA (disconnect "bob")).1 !! 0%nat).

End SampleStates.

(** ** Notions for the roster and the quiz snapshot *)

(** The names on the roster, as the collision check of [addPlayer] compares
    them. *)
Definition rosterNames `{CaseFolding} (s : GameSession) : list string :=
  (λ p, toLowerCase (username p)) <$> JsMap.values (players s).

(** Who is on a roster: socket, [id] field and name of every entry, in
    order; the answers and the scores are left out. *)
Definition identities (ps : JsMap.t Player) : list (string * string * string) :=
  (λ kp, (kp.1, p_id kp.2, username kp.2)) <$> ps.

(** The roster has one entry per name (compared without case), and the
    [id] of a player is the socket it is stored under. *)
Definition roster_ok `{CaseFolding} (s : GameSession) : Prop :=
  NoDup (rosterNames s) ∧ ∀ k p, (k, p) ∈ players s → p_id p = k.

(** The fields that the constructor sets once. *)
Definition same_snapshot (s s' : GameSession) : Prop :=
  gameCode s' = gameCode s ∧ quizId s' = quizId s ∧ quizTitle s' = quizTitle s ∧
  adminSocketId s' = adminSocketId s ∧ questions s' = questions s ∧
  totalQuestions s' = totalQuestions s ∧ timerSeconds s' = timerSeconds s.

Definition snapshot_ok (s : GameSession) : Prop :=
  totalQuestions s = Z.of_nat (length (questions s)) ∧ 0 < totalQuestions s ∧
  -1 ≤ currentQuestionIndex s.

(** Text of ASCII characters only: on it the conversions of [ascii_case]
    are JavaScript's. *)
Fixpoint ascii_text (s : string) : bool :=
  match s with
  | EmptyString => true
  | String c s' => (nat_of_ascii c <? 128)%nat && ascii_text s'
  end.

(** While a question is open, there is a question at the current index. *)
Definition open_in_range (s : GameSession) : Prop :=
  status s = QUESTION →
  ∃ q, js_index (questions s) (currentQuestionIndex s) = Some q.

(** The events that end the game of an admin. *)
Definition ends_game (socket : string) (session : GameSession) (e : Event) : Prop :=
  e = end_game socket ∨ e = disconnect socket ∨
  ∃ now, e = next_question socket now ∧ isLastQuestion session = true.

(** [start_game] reaches only a game with a question left to open: one
    that is not on its last question, as is every game still waiting. *)
Definition start_has_question (srv : Server) (e : Event) : bool :=
  match e with
  | start_game socket _ =>
      match getGameByAdminSocket srv socket with
      | Some (_, session) => negb (isLastQuestion session)
      | None => true
      end
  | _ => true
  end.

Fixpoint starts_have_question `{CaseFolding} (calculateScore : Q → Z → Z) (db : Db)
    (srv : Server) (trace : list Event) : bool :=
  match trace with
  | [] => true
  | e :: trace' =>
      start_has_question srv e
      && starts_have_question calculateScore db (step calculateScore db srv e).1 trace'
  end.

(** Alice alone in the two-question game: her answer closes the first
    question and the admin opens the second, the last one. *)
Definition traceSecondQuestion : list Event :=
  [create_game "admin" ValidToken 1 "ABC123";
   join_game "alice" "ABC123" "Alice";
   start_game "admin" 1000;
   submit_answer "alice" 100 3000;
   next_question "admin" 30000].

(** Two games side by side: the waiting game of "admin" with Alice, and the
    one-question game of "other" with Bob. *)
Definition traceTwoGames : list Event :=
  [create_game "admin" ValidToken 1 "ABC123";
   join_game "alice" "ABC123" "Alice";
   create_game "other" ValidToken 4 "FRESH1";
   join_game "bob" "fresh1" "Bob"].

(** * Properties *)

(** The properties hold for any case conversions, the runtime's among
    them. *)
Section AnyCase.

Context {folding : CaseFolding}.

(** ** JS maps *)

Section JsMapFacts.

Context {V : Type}.
Implicit Types (m : JsMap.t V) (k : string).

Lemma get_set_eq k v m : JsMap.get k (JsMap.set k v m) = Some v.
Proof.
  induction m as [|[k' v'] m IH]; simpl.
  - by rewrite decide_True.
  - destruct (decide (k' = k)) as [->|Hne]; simpl.
    + by rewrite decide_True.
    + by rewrite decide_False.
Qed.

Lemma get_set_ne k k' v m : k ≠ k' → JsMap.get k' (JsMap.set k v m) = JsMap.get k' m.
Proof.
  intros Hne. induction m as [|[k0 v0] m IH]; simpl.
  - by rewrite decide_False.
  - destruct (decide (k0 = k)) as [->|Hk0]; simpl.
    + by rewrite !decide_False.
    + destruct (decide (k0 = k')); [done | apply IH].
Qed.

Lemma get_Some_elem k v m : JsMap.get k m = Some v → (k, v) ∈ m.
Proof.
  induction m as [|[k' v'] m IH]; simpl; [done|].
  destruct (decide (k' = k)) as [->|Hne].
  - intros [= ->]. left.
  - intros H. right. by apply IH.
Qed.

Lemma get_None_keys k m : JsMap.get k m = None ↔ k ∉ JsMap.keys m.
Proof.
  unfold JsMap.keys. induction m as [|[k' v'] m IH]; simpl.
  - split; [intros _; apply not_elem_of_nil | done].
  - rewrite not_elem_of_cons. destruct (decide (k' = k)) as [->|Hne].
    + split; [done | intros [? _]; done].
    + rewrite IH. split; [intros ?; split; [congruence | done] | intros [_ ?]; done].
Qed.

Lemma values_elem v m : v ∈ JsMap.values m ↔ ∃ k, (k, v) ∈ m.
Proof.
  unfold JsMap.values. rewrite list_elem_of_fmap. split.
  - intros [[k v'] [-> H]]. by exists k.
  - intros [k H]. by exists (k, v).
Qed.

Lemma elem_set k v m kv :
  kv ∈ JsMap.set k v m → kv = (k, v) ∨ kv ∈ m.
Proof.
  induction m as [|[k' v'] m IH]; simpl.
  - rewrite list_elem_of_singleton. by left.
  - destruct (decide (k' = k)) as [->|Hne]; rewrite !elem_of_cons.
    + intros [->|H]; [by left | right; by right].
    + intros [->|H]; [right; by left |].
      destruct (IH H); [by left | right; by right].
Qed.

Lemma elem_delete k m kv : kv ∈ JsMap.delete k m → kv ∈ m.
Proof.
  induction m as [|[k' v'] m IH]; simpl; [done|].
  destruct (decide (k' = k)) as [->|Hne]; rewrite ?elem_of_cons.
  - by right.
  - intros [->|H]; [by left | right; by apply IH].
Qed.

Lemma get_delete_ne k k' m : k ≠ k' → JsMap.get k' (JsMap.delete k m) = JsMap.get k' m.
Proof.
  intros Hne. induction m as [|[k0 v0] m IH]; simpl; [done|].
  destruct (decide (k0 = k)) as [->|Hk0]; simpl.
  - by rewrite decide_False.
  - destruct (decide (k0 = k')); [done | apply IH].
Qed.

Lemma get_update_all (f : V → V) k m :
  JsMap.get k (JsMap.update_all f m) = f <$> JsMap.get k m.
Proof.
  unfold JsMap.update_all. induction m as [|[k' v'] m IH]; simpl; [done|].
  destruct (decide (k' = k)); [done | apply IH].
Qed.

End JsMapFacts.


(** ** The closing loop *)

Section EndQuestionFacts.

Variable calculateScore : Q → Z → Z.

Lemma endQuestion_loop_players s cid ps results :
  (endQuestion_loop calculateScore s cid ps results).1.1
  = JsMap.update_all (scored calculateScore s cid) ps.
Proof.
  revert results. induction ps as [|[k p] ps IH]; intros results; simpl; [done|].
  specialize (IH (JsMap.set (p_id p)
    (bool_decide (currentAnswer p = Some cid), (answerOutcome calculateScore s cid p).2)
    results)).
  unfold answerOutcome in *. simpl in *.
  destruct (endQuestion_loop _ _ _ _ _) as [[ps' results'] out]. simpl in *.
  by rewrite IH.
Qed.

Lemma endQuestion_loop_out s cid ps results :
  (endQuestion_loop calculateScore s cid ps results).2
  = (λ kp, (username kp.2, (answerOutcome calculateScore s cid kp.2).1,
            (answerOutcome calculateScore s cid kp.2).2)) <$> ps.
Proof.
  revert results. induction ps as [|[k p] ps IH]; intros results; simpl; [done|].
  specialize (IH (JsMap.set (p_id p)
    (bool_decide (currentAnswer p = Some cid), (answerOutcome calculateScore s cid p).2)
    results)).
  unfold answerOutcome in *. simpl in *.
  destruct (endQuestion_loop _ _ _ _ _) as [[ps' results'] out]. simpl in *.
  by rewrite IH.
Qed.

(** The outcome of a player only reads the session's start time and time
    budget, and the player's answer. *)
Lemma answerOutcome_ext s s' cid p p' :
  questionStartTime s' = questionStartTime s →
  timerSeconds s' = timerSeconds s →
  currentAnswer p' = currentAnswer p →
  answerTimestamp p' = answerTimestamp p →
  answerOutcome calculateScore s' cid p' = answerOutcome calculateScore s cid p.
Proof. unfold answerOutcome. by intros -> -> -> ->. Qed.

(** [endQuestion] on a session whose current question exists. *)
Lemma endQuestion_defined tm s q :
  js_index (questions s) (currentQuestionIndex s) = Some q →
  endQuestion calculateScore tm s
  = (match questionTimer s with Some h => clearTimeout h tm | None => tm end,
     set_questionResults
       (endQuestion_loop calculateScore
          (set_questionTimer None (set_status REVEAL s)) (correctOptionIdOf q)
          (players s) (questionResults s)).1.2
       (set_players
          (λ _, JsMap.update_all (scored calculateScore s (correctOptionIdOf q)) (players s))
          (set_questionTimer None (set_status REVEAL s))),
     Ret {| correctOptionId := correctOptionIdOf q;
            playerResults :=
              (λ kp, (username kp.2,
                      (answerOutcome calculateScore s (correctOptionIdOf q) kp.2).1,
                      (answerOutcome calculateScore s (correctOptionIdOf q) kp.2).2))
                <$> players s |}).
Proof.
  intros Hq. unfold endQuestion.
  assert (Hloop : ∀ s0, questionStartTime s0 = questionStartTime s →
            timerSeconds s0 = timerSeconds s →
            ∀ ps results,
            endQuestion_loop calculateScore s0 (correctOptionIdOf q) ps results
            = endQuestion_loop calculateScore s (correctOptionIdOf q) ps results).
  { intros s0 H1 H2 ps. induction ps as [|[k p] ps IH]; intros results; [done|].
    cbn [endQuestion_loop].
    rewrite (answerOutcome_ext s s0 _ p p) by done.
    destruct (answerOutcome _ _ _ _) as [c pts]. by rewrite IH. }
  replace (questionTimer (set_status REVEAL s)) with (questionTimer s) by done.
  destruct (questionTimer s) as [h|] eqn:Ht;
    (replace (js_index _ _) with (Some q) by (symmetry; exact Hq)).
  - pose proof (endQuestion_loop_players (set_questionTimer None (set_status REVEAL s))
      (correctOptionIdOf q) (players s) (questionResults s)) as Hp.
    pose proof (endQuestion_loop_out (set_questionTimer None (set_status REVEAL s))
      (correctOptionIdOf q) (players s) (questionResults s)) as Ho.
    simpl in *.
    destruct (endQuestion_loop _ _ _ _ _) as [[ps' results'] out]. simpl in *.
    subst ps' out. done.
  - pose proof (endQuestion_loop_players (set_status REVEAL s)
      (correctOptionIdOf q) (players s) (questionResults s)) as Hp.
    pose proof (endQuestion_loop_out (set_status REVEAL s)
      (correctOptionIdOf q) (players s) (questionResults s)) as Ho.
    rewrite (Hloop (set_questionTimer None (set_status REVEAL s))) by done.
    rewrite <- (Hloop (set_status REVEAL s)) by done.
    simpl in *.
    destruct (endQuestion_loop _ _ _ _ _) as [[ps' results'] out]. simpl in *.
    subst ps' out. unfold set_questionTimer, set_status, set_players, set_questionResults.
    simpl. by rewrite Ht.
Qed.

End EndQuestionFacts.

(** ** [submitAnswer] *)

Lemma set_players_same s ps :
  set_players (λ _, players s) (set_players (λ _, ps) s) = s.
Proof. by destruct s. Qed.

(** C6. [submitAnswer] returns "accepted" exactly when the status is
    [question], the identity is on the roster and that player has no answer
    for the current question yet. When it accepts, it records the option id
    and the timestamp on that player and changes nothing else (the score in
    particular), and any later call for the same player is refused and
    changes nothing, whatever its payload. When it refuses, the session is
    unchanged; it refuses whenever the status is not [question]. *)
Theorem submitAnswer_accepted_iff (s : GameSession) (socketId : string)
    (optionId now : Z) :
  let s' := (submitAnswer s socketId optionId now).1 in
  let accepted := (submitAnswer s socketId optionId now).2 in
  (accepted = true ↔
     status s = QUESTION ∧
     ∃ p, JsMap.get socketId (players s) = Some p ∧ currentAnswer p = None) ∧
  (accepted = true →
     ∃ p, JsMap.get socketId (players s) = Some p ∧
       players s' = JsMap.set socketId (set_answer (Some optionId) (Some now) p) (players s) ∧
       set_players (λ _, players s) s' = s ∧
       JsMap.get socketId (players s')
       = Some (mkPlayer (p_id p) (username p) (score p) (Some optionId) (Some now)) ∧
       ∀ optionId' now', submitAnswer s' socketId optionId' now' = (s', false)) ∧
  (accepted = false → s' = s) ∧
  (status s ≠ QUESTION → accepted = false).
Proof.
  unfold submitAnswer.
  destruct (decide (status s ≠ QUESTION)) as [Hst|Hst]; simpl.
  { repeat split; try done. by intros [? _]. }
  apply dec_stable in Hst.
  destruct (JsMap.get socketId (players s)) as [p|] eqn:Hp; simpl.
  2:{ repeat split; try done. by intros (_ & p & ? & _). }
  destruct (currentAnswer p) as [a|] eqn:Ha; simpl.
  { repeat split; try done. intros (_ & p' & [= <-] & ?). congruence. }
  repeat split; try done.
  - by exists p.
  - intros _. exists p. repeat split; try done.
    + apply set_players_same.
    + apply get_set_eq.
    + intros optionId' now'. simpl. rewrite Hst.
      rewrite decide_False by (intros H; by apply H).
      by rewrite get_set_eq.
Qed.

(** ** [endQuestion] without a correct option *)

(** C9. [submitAnswer] records whatever integer it is given: nothing
    relates it to the option ids of the current question. When the current
    question has no option flagged correct, [endQuestion] does not fail: it
    returns -1 as the correct option id, and a player whose recorded answer
    is -1 is marked correct and is awarded the points of [calculateScore]. *)
Theorem endQuestion_unflagged_question (calculateScore : Q → Z → Z) (tm : Timeouts)
    (s : GameSession) (socketId : string) (p : Player) (q : QuestionWithOptions)
    (t0 now optionId : Z) :
  status s = QUESTION →
  JsMap.get socketId (players s) = Some p →
  currentAnswer p = None →
  js_index (questions s) (currentQuestionIndex s) = Some q →
  find is_correct (qw_options q) = None →
  questionStartTime s = Some t0 → t0 ≠ 0 → now ≠ 0 →
  let s1 := (submitAnswer s socketId optionId now).1 in
  (submitAnswer s socketId optionId now).2 = true ∧
  JsMap.get socketId (players s1) = Some (set_answer (Some optionId) (Some now) p) ∧
  ∃ tm' s2 out,
    endQuestion calculateScore tm s1
    = (tm', s2, Ret {| correctOptionId := -1; playerResults := out |}) ∧
    (optionId = -1 →
       let points := calculateScore (Qmake (now - t0) 1000) (timerSeconds s) in
       (username p, true, points) ∈ out ∧
       JsMap.get socketId (players s2)
       = Some (set_score (score p + points) (set_answer (Some (-1)) (Some now) p))).
Proof.
  intros Hst Hp Ha Hq Hfind Ht0 Hne0 Hnow.
  unfold submitAnswer. rewrite Hst, decide_False by (intros H; by apply H).
  rewrite Hp, Ha. simpl. split; [done|]. split; [apply get_set_eq|].
  set (s1 := set_players _ s).
  assert (Hq1 : js_index (questions s1) (currentQuestionIndex s1) = Some q) by done.
  rewrite (endQuestion_defined calculateScore tm s1 q Hq1).
  assert (Hcid : correctOptionIdOf q = -1) by (unfold correctOptionIdOf; by rewrite Hfind).
  rewrite Hcid. eexists _, _, _. split; [reflexivity|].
  intros ->. cbv zeta.
  assert (Hout : answerOutcome calculateScore s1 (-1)
                   (set_answer (Some (-1)) (Some now) p)
                 = (true, calculateScore (Qmake (now - t0) 1000) (timerSeconds s))).
  { unfold answerOutcome. simpl. rewrite Ht0. simpl.
    rewrite !bool_decide_eq_true_2 by done. done. }
  split.
  - apply list_elem_of_fmap.
    exists (socketId, set_answer (Some (-1)) (Some now) p). split.
    + cbn [snd]. by rewrite Hout.
    + apply get_Some_elem, get_set_eq.
  - cbn [players set_questionResults set_players].
    rewrite get_update_all. subst s1. cbn [players set_players].
    rewrite get_set_eq. unfold scored. cbn [fmap option_fmap option_map].
    by rewrite Hout.
Qed.

(** ** [endQuestion] called twice *)

(** C1 as stated fails: on the open question of scenario A, after Alice's
    correct answer, a second [endQuestion] adds her 950 points again. *)
Lemma second_endQuestion_adds_points_again :
  status sessionA = QUESTION ∧
  let r1 := endQuestion scoreModel (timeouts serverA) sessionA in
  let r2 := endQuestion scoreModel r1.1.1 r1.1.2 in
  scoreOf "alice" sessionA = Some 0 ∧
  scoreOf "alice" r1.1.2 = Some 950 ∧
  scoreOf "alice" r2.1.2 = Some 1900.
Proof. by vm_compute. Qed.

(** C1, amended. [endQuestion] has no guard of its own: every invocation on
    a session with a current question adds to each player the points of the
    recorded answer, so a second invocation with the answers unchanged adds
    the same points once more (the score is unchanged only for the players
    whose answer earns nothing). What the first invocation does is leave the
    status at [reveal] and cancel the deadline recorded in the session, so
    that afterwards [submitAnswer] refuses every submission and that
    deadline is no longer pending. *)
Theorem endQuestion_twice (calculateScore : Q → Z → Z) (tm : Timeouts)
    (s : GameSession) (q : QuestionWithOptions) :
  js_index (questions s) (currentQuestionIndex s) = Some q →
  let r1 := endQuestion calculateScore tm s in
  let r2 := endQuestion calculateScore r1.1.1 r1.1.2 in
  status r1.1.2 = REVEAL ∧
  questionTimer r1.1.2 = None ∧
  (∀ h, questionTimer s = Some h → h ∉ (pending r1.1.1).*1) ∧
  (∀ socketId optionId now,
     submitAnswer r1.1.2 socketId optionId now = (r1.1.2, false)) ∧
  (∀ socketId p, JsMap.get socketId (players s) = Some p →
     let points := (answerOutcome calculateScore s (correctOptionIdOf q) p).2 in
     scoreOf socketId r1.1.2 = Some (score p + points) ∧
     scoreOf socketId r2.1.2 = Some (score p + 2 * points)).
Proof.
  intros Hq. simpl. rewrite (endQuestion_defined calculateScore tm s q Hq). simpl.
  set (s1 := set_questionResults _ _).
  assert (Hq1 : js_index (questions s1) (currentQuestionIndex s1) = Some q) by done.
  rewrite (endQuestion_defined calculateScore _ s1 q Hq1). simpl.
  repeat split.
  - intros h ->. unfold clearTimeout. simpl.
    rewrite list_elem_of_fmap. intros [[h' cb] [-> Hin]].
    apply list_elem_of_filter in Hin as [Hne _]. by apply Hne.
  - unfold scoreOf. simpl. rewrite get_update_all, H. done.
  - unfold scoreOf. simpl. rewrite !get_update_all, H. simpl. f_equal.
    lia.
Qed.

(** ** Registry lookups *)

Lemma sessions_elem srv r g :
  (r, g) ∈ sessions srv ↔
  r ∈ JsMap.values (activeGames srv) ∧ objects srv !! r = Some g.
Proof.
  unfold sessions. rewrite list_elem_of_omap. split.
  - intros (r' & Hin & Hf). destruct (objects srv !! r') as [g'|] eqn:Hg; [|done].
    simpl in Hf. by simplify_eq.
  - intros [Hin Hg]. exists r. by rewrite Hg.
Qed.

Lemma find_Some_elem {A} (f : A → bool) (l : list A) x :
  find f l = Some x → x ∈ l ∧ f x = true.
Proof. intros H. apply find_some in H as [H1 H2]. by rewrite list_elem_of_In. Qed.

Lemma find_None_elem {A} (f : A → bool) (l : list A) x :
  find f l = None → x ∈ l → f x = false.
Proof. intros H Hin. apply (find_none f l H). by apply list_elem_of_In. Qed.

Lemma getGameByAdminSocket_Some srv socket r s :
  getGameByAdminSocket srv socket = Some (r, s) →
  r ∈ JsMap.values (activeGames srv) ∧ objects srv !! r = Some s ∧
  adminSocketId s = socket.
Proof.
  intros H. apply find_Some_elem in H as [Hin Hf].
  apply sessions_elem in Hin as [? ?]. simpl in Hf.
  by apply bool_decide_eq_true in Hf.
Qed.

Lemma getGameByAdminSocket_None srv socket c r g :
  getGameByAdminSocket srv socket = None →
  (c, r) ∈ activeGames srv → objects srv !! r = Some g →
  adminSocketId g ≠ socket.
Proof.
  intros H Hin Hg. apply (find_None_elem _ _ (r, g)) in H.
  - simpl in H. by apply bool_decide_eq_false in H.
  - apply sessions_elem. split; [|done]. apply values_elem. by exists c.
Qed.

Lemma getGameByPlayerSocket_Some srv socket r s :
  getGameByPlayerSocket srv socket = Some (r, s) →
  r ∈ JsMap.values (activeGames srv) ∧ objects srv !! r = Some s ∧
  JsMap.has socket (players s) = true.
Proof.
  intros H. apply find_Some_elem in H as [Hin Hf].
  apply sessions_elem in Hin as [? ?]. done.
Qed.

Lemma getGame_Some srv code r s :
  getGame srv code = Some (r, s) ↔
  JsMap.get code (activeGames srv) = Some r ∧ objects srv !! r = Some s.
Proof.
  unfold getGame. destruct (JsMap.get code (activeGames srv)) as [r'|]; simpl.
  - destruct (objects srv !! r') as [g|] eqn:Hg; simpl.
    + split; [intros [= <- <-]; done | intros [[= <-] ?]; by simplify_eq].
    + split; [done | intros [[= <-] ?]; congruence].
  - split; [done | by intros [? _]].
Qed.

Lemma store_lookup_eq srv r s0 s :
  objects srv !! r = Some s0 → objects (store srv r s) !! r = Some s.
Proof. intros H. apply list_lookup_insert_eq. by eapply lookup_lt_Some. Qed.

Lemma store_lookup_ne srv r r' s :
  r ≠ r' → objects (store srv r s) !! r' = objects srv !! r'.
Proof. intros H. by apply list_lookup_insert_ne. Qed.

Lemma store_lookup srv r s r0 s0 :
  objects srv !! r0 = Some s0 →
  objects (store srv r s) !! r0 = Some (if decide (r = r0) then s else s0).
Proof.
  intros H. destruct (decide (r = r0)) as [->|Hne].
  - by eapply store_lookup_eq.
  - by rewrite store_lookup_ne.
Qed.

Lemma cleanup_session tm s :
  (cleanup tm s).2 = s ∨ (cleanup tm s).2 = set_questionTimer None s.
Proof. unfold cleanup. destruct (questionTimer s); simpl; auto. Qed.

(** The session part of [endQuestion] does not depend on the timer table. *)
Lemma endQuestion_session cs tm tm' s :
  (endQuestion cs tm s).1.2 = (endQuestion cs tm' s).1.2 ∧
  (endQuestion cs tm s).2 = (endQuestion cs tm' s).2.
Proof.
  unfold endQuestion. simpl.
  destruct (questionTimer s); simpl;
    destruct (js_index _ _); simpl; try done;
    destruct (endQuestion_loop _ _ _ _ _) as [[? ?] ?]; done.
Qed.

Lemma closeSession_tm cs tm tm' s : closeSession cs tm s = closeSession cs tm' s.
Proof.
  unfold closeSession.
  destruct (endQuestion_session cs tm tm' s) as [H1 H2].
  destruct (endQuestion cs tm s) as [[? ?] ?], (endQuestion cs tm' s) as [[? ?] ?].
  simpl in *. by subst.
Qed.

Lemma closeQuestion_objects cs srv r s :
  objects (closeQuestion cs srv r s).1
  = <[r := closeSession cs (timeouts srv) s]> (objects srv).
Proof.
  unfold closeQuestion, closeSession.
  destruct (endQuestion cs (timeouts srv) s) as [[tm s'] [res|msg]]; done.
Qed.

Lemma closeQuestion_activeGames cs srv r s :
  activeGames (closeQuestion cs srv r s).1 = activeGames srv.
Proof.
  unfold closeQuestion.
  destruct (endQuestion cs (timeouts srv) s) as [[tm s'] [res|msg]]; done.
Qed.

Lemma removeGame_objects srv code :
  objects (removeGame srv code) = objects srv ∨
  ∃ r g, getGame srv code = Some (r, g) ∧
         objects (removeGame srv code)
         = <[r := (cleanup (timeouts srv) g).2]> (objects srv).
Proof.
  unfold removeGame. destruct (getGame srv code) as [[r g]|] eqn:Hg; [|by left].
  right. exists r, g. split; [done|]. by destruct (cleanup _ _).
Qed.

(** ** What a step does to the session objects *)

Section StepObjects.

Variable calculateScore : Q → Z → Z.
Variable db : Db.

Lemma finishGame_obj srv r session r0 s0 :
  objects srv !! r = Some session →
  objects srv !! r0 = Some s0 →
  ∃ s', objects (finishGame srv r session).1 !! r0 = Some s' ∧
        (s' = s0 ∨ torn_down s0 s').
Proof.
  intros Hr H0. unfold finishGame. simpl.
  pose proof (store_lookup srv r (set_status FINISHED session) r0 s0 H0) as Hst.
  destruct (removeGame_objects (store srv r (set_status FINISHED session))
              (gameCode session)) as [->|(r2 & g & Hg & ->)].
  - eexists. split; [exact Hst|]. destruct (decide (r = r0)) as [->|]; [|by left].
    right. left. congruence.
  - apply getGame_Some in Hg as [_ Hg].
    destruct (decide (r2 = r0)) as [->|Hne2].
    + rewrite list_lookup_insert_eq by (by eapply lookup_lt_Some).
      eexists. split; [done|]. rewrite Hst in Hg. injection Hg as <-.
      right. destruct (decide (r = r0)) as [->|].
      * right. right. replace s0 with session by congruence. by eexists.
      * right. left. by eexists.
    + rewrite list_lookup_insert_ne by done.
      eexists. split; [exact Hst|]. destruct (decide (r = r0)) as [->|]; [|by left].
      right. left. congruence.
Qed.

Lemma startQuestion_obj srv r session now r0 s0 :
  objects srv !! r = Some session →
  objects srv !! r0 = Some s0 →
  let srv' :=
    match startNextQuestion session now with
    | (session', Throw _) => store srv r session'
    | (session', Ret None) => store srv r session'
    | (session', Ret (Some d)) => (handleQuestion srv r session' d).1
    end in
  ∃ s', objects srv' !! r0 = Some s' ∧ (s' = s0 ∨ opened now s0 s').
Proof.
  intros Hr H0. simpl.
  destruct (startNextQuestion session now) as [session' res] eqn:Hstart.
  assert (Hs' : session' = (startNextQuestion session now).1) by by rewrite Hstart.
  assert (Hplain : ∃ s', objects (store srv r session') !! r0 = Some s' ∧
                         (s' = s0 ∨ opened now s0 s')).
  { eexists. split; [by apply store_lookup|].
    destruct (decide (r = r0)) as [->|]; [|by left].
    right. left. congruence. }
  destruct res as [[d|]|msg]; try done.
  unfold handleQuestion, setQuestionTimer, setTimeout. simpl.
  eexists. split; [by apply store_lookup|].
  destruct (decide (r = r0)) as [->|]; [|by left].
  right. right. eexists. f_equal. congruence.
Qed.

Lemma step_obj srv e r0 s0 :
  objects srv !! r0 = Some s0 →
  ∃ s', objects (step calculateScore db srv e).1 !! r0 = Some s' ∧
        obj_step calculateScore e s0 s'.
Proof.
  intros H0.
  assert (Hsame : ∀ e', ∃ s', objects srv !! r0 = Some s' ∧
                              obj_step calculateScore e' s0 s')
    by (intros e'; exists s0; split; [done | by left]).
  destruct e as [socket token quiz code|socket code name|socket now
                |socket optionId now|socket now|socket|socket|h]; simpl.
  - (* create_game *)
    unfold on_create_game. destruct token; try apply Hsame.
    destruct (getGameByAdminSocket srv socket) as [[r existing]|]; [apply Hsame|].
    unfold createGame.
    destruct (GameSession_constructor db quiz socket code); [|apply Hsame].
    simpl. exists s0. split; [by apply lookup_app_l_Some | by left].
  - (* join_game *)
    unfold on_join_game.
    destruct (getGame srv (toUpperCase code)) as [[r session]|] eqn:Hg; [|apply Hsame].
    apply getGame_Some in Hg as [_ Hr].
    destruct (addPlayer session socket name) as [[session' p]|msg] eqn:Hadd;
      [|apply Hsame].
    simpl. eexists. split; [by apply store_lookup|].
    destruct (decide (r = r0)) as [->|]; [|by left].
    right. exists p. congruence.
  - (* start_game *)
    unfold on_start_game.
    destruct (getGameByAdminSocket srv socket) as [[r session]|] eqn:Hg; [|apply Hsame].
    apply getGameByAdminSocket_Some in Hg as (_ & Hr & _).
    destruct (decide (JsMap.size (players session) = 0)); [apply Hsame|].
    destruct (startQuestion_obj srv r session now r0 s0 Hr H0) as (s' & Hs' & Hop).
    exists s'. split.
    + destruct (startNextQuestion session now) as [session' [[d|]|msg]]; exact Hs'.
    + destruct Hop; [by left | by right].
  - (* submit_answer *)
    unfold on_submit_answer.
    destruct (getGameByPlayerSocket srv socket) as [[r session]|] eqn:Hg; [|apply Hsame].
    apply getGameByPlayerSocket_Some in Hg as (_ & Hr & _).
    destruct (submitAnswer session socket optionId now) as [s1 accepted] eqn:Hsub.
    destruct accepted; simpl; [|apply Hsame].
    destruct (allPlayersAnswered s1) eqn:Hall.
    + rewrite closeQuestion_objects. eexists.
      split; [by apply (store_lookup srv)|].
      destruct (decide (r = r0)) as [->|]; [|by left].
      right. replace s0 with session by congruence. rewrite Hsub. simpl.
      split; [done|]. right. split; [done|]. by eexists.
    + simpl. eexists. split; [by apply store_lookup|].
      destruct (decide (r = r0)) as [->|]; [|by left].
      right. replace s0 with session by congruence. rewrite Hsub. simpl.
      split; [done|]. by left.
  - (* next_question *)
    unfold on_next_question.
    destruct (getGameByAdminSocket srv socket) as [[r session]|] eqn:Hg; [|apply Hsame].
    apply getGameByAdminSocket_Some in Hg as (_ & Hr & _).
    destruct (isLastQuestion session).
    + destruct (finishGame_obj srv r session r0 s0 Hr H0) as (s' & Hs' & Hop).
      exists s'. split; [done|]. destruct Hop; [by left | right; by right].
    + destruct (startQuestion_obj srv r session now r0 s0 Hr H0) as (s' & Hs' & Hop).
      exists s'. split.
      * destruct (startNextQuestion session now) as [session' [[d|]|msg]]; exact Hs'.
      * destruct Hop; [by left | right; by left].
  - (* end_game *)
    unfold on_end_game.
    destruct (getGameByAdminSocket srv socket) as [[r session]|] eqn:Hg; [|apply Hsame].
    apply getGameByAdminSocket_Some in Hg as (_ & Hr & _).
    destruct (finishGame_obj srv r session r0 s0 Hr H0) as (s' & Hs' & Hop).
    exists s'. split; [done|]. destruct Hop; [by left | by right].
  - (* disconnect *)
    unfold on_disconnect.
    destruct (getGameByAdminSocket srv socket) as [[r session]|] eqn:Hg.
    + apply getGameByAdminSocket_Some in Hg as (_ & Hr & _).
      destruct (finishGame_obj srv r session r0 s0 Hr H0) as (s' & Hs' & Hop).
      exists s'. split; [done|]. destruct Hop; [by left | right; by left].
    + destruct (getGameByPlayerSocket srv socket) as [[r session]|] eqn:Hp;
        [|apply Hsame].
      apply getGameByPlayerSocket_Some in Hp as (_ & Hr & _).
      simpl. eexists. split; [by apply store_lookup|].
      destruct (decide (r = r0)) as [->|]; [|by left].
      right. right. congruence.
  - (* timeout_fires *)
    unfold on_timeout.
    destruct (find _ _) as [[h' [r]]|]; [|apply Hsame].
    unfold deadline_callback. simpl.
    destruct (objects srv !! r) as [session|] eqn:Hr; [|apply Hsame].
    rewrite closeQuestion_objects. simpl. eexists.
    split; [by apply (store_lookup srv)|].
    destruct (decide (r = r0)) as [->|]; [|by left].
    right. replace s0 with session by congruence. by eexists.
Qed.

End StepObjects.

(** ** Fields that the methods leave alone *)

Lemma addPlayer_Ret s socketId name s' p :
  addPlayer s socketId name = Ret (s', p) →
  status s = WAITING ∧ p = mkPlayer socketId name 0 None None ∧
  s' = set_players (JsMap.set socketId p) s.
Proof.
  unfold addPlayer. destruct (decide (status s ≠ WAITING)) as [|Hst]; [done|].
  apply dec_stable in Hst. destruct (existsb _ _); [done|].
  by intros [= <- <-].
Qed.

Lemma startNextQuestion_shape s now :
  let s' := (startNextQuestion s now).1 in
  gameCode s' = gameCode s ∧ adminSocketId s' = adminSocketId s ∧
  questionTimer s' = questionTimer s ∧
  (status s' = status s ∧ players s' = players s ∧
     (startNextQuestion s now).2 = Ret None
   ∨ status s' = QUESTION ∧
     players s' = JsMap.update_all (set_answer None None) (players s)).
Proof.
  unfold startNextQuestion. simpl.
  destruct (decide (_ >= _)); simpl; [by auto 10|].
  destruct (js_index _ _); simpl; by auto 10.
Qed.

Lemma closeSession_shape cs tm s :
  let s' := closeSession cs tm s in
  gameCode s' = gameCode s ∧ adminSocketId s' = adminSocketId s ∧
  questionTimer s' = None ∧
  (status s' = REVEAL ∧ players s' = players s
   ∨ status s' = LEADERBOARD ∧
     ∃ q, js_index (questions s) (currentQuestionIndex s) = Some q ∧
          players s' = JsMap.update_all (scored cs s (correctOptionIdOf q)) (players s)).
Proof.
  unfold closeSession.
  destruct (js_index (questions s) (currentQuestionIndex s)) as [q|] eqn:Hq.
  - rewrite (endQuestion_defined cs tm s q Hq). simpl.
    repeat split; try done. right. split; [done|]. by exists q.
  - unfold endQuestion. simpl.
    destruct (questionTimer s) eqn:Ht; simpl; rewrite Hq; simpl;
      (repeat split; [done..|by left]).
Qed.

Lemma torn_down_shape s s' :
  torn_down s s' →
  gameCode s' = gameCode s ∧ adminSocketId s' = adminSocketId s ∧
  players s' = players s ∧ (status s' = status s ∨ status s' = FINISHED).
Proof.
  intros [->|[[tm ->]|[tm ->]]]; [by auto| |].
  - destruct (cleanup_session tm s) as [->| ->]; by auto.
  - destruct (cleanup_session tm (set_status FINISHED s)) as [->| ->]; by auto.
Qed.

Lemma opened_shape now s s' :
  opened now s s' →
  gameCode s' = gameCode s ∧ adminSocketId s' = adminSocketId s ∧
  (status s' = status s ∧ players s' = players s
   ∨ status s' = QUESTION ∧
     players s' = JsMap.update_all (set_answer None None) (players s)).
Proof.
  pose proof (startNextQuestion_shape s now) as (H1 & H2 & _ & H4). simpl in *.
  intros [->|[h ->]]; simpl; (repeat split; [done..|]);
    destruct H4 as [(? & ? & _)|[? ?]]; by auto.
Qed.

Lemma submitAnswer_shape s socketId optionId now :
  (submitAnswer s socketId optionId now).2 = true →
  ∃ p, JsMap.get socketId (players s) = Some p ∧ currentAnswer p = None ∧
       status s = QUESTION ∧
       (submitAnswer s socketId optionId now).1
       = set_players (λ _, JsMap.set socketId
                             (set_answer (Some optionId) (Some now) p) (players s)) s.
Proof.
  unfold submitAnswer. destruct (decide (status s ≠ QUESTION)) as [|Hst]; [done|].
  apply dec_stable in Hst.
  destruct (JsMap.get socketId (players s)) as [p|]; [|done].
  destruct (currentAnswer p) eqn:Ha; [done|]. intros _. by exists p.
Qed.

Lemma obj_step_identity cs e s s' :
  obj_step cs e s s' →
  gameCode s' = gameCode s ∧ adminSocketId s' = adminSocketId s.
Proof.
  assert (Hopen : ∀ now, opened now s s' →
            gameCode s' = gameCode s ∧ adminSocketId s' = adminSocketId s).
  { intros now H. apply opened_shape in H as (? & ? & _). by split. }
  assert (Hdown : torn_down s s' →
            gameCode s' = gameCode s ∧ adminSocketId s' = adminSocketId s).
  { intros H. apply torn_down_shape in H as (? & ? & _). by split. }
  intros [->|H]; [done|]. destruct e; try done; eauto.
  - destruct H as [p H]. apply addPlayer_Ret in H as (_ & _ & ->). done.
  - destruct H as [Hacc H].
    apply submitAnswer_shape in Hacc as (p & _ & _ & _ & Hs1).
    destruct H as [[_ ->]|[_ [tm ->]]]; [by rewrite Hs1|].
    pose proof (closeSession_shape cs tm (submitAnswer s socket optionId now).1)
      as (-> & -> & _). by rewrite Hs1.
  - destruct H as [H|H]; eauto.
  - destruct H as [H| ->]; [eauto | done].
  - destruct H as [tm ->].
    pose proof (closeSession_shape cs tm s) as (? & ? & _). by split.
Qed.

(** ** Maps with one entry per key *)

Section JsMapKeys.

Context {V : Type}.
Implicit Types (m : JsMap.t V) (k : string).

Lemma keys_set_elem k k' v m :
  k' ∈ JsMap.keys (JsMap.set k v m) → k' = k ∨ k' ∈ JsMap.keys m.
Proof.
  unfold JsMap.keys. rewrite !list_elem_of_fmap.
  intros [[k0 v0] [-> Hin]]. apply elem_set in Hin as [[= -> ->]|Hin]; [by left|].
  right. by exists (k0, v0).
Qed.

Lemma keys_delete_elem k k' m :
  k' ∈ JsMap.keys (JsMap.delete k m) → k' ∈ JsMap.keys m.
Proof.
  unfold JsMap.keys. rewrite !list_elem_of_fmap.
  intros [kv [-> Hin]]. apply elem_delete in Hin. by exists kv.
Qed.

Lemma keys_set_NoDup k v m :
  NoDup (JsMap.keys m) → NoDup (JsMap.keys (JsMap.set k v m)).
Proof.
  unfold JsMap.keys. induction m as [|[k' v'] m IH]; simpl.
  - intros _. apply NoDup_singleton.
  - rewrite NoDup_cons. intros [Hnotin Hnd].
    destruct (decide (k' = k)) as [->|Hne]; simpl; apply NoDup_cons.
    + done.
    + split; [|by apply IH]. intros Hin.
      apply (keys_set_elem k k' v m) in Hin as [?|?]; done.
Qed.

Lemma keys_delete_NoDup k m :
  NoDup (JsMap.keys m) → NoDup (JsMap.keys (JsMap.delete k m)).
Proof.
  unfold JsMap.keys. induction m as [|[k' v'] m IH]; simpl; [done|].
  rewrite NoDup_cons. intros [Hnotin Hnd].
  destruct (decide (k' = k)) as [->|Hne]; simpl; [done|].
  apply NoDup_cons. split; [|by apply IH].
  intros Hin. by apply (keys_delete_elem k k' m) in Hin.
Qed.

Lemma keys_update_all (f : V → V) m :
  JsMap.keys (JsMap.update_all f m) = JsMap.keys m.
Proof.
  unfold JsMap.keys, JsMap.update_all. rewrite <- list_fmap_compose.
  apply list_fmap_ext. by intros i [k v] _.
Qed.

Lemma get_elem k v m : NoDup (JsMap.keys m) → (k, v) ∈ m → JsMap.get k m = Some v.
Proof.
  unfold JsMap.keys. induction m as [|[k' v'] m IH]; simpl.
  - intros _ H. by apply elem_of_nil in H.
  - rewrite NoDup_cons, elem_of_cons. intros [Hnotin Hnd] [[= <- <-]|Hin].
    + by rewrite decide_True.
    + rewrite decide_False; [by apply IH|].
      intros ->. apply Hnotin. apply list_elem_of_fmap. by exists (k, v).
Qed.

Lemma elem_set_inv k v k' v' m :
  NoDup (JsMap.keys m) →
  (k', v') ∈ JsMap.set k v m →
  (k' = k ∧ v' = v) ∨ (k' ≠ k ∧ (k', v') ∈ m).
Proof.
  intros Hnd Hin. destruct (decide (k' = k)) as [->|Hne].
  - left. split; [done|].
    apply (get_elem _ _ _ (keys_set_NoDup k v m Hnd)) in Hin.
    rewrite get_set_eq in Hin. congruence.
  - right. split; [done|]. apply elem_set in Hin as [[= ? ?]|?]; done.
Qed.

Lemma get_delete_eq k m : NoDup (JsMap.keys m) → JsMap.get k (JsMap.delete k m) = None.
Proof.
  unfold JsMap.keys. induction m as [|[k' v'] m IH]; simpl; [done|].
  rewrite NoDup_cons. intros [Hnotin Hnd].
  destruct (decide (k' = k)) as [->|Hne]; simpl.
  - by apply get_None_keys.
  - rewrite decide_False by done. by apply IH.
Qed.

End JsMapKeys.

(** ** What a step does to the registry *)

Section StepRegistry.

Variable calculateScore : Q → Z → Z.
Variable db : Db.

Lemma registry_kept_refl srv : registry_kept srv srv.
Proof. split; [done | by left]. Qed.

Lemma registry_kept_store srv r s : registry_kept srv (store srv r s).
Proof. split; [apply length_insert | by left]. Qed.

Lemma registry_kept_close srv r s :
  registry_kept srv (closeQuestion calculateScore srv r s).1.
Proof.
  split.
  - rewrite closeQuestion_objects. apply length_insert.
  - left. apply closeQuestion_activeGames.
Qed.

Lemma registry_kept_finish srv r s : registry_kept srv (finishGame srv r s).1.
Proof.
  unfold finishGame, removeGame. simpl.
  destruct (getGame _ _) as [[r2 g]|]; [|apply registry_kept_store].
  destruct (cleanup _ g) as [tm g']. split; simpl.
  - by rewrite !length_insert.
  - right. by eexists.
Qed.

Lemma registry_kept_start srv r session now :
  registry_kept srv
    match startNextQuestion session now with
    | (session', Throw _) => store srv r session'
    | (session', Ret None) => store srv r session'
    | (session', Ret (Some d)) => (handleQuestion srv r session' d).1
    end.
Proof.
  destruct (startNextQuestion session now) as [session' [[d|]|msg]];
    (split; [apply length_insert | by left]).
Qed.

Lemma step_registry srv e :
  let srv' := (step calculateScore db srv e).1 in
  registry_kept srv srv' ∨
  ∃ socket quiz code session,
    e = create_game socket ValidToken quiz code ∧
    getGameByAdminSocket srv socket = None ∧
    GameSession_constructor db quiz socket code = Ret session ∧
    srv' = mkServer (objects srv ++ [session])
             (JsMap.set (gameCode session) (length (objects srv)) (activeGames srv))
             (timeouts srv).
Proof.
  destruct e as [socket token quiz code|socket code name|socket now
                |socket optionId now|socket now|socket|socket|h]; simpl.
  - unfold on_create_game. destruct token; try (left; apply registry_kept_refl).
    destruct (getGameByAdminSocket srv socket) as [[r existing]|] eqn:Hadm;
      [left; apply registry_kept_refl|].
    unfold createGame.
    destruct (GameSession_constructor db quiz socket code) as [session|msg] eqn:Hc;
      [|left; apply registry_kept_refl].
    right. by exists socket, quiz, code, session.
  - left. unfold on_join_game.
    destruct (getGame _ _) as [[r session]|]; [|apply registry_kept_refl].
    destruct (addPlayer _ _ _) as [[session' p]|msg];
      [apply registry_kept_store | apply registry_kept_refl].
  - left. unfold on_start_game.
    destruct (getGameByAdminSocket _ _) as [[r session]|]; [|apply registry_kept_refl].
    destruct (decide _); [apply registry_kept_refl|].
    pose proof (registry_kept_start srv r session now) as H.
    by destruct (startNextQuestion session now) as [session' [[d|]|msg]].
  - left. unfold on_submit_answer.
    destruct (getGameByPlayerSocket _ _) as [[r session]|]; [|apply registry_kept_refl].
    destruct (submitAnswer _ _ _ _) as [s1 [|]]; simpl; [|apply registry_kept_refl].
    destruct (allPlayersAnswered s1);
      [apply registry_kept_close | apply registry_kept_store].
  - left. unfold on_next_question.
    destruct (getGameByAdminSocket _ _) as [[r session]|]; [|apply registry_kept_refl].
    destruct (isLastQuestion session); [apply registry_kept_finish|].
    pose proof (registry_kept_start srv r session now) as H.
    by destruct (startNextQuestion session now) as [session' [[d|]|msg]].
  - left. unfold on_end_game.
    destruct (getGameByAdminSocket _ _) as [[r session]|];
      [apply registry_kept_finish | apply registry_kept_refl].
  - left. unfold on_disconnect.
    destruct (getGameByAdminSocket _ _) as [[r session]|];
      [apply registry_kept_finish|].
    destruct (getGameByPlayerSocket _ _) as [[r session]|];
      [apply registry_kept_store | apply registry_kept_refl].
  - left. unfold on_timeout.
    destruct (find _ _) as [[h' [r]]|]; [|apply registry_kept_refl].
    unfold deadline_callback. simpl.
    destruct (objects srv !! r) as [session|]; [|split; [done | by left]].
    exact (registry_kept_close (set_timeouts _ srv) r session).
Qed.

End StepRegistry.

(** ** Construction *)

Lemma constructor_Ret db quiz admin code s :
  GameSession_constructor db quiz admin code = Ret s →
  gameCode s = code ∧ adminSocketId s = admin ∧ players s = [] ∧
  status s = WAITING ∧ questionTimer s = None ∧ currentQuestionIndex s = -1 ∧
  totalQuestions s = Z.of_nat (length (questions s)) ∧ 0 < totalQuestions s.
Proof.
  unfold GameSession_constructor.
  destruct (quiz_by_id db quiz) as [qz|]; [|done].
  destruct (decide (length (questions_of_quiz db quiz) = 0%nat)) as [|Hne]; [done|].
  intros [= <-]. simpl. repeat split; try done.
  rewrite length_fmap. lia.
Qed.

Lemma constructor_Throw db quiz admin code :
  (∃ msg, GameSession_constructor db quiz admin code = Throw msg) ↔
  quiz_by_id db quiz = None ∨ questions_of_quiz db quiz = [].
Proof.
  unfold GameSession_constructor.
  destruct (quiz_by_id db quiz) as [qz|].
  - destruct (decide (length (questions_of_quiz db quiz) = 0%nat)) as [H0|Hne].
    + split; [|by eexists]. intros _. right. by apply nil_length_inv.
    + split; [by intros [? ?]|]. intros [?|Hnil]; [done|].
      by rewrite Hnil in Hne.
  - split; [by left | by eexists].
Qed.

(** ** The registry invariant *)

Section RegistryInvariant.

Variable calculateScore : Q → Z → Z.
Variable db : Db.

Lemma registry_ok_empty : registry_ok emptyServer.
Proof.
  split; simpl.
  - apply NoDup_nil_2.
  - intros c r H. by apply elem_of_nil in H.
  - intros c1 c2 r1 r2 g1 g2 H. by apply elem_of_nil in H.
Qed.

Lemma registry_ok_step srv e :
  registry_ok srv → registry_ok (step calculateScore db srv e).1.
Proof.
  intros [Hkeys Hcode Hadmin].
  destruct (step_registry calculateScore db srv e)
    as [[Hlen Hreg]|(socket & quiz & code & session & -> & Hnone & Hc & Hsrv')].
  - set (srv' := (step calculateScore db srv e).1) in *.
    assert (Hsub : ∀ c r, (c, r) ∈ activeGames srv' → (c, r) ∈ activeGames srv).
    { intros c r. destruct Hreg as [->|[code ->]]; [done | apply elem_delete]. }
    assert (Hobj : ∀ c r g', (c, r) ∈ activeGames srv' → objects srv' !! r = Some g' →
              ∃ g, objects srv !! r = Some g ∧ gameCode g = c ∧
                   gameCode g' = gameCode g ∧ adminSocketId g' = adminSocketId g).
    { intros c r g' Hin Hg'. destruct (Hcode c r (Hsub _ _ Hin)) as (g & Hg & Hgc).
      destruct (step_obj calculateScore db srv e r g Hg) as (g'' & Hg'' & Hstep).
      fold srv' in Hg''. replace g'' with g' in * by congruence.
      apply obj_step_identity in Hstep as [? ?]. by exists g. }
    split.
    + destruct Hreg as [->|[code ->]]; [done | by apply keys_delete_NoDup].
    + intros c r Hin. destruct (Hcode c r (Hsub _ _ Hin)) as (g & Hg & Hgc).
      destruct (step_obj calculateScore db srv e r g Hg) as (g' & Hg' & Hstep).
      exists g'. split; [done|]. apply obj_step_identity in Hstep as [-> _]. done.
    + intros c1 c2 r1 r2 g1 g2 Hin1 Hin2 Hg1 Hg2 Heq.
      destruct (Hobj _ _ _ Hin1 Hg1) as (g1' & Hg1' & _ & _ & Ha1).
      destruct (Hobj _ _ _ Hin2 Hg2) as (g2' & Hg2' & _ & _ & Ha2).
      apply (Hadmin c1 c2 r1 r2 g1' g2'); auto. congruence.
  - rewrite Hsrv'. apply constructor_Ret in Hc as (Hgc & Hadm & _).
    assert (Hold : ∀ c r g, (c, r) ∈ activeGames srv →
              (objects srv ++ [session])%list !! r = Some g →
              objects srv !! r = Some g).
    { intros c r g Hin Hg. destruct (Hcode c r Hin) as (g0 & Hg0 & _).
      pose proof Hg0 as Hx. eapply lookup_app_l_Some in Hx.
      rewrite Hx in Hg. by simplify_eq. }
    split; simpl.
    + by apply keys_set_NoDup.
    + intros c r Hin. apply elem_set_inv in Hin as [[-> ->]|[Hne Hin]]; [| |done].
      * exists session. split; [|done]. by rewrite lookup_app_r, Nat.sub_diag.
      * destruct (Hcode c r Hin) as (g & Hg & ?). exists g.
        split; [by apply lookup_app_l_Some | done].
    + intros c1 c2 r1 r2 g1 g2 Hin1 Hin2 Hg1 Hg2 Heq.
      apply elem_set_inv in Hin1 as [[-> ->]|[Hne1 Hin1]]; [| |done];
        (apply elem_set_inv in Hin2 as [[-> ->]|[Hne2 Hin2]]; [| |done]);
        try done.
      * exfalso. rewrite lookup_app_r, Nat.sub_diag in Hg1 by done.
        simpl in Hg1. injection Hg1 as <-.
        apply (getGameByAdminSocket_None srv socket c2 r2 g2 Hnone Hin2); [|congruence].
        by eapply Hold.
      * exfalso. rewrite lookup_app_r, Nat.sub_diag in Hg2 by done.
        simpl in Hg2. injection Hg2 as <-.
        apply (getGameByAdminSocket_None srv socket c1 r1 g1 Hnone Hin1); [|congruence].
        by eapply Hold.
      * apply (Hadmin c1 c2 r1 r2 g1 g2); eauto.
Qed.

Lemma registry_ok_run srv trace :
  registry_ok srv → registry_ok (run calculateScore db srv trace).
Proof.
  revert srv. induction trace as [|e trace IH]; intros srv H; [done|].
  simpl. apply IH. by apply registry_ok_step.
Qed.

(** A session found by its admin socket is the one registered under its
    own game code. *)
Lemma getGame_of_admin srv socket r s :
  registry_ok srv →
  getGameByAdminSocket srv socket = Some (r, s) →
  getGame srv (gameCode s) = Some (r, s).
Proof.
  intros [Hkeys Hcode _] H. apply getGameByAdminSocket_Some in H as (Hin & Hs & _).
  apply values_elem in Hin as [c Hin].
  destruct (Hcode c r Hin) as (g & Hg & Hgc).
  replace g with s in * by congruence.
  apply getGame_Some. split; [|done]. apply get_elem; [done | by rewrite Hgc].
Qed.

End RegistryInvariant.

(** ** Creating games *)

(** C7. Construction fails exactly when the quiz is not found or has no
    questions; [createGame] then returns the failure with the server as it
    was, and so does the [create_game] handler whatever the token: no
    object, registry entry or timeout is added or removed. *)
Theorem construction_failure_keeps_registry (calculateScore : Q → Z → Z) (db : Db)
    (srv : Server) (socket : string) (token : Token) (quiz : Z) (code : string) :
  ((∃ msg, GameSession_constructor db quiz socket code = Throw msg) ↔
     quiz_by_id db quiz = None ∨ questions_of_quiz db quiz = []) ∧
  (∀ msg, GameSession_constructor db quiz socket code = Throw msg →
     createGame db srv quiz socket code = (srv, Throw msg) ∧
     (step calculateScore db srv (create_game socket token quiz code)).1 = srv).
Proof.
  split; [apply constructor_Throw|].
  intros msg Hc. unfold createGame. simpl. unfold on_create_game, createGame.
  rewrite Hc. split; [done|].
  destruct token; try done. by destruct (getGameByAdminSocket srv socket) as [[? ?]|].
Qed.

(** C3, amended. [createGame] draws one code and stores the new session
    under it, without consulting the registry and without retrying. The
    entries under other codes are kept; when no active session holds the
    drawn code nothing is overwritten, and when one does, its entry is
    replaced by the new session. *)
Theorem createGame_stores_drawn_code (db : Db) (srv srv' : Server) (quiz : Z)
    (admin code : string) (r : nat) (session : GameSession) :
  createGame db srv quiz admin code = (srv', Ret (r, session)) →
  gameCode session = code ∧
  r = length (objects srv) ∧
  objects srv' = (objects srv ++ [session])%list ∧
  activeGames srv' = JsMap.set code r (activeGames srv) ∧
  JsMap.get code (activeGames srv') = Some r ∧
  (∀ code', code' ≠ code →
     JsMap.get code' (activeGames srv') = JsMap.get code' (activeGames srv)) ∧
  (JsMap.get code (activeGames srv) = None →
     ∀ code' r', JsMap.get code' (activeGames srv) = Some r' →
                 JsMap.get code' (activeGames srv') = Some r') ∧
  (∀ r0 g0, getGame srv code = Some (r0, g0) →
     JsMap.get code (activeGames srv') = Some r ∧ r ≠ r0).
Proof.
  unfold createGame.
  destruct (GameSession_constructor db quiz admin code) as [s|msg] eqn:Hc; [|done].
  intros [= <- <- <-]. apply constructor_Ret in Hc as (Hgc & _). simpl.
  rewrite Hgc. repeat split.
  - apply get_set_eq.
  - intros code' Hne. by apply get_set_ne.
  - intros Hfree code' r' Hget. rewrite get_set_ne; [done|]. congruence.
  - apply get_set_eq.
  - apply getGame_Some in H as [_ Hg0]. apply lookup_lt_Some in Hg0. lia.
Qed.

(** ** Invariants of a session object along a run *)

Section ObjectInvariants.

Variable calculateScore : Q → Z → Z.
Variable db : Db.

Lemma step_objects_origin srv e r s' :
  objects (step calculateScore db srv e).1 !! r = Some s' →
  (∃ s, objects srv !! r = Some s ∧ obj_step calculateScore e s s') ∨
  (∃ quiz admin code, GameSession_constructor db quiz admin code = Ret s').
Proof.
  intros Hs'. destruct (objects srv !! r) as [s|] eqn:Hs.
  - left. exists s. split; [done|].
    destruct (step_obj calculateScore db srv e r s Hs) as (s'' & Hs'' & Hstep).
    congruence.
  - right. destruct (step_registry calculateScore db srv e)
      as [[Hlen _]|(socket & quiz & code & session & _ & _ & Hc & Hsrv')].
    + apply lookup_lt_Some in Hs'. apply lookup_ge_None in Hs. lia.
    + rewrite Hsrv' in Hs'. simpl in Hs'. apply lookup_ge_None in Hs.
      rewrite lookup_app_r in Hs' by done.
      destruct (r - length (objects srv))%nat as [|n]; simpl in Hs'; [|done].
      exists quiz, socket, code. congruence.
Qed.

Lemma run_objects_inv (P : GameSession → Prop) :
  (∀ e s s', obj_step calculateScore e s s' → P s → P s') →
  (∀ quiz admin code s, GameSession_constructor db quiz admin code = Ret s → P s) →
  ∀ trace srv,
    (∀ r s, objects srv !! r = Some s → P s) →
    ∀ r s, objects (run calculateScore db srv trace) !! r = Some s → P s.
Proof.
  intros Hstep Hnew trace. induction trace as [|e trace IH]; intros srv Hsrv; [done|].
  simpl. apply IH. intros r s' Hs'.
  apply step_objects_origin in Hs' as [(s & Hs & Hobj)|(quiz & admin & code & Hc)].
  - eapply Hstep; eauto.
  - eapply Hnew; eauto.
Qed.

End ObjectInvariants.

(** ** Scores along a run *)

Lemma keys_set_existing {V} k (v v0 : V) m :
  JsMap.get k m = Some v0 → JsMap.keys (JsMap.set k v m) = JsMap.keys m.
Proof.
  unfold JsMap.keys. induction m as [|[k' v'] m IH]; simpl; [done|].
  destruct (decide (k' = k)) as [->|Hne]; simpl; [done|].
  intros H. f_equal. by apply IH.
Qed.

Lemma get_set {V} k k' (v : V) m :
  JsMap.get k' (JsMap.set k v m) = if decide (k = k') then Some v else JsMap.get k' m.
Proof.
  destruct (decide (k = k')) as [->|Hne]; [apply get_set_eq | by apply get_set_ne].
Qed.

Lemma answerOutcome_wrong cs s cid p :
  currentAnswer p ≠ Some cid → answerOutcome cs s cid p = (false, 0).
Proof.
  intros H. unfold answerOutcome. rewrite bool_decide_eq_false_2 by done.
  by destruct (questionStartTime s), (answerTimestamp p).
Qed.

Lemma answerOutcome_nonneg cs s cid p :
  (∀ t b, 0 ≤ cs t b) → 0 ≤ (answerOutcome cs s cid p).2.
Proof.
  intros Hnn. unfold answerOutcome. simpl.
  destruct (questionStartTime s), (answerTimestamp p); try done.
  destruct (_ && _); [apply Hnn | done].
Qed.

Lemma lifted_refl s : lifted s s.
Proof.
  repeat split; try done. intros socketId. exists id. split; [done|].
  by destruct (JsMap.get socketId (players s)).
Qed.

Lemma lifted_trans s1 s2 s3 : lifted s1 s2 → lifted s2 s3 → lifted s1 s3.
Proof.
  intros (Hk1 & Hw1 & Hg1) (Hk2 & Hw2 & Hg2). repeat split.
  - congruence.
  - auto.
  - intros socketId. destruct (Hg1 socketId) as (g1 & Hs1 & Hget1).
    destruct (Hg2 socketId) as (g2 & Hs2 & Hget2).
    exists (g2 ∘ g1). split.
    + intros p. simpl. destruct (Hs1 p) as [Ha Hb], (Hs2 (g1 p)) as [Hc Hd].
      split; [lia|]. intros Hw. rewrite Hd, Hb; auto.
    + rewrite Hget2, Hget1. by destruct (JsMap.get socketId (players s1)).
Qed.

Lemma lifted_same s s' :
  players s' = players s → (status s' = WAITING → status s = WAITING) → lifted s s'.
Proof.
  intros Hp Hst. repeat split; [by rewrite Hp | done |].
  intros socketId. exists id. split; [done|]. rewrite Hp.
  by destruct (JsMap.get socketId (players s)).
Qed.

Lemma lifted_update_all (f : Player → Player) s s' :
  players s' = JsMap.update_all f (players s) →
  status s' ≠ WAITING →
  (∀ p, score p ≤ score (f p)) →
  lifted s s'.
Proof.
  intros Hp Hst Hf. repeat split.
  - by rewrite Hp, keys_update_all.
  - done.
  - intros socketId. exists f. split; [by split; [apply Hf|]|].
    by rewrite Hp, get_update_all.
Qed.

Lemma lifted_opened now s s' : opened now s s' → lifted s s'.
Proof.
  intros H. apply opened_shape in H as (_ & _ & [[Hst Hp]|[Hst Hp]]).
  - apply lifted_same; [done | by rewrite Hst].
  - eapply lifted_update_all; [done | by rewrite Hst | done].
Qed.

Lemma lifted_torn_down s s' : torn_down s s' → lifted s s'.
Proof.
  intros H. apply torn_down_shape in H as (_ & _ & Hp & [Hst|Hst]).
  - apply lifted_same; [done | by rewrite Hst].
  - apply lifted_same; [done | by rewrite Hst].
Qed.

Lemma lifted_submit s socketId optionId now :
  (submitAnswer s socketId optionId now).2 = true →
  lifted s (submitAnswer s socketId optionId now).1.
Proof.
  intros H. apply submitAnswer_shape in H as (p & Hp & _ & _ & ->).
  unfold lifted. cbn [players set_players status].
  repeat split.
  - by eapply keys_set_existing.
  - done.
  - intros k. rewrite get_set. destruct (decide (socketId = k)) as [<-|Hne].
    + exists (set_answer (Some optionId) (Some now)). split; [done|]. by rewrite Hp.
    + exists id. split; [done|]. by destruct (JsMap.get k (players s)).
Qed.

Lemma lifted_close cs tm s :
  (∀ t b, 0 ≤ cs t b) → lifted s (closeSession cs tm s).
Proof.
  intros Hnn.
  pose proof (closeSession_shape cs tm s) as (_ & _ & _ & [[Hst Hp]|[Hst (q & _ & Hp)]]).
  - apply lifted_same; [done | by rewrite Hst].
  - eapply lifted_update_all; [done | by rewrite Hst |].
    intros p. pose proof (answerOutcome_nonneg cs s (correctOptionIdOf q) p Hnn).
    unfold scored. cbn [score set_score]. lia.
Qed.

Lemma obj_step_cases cs e s s' :
  (∀ t b, 0 ≤ cs t b) →
  obj_step cs e s s' →
  lifted s s'
  ∨ (∃ socket name p, addPlayer s socket name = Ret (s', p))
  ∨ (∃ socket, s' = removePlayer s socket).
Proof.
  intros Hnn [->|H]; [left; apply lifted_refl|]. destruct e; try done.
  - destruct H as [p H]. right. left. by eexists _, _, _.
  - left. by eapply lifted_opened.
  - left. destruct H as [Hacc [[_ ->]|[_ [tm ->]]]].
    + by apply lifted_submit.
    + eapply lifted_trans; [by apply lifted_submit | by apply lifted_close].
  - left. destruct H as [H|H]; [by eapply lifted_opened | by apply lifted_torn_down].
  - left. by apply lifted_torn_down.
  - destruct H as [H| ->]; [left; by apply lifted_torn_down|].
    right. right. by eexists.
  - left. destruct H as [tm ->]. by apply lifted_close.
Qed.

Lemma values_get s p :
  NoDup (JsMap.keys (players s)) →
  p ∈ JsMap.values (players s) ↔ ∃ k, JsMap.get k (players s) = Some p.
Proof.
  intros Hnd. rewrite values_elem. split; intros [k H]; exists k.
  - by apply get_elem.
  - by apply get_Some_elem.
Qed.

Lemma session_ok_lifted s s' : session_ok s → lifted s s' → session_ok s'.
Proof.
  intros [Hnd Hsc] (Hk & Hw & Hg).
  assert (Hnd' : NoDup (JsMap.keys (players s'))) by by rewrite Hk.
  split; [done|]. intros p' Hin. apply (values_get s' p' Hnd') in Hin as [k Hk'].
  destruct (Hg k) as (g & Hs & Hget). rewrite Hk' in Hget.
  destruct (JsMap.get k (players s)) as [p|] eqn:Hp; [|done].
  injection Hget as ->. destruct (Hs p) as [Hle Hz].
  destruct (Hsc p) as [H0 Hw0]; [apply values_get; eauto|].
  split; [lia|]. intros Hst. rewrite Hz by done. auto.
Qed.

Lemma session_ok_addPlayer s socketId name s' p :
  session_ok s → addPlayer s socketId name = Ret (s', p) → session_ok s'.
Proof.
  intros [Hnd Hsc] H. apply addPlayer_Ret in H as (Hst & -> & ->). split; simpl.
  - by apply keys_set_NoDup.
  - intros p Hin. apply values_elem in Hin as [k Hin].
    apply elem_set in Hin as [[= _ ->]|Hin]; [done|].
    apply Hsc. apply values_elem. by exists k.
Qed.

Lemma session_ok_removePlayer s socketId :
  session_ok s → session_ok (removePlayer s socketId).
Proof.
  intros [Hnd Hsc]. split; simpl.
  - by apply keys_delete_NoDup.
  - intros p Hin. apply values_elem in Hin as [k Hin]. apply elem_delete in Hin.
    apply Hsc. apply values_elem. by exists k.
Qed.

Lemma session_ok_run cs db trace r s :
  (∀ t b, 0 ≤ cs t b) →
  objects (run cs db emptyServer trace) !! r = Some s → session_ok s.
Proof.
  intros Hnn. apply (run_objects_inv cs db session_ok).
  - intros e s0 s' Hstep Hok.
    destruct (obj_step_cases cs e s0 s' Hnn Hstep)
      as [Hl|[(socket & name & p & Hadd)|[socket ->]]].
    + by eapply session_ok_lifted.
    + by eapply session_ok_addPlayer.
    + by apply session_ok_removePlayer.
  - intros quiz admin code s0 Hc. apply constructor_Ret in Hc as (_ & _ & Hp & _).
    split; [rewrite Hp; apply NoDup_nil_2|].
    intros p Hin. rewrite Hp in Hin. by apply elem_of_nil in Hin.
  - intros r0 s0 H. simpl in H. by rewrite lookup_nil in H.
Qed.

Lemma obj_step_monotone cs e s s' socketId p p' :
  (∀ t b, 0 ≤ cs t b) →
  session_ok s → obj_step cs e s s' →
  JsMap.get socketId (players s) = Some p →
  JsMap.get socketId (players s') = Some p' →
  score p ≤ score p'.
Proof.
  intros Hnn [Hnd Hsc] Hstep Hp Hp'.
  destruct (obj_step_cases cs e s s' Hnn Hstep)
    as [(_ & _ & Hg)|[(socket & name & p0 & Hadd)|[socket ->]]].
  - destruct (Hg socketId) as (g & Hs & Hget). rewrite Hp, Hp' in Hget.
    injection Hget as ->. apply Hs.
  - apply addPlayer_Ret in Hadd as (Hst & -> & ->). simpl in Hp'.
    destruct (Hsc p) as [_ Hz]; [apply values_get; eauto|].
    rewrite (Hz Hst). rewrite get_set in Hp'.
    destruct (decide (socket = socketId)); simplify_eq; [done|]. by rewrite Hz.
  - simpl in Hp'. destruct (decide (socket = socketId)) as [->|Hne].
    + by rewrite get_delete_eq in Hp'.
    + rewrite get_delete_ne in Hp' by done. by simplify_eq.
Qed.

Lemma obj_step_keys cs e s s' :
  obj_step cs e s s' →
  NoDup (JsMap.keys (players s)) → NoDup (JsMap.keys (players s')).
Proof.
  assert (Hopen : ∀ now, opened now s s' →
            NoDup (JsMap.keys (players s)) → NoDup (JsMap.keys (players s'))).
  { intros now H Hnd. apply opened_shape in H as (_ & _ & [[_ ->]|[_ ->]]); [done|].
    by rewrite keys_update_all. }
  assert (Hdown : torn_down s s' →
            NoDup (JsMap.keys (players s)) → NoDup (JsMap.keys (players s'))).
  { intros H Hnd. by apply torn_down_shape in H as (_ & _ & -> & _). }
  assert (Hclose : ∀ tm s1, NoDup (JsMap.keys (players s1)) →
            NoDup (JsMap.keys (players (closeSession cs tm s1)))).
  { intros tm s1 Hnd.
    pose proof (closeSession_shape cs tm s1)
      as (_ & _ & _ & [[_ ->]|[_ (q & _ & ->)]]); [done|].
    by rewrite keys_update_all. }
  intros [->|H] Hnd; [done|]. destruct e; try done; eauto.
  - destruct H as [p H]. apply addPlayer_Ret in H as (_ & _ & ->).
    by apply keys_set_NoDup.
  - destruct H as [Hacc H].
    apply submitAnswer_shape in Hacc as (p & _ & _ & _ & Hs1).
    assert (NoDup (JsMap.keys (players (submitAnswer s socket optionId now).1))).
    { rewrite Hs1. by apply keys_set_NoDup. }
    destruct H as [[_ ->]|[_ [tm ->]]]; auto.
  - destruct H as [H|H]; eauto.
  - destruct H as [H| ->]; [eauto|]. by apply keys_delete_NoDup.
  - destruct H as [tm ->]. auto.
Qed.

Lemma roster_keys_run cs db trace r s :
  objects (run cs db emptyServer trace) !! r = Some s →
  NoDup (JsMap.keys (players s)).
Proof.
  apply (run_objects_inv cs db (λ s, NoDup (JsMap.keys (players s)))).
  - intros e s0 s'. apply obj_step_keys.
  - intros quiz admin code s0 Hc. apply constructor_Ret in Hc as (_ & _ & -> & _).
    apply NoDup_nil_2.
  - intros r0 s0 H. simpl in H. by rewrite lookup_nil in H.
Qed.

(** C5. With a scoring function that returns non-negative points, in every
    state the server can reach every score is non-negative, and no event
    lowers the score of a player who is on the roster before and after it.
    [endQuestion] leaves the score of a player whose recorded answer is not
    the correct option (a wrong answer or none) as it was. *)
Theorem scores_never_decrease (calculateScore : Q → Z → Z) (db : Db)
    (Hnonneg : ∀ t b, 0 ≤ calculateScore t b) :
  (∀ trace r s socketId p,
     objects (run calculateScore db emptyServer trace) !! r = Some s →
     JsMap.get socketId (players s) = Some p →
     0 ≤ score p) ∧
  (∀ trace e r s s' socketId p p',
     objects (run calculateScore db emptyServer trace) !! r = Some s →
     objects (step calculateScore db (run calculateScore db emptyServer trace) e).1 !! r
     = Some s' →
     JsMap.get socketId (players s) = Some p →
     JsMap.get socketId (players s') = Some p' →
     score p ≤ score p') ∧
  (∀ tm s q socketId p,
     js_index (questions s) (currentQuestionIndex s) = Some q →
     JsMap.get socketId (players s) = Some p →
     currentAnswer p ≠ Some (correctOptionIdOf q) →
     scoreOf socketId (endQuestion calculateScore tm s).1.2 = Some (score p)).
Proof.
  repeat split.
  - intros trace r s socketId p Hs Hp.
    destruct (session_ok_run calculateScore db trace r s Hnonneg Hs) as [Hnd Hsc].
    apply Hsc. apply values_get; eauto.
  - intros trace e r s s' socketId p p' Hs Hs' Hp Hp'.
    pose proof (session_ok_run calculateScore db trace r s Hnonneg Hs) as Hok.
    destruct (step_obj calculateScore db _ e r s Hs) as (s'' & Hs'' & Hstep).
    replace s'' with s' in * by congruence.
    by eapply obj_step_monotone.
  - intros tm s q socketId p Hq Hp Hwrong.
    rewrite (endQuestion_defined calculateScore tm s q Hq). unfold scoreOf.
    cbn [fst snd players set_questionResults set_players].
    rewrite get_update_all, Hp. unfold scored.
    cbn [fmap option_fmap option_map score set_score].
    rewrite answerOutcome_wrong by done. simpl. f_equal. lia.
Qed.

(** ** Disconnecting players *)

Lemma elem_delete_ne {V} k k' (v : V) m :
  NoDup (JsMap.keys m) → (k', v) ∈ JsMap.delete k m → k' ≠ k.
Proof.
  intros Hnd Hin ->.
  apply (get_elem _ _ _ (keys_delete_NoDup k m Hnd)) in Hin.
  by rewrite get_delete_eq in Hin.
Qed.

(** C10. In every state the server can reach, the [disconnect] of a socket
    that is not an admin's leaves the timeouts and the registry alone,
    broadcasts no [question_end], and at most removes the socket from the
    roster of its game. When the player who leaves was the only one without
    an answer, [allPlayersAnswered] turns true and the question stays open,
    its deadline still recorded. An open question is closed (status
    [reveal] or [leaderboard]) only by a firing timeout or by an accepted
    [submit_answer] after which all players have answered. *)
Theorem disconnect_never_closes (calculateScore : Q → Z → Z) (db : Db)
    (trace : list Event) :
  let srv := run calculateScore db emptyServer trace in
  (∀ socket,
     getGameByAdminSocket srv socket = None →
     let res := step calculateScore db srv (disconnect socket) in
     timeouts res.1 = timeouts srv ∧ activeGames res.1 = activeGames srv ∧
     (∀ code results, ToRoom code (question_end results) ∉ res.2) ∧
     (∀ r s, objects srv !! r = Some s →
        ∃ s', objects res.1 !! r = Some s' ∧
              (s' = s ∨ s' = removePlayer s socket) ∧ status s' = status s)) ∧
  (∀ socket r s,
     getGameByAdminSocket srv socket = None →
     getGameByPlayerSocket srv socket = Some (r, s) →
     status s = QUESTION →
     (∃ p, JsMap.get socket (players s) = Some p ∧ currentAnswer p = None) →
     (∀ k p, JsMap.get k (players s) = Some p → k ≠ socket → currentAnswer p ≠ None) →
     allPlayersAnswered s = false ∧
     objects (step calculateScore db srv (disconnect socket)).1 !! r
     = Some (removePlayer s socket) ∧
     allPlayersAnswered (removePlayer s socket) = true ∧
     status (removePlayer s socket) = QUESTION ∧
     questionTimer (removePlayer s socket) = questionTimer s) ∧
  (∀ e r s s',
     objects srv !! r = Some s →
     objects (step calculateScore db srv e).1 !! r = Some s' →
     status s = QUESTION →
     status s' = REVEAL ∨ status s' = LEADERBOARD →
     (∃ h, e = timeout_fires h) ∨
     (∃ socket optionId now,
        e = submit_answer socket optionId now ∧
        (submitAnswer s socket optionId now).2 = true ∧
        allPlayersAnswered (submitAnswer s socket optionId now).1 = true)).
Proof.
  simpl. set (srv := run calculateScore db emptyServer trace).
  split; [|split].
  - intros socket Hadm. unfold on_disconnect. rewrite Hadm.
    destruct (getGameByPlayerSocket srv socket) as [[r0 s0]|] eqn:Hp; simpl.
    + apply getGameByPlayerSocket_Some in Hp as (_ & Hs0 & _).
      split; [done|]. split; [done|]. split.
      * intros code results Hin. apply list_elem_of_singleton in Hin. done.
      * intros r s Hs. eexists. split; [by apply store_lookup|].
        destruct (decide (r0 = r)) as [->|]; [|by auto].
        replace s0 with s by congruence. by auto.
    + split; [done|]. split; [done|]. split.
      * intros code results. apply not_elem_of_nil.
      * intros r s Hs. exists s. by auto.
  - intros socket r s Hadm Hplayer Hst (p & Hp & Ha) Hothers.
    pose proof Hplayer as Hfound.
    apply getGameByPlayerSocket_Some in Hfound as (_ & Hs & _).
    split; [|split; [|split; [|done]]].
    + destruct (allPlayersAnswered s) eqn:Hall; [|done].
      unfold allPlayersAnswered in Hall. rewrite forallb_forall in Hall.
      specialize (Hall p). rewrite Ha in Hall. symmetry. apply Hall.
      apply list_elem_of_In, values_elem. exists socket. by apply get_Some_elem.
    + unfold on_disconnect. rewrite Hadm, Hplayer. simpl.
      by eapply store_lookup_eq.
    + pose proof (roster_keys_run calculateScore db trace r s Hs) as Hnd.
      unfold allPlayersAnswered. apply forallb_forall. intros p' Hin.
      apply list_elem_of_In, values_elem in Hin as [k Hin]. simpl in Hin.
      pose proof (elem_delete_ne _ _ _ _ Hnd Hin) as Hne.
      apply elem_delete in Hin. apply (get_elem _ _ _ Hnd) in Hin.
      specialize (Hothers k p' Hin Hne). by destruct (currentAnswer p').
  - intros e r s s' Hs Hs' Hst Hst'.
    destruct (step_obj calculateScore db srv e r s Hs) as (s'' & Hs'' & Hstep).
    replace s'' with s' in * by congruence. clear Hs''.
    assert (Hno : ¬ (status s' = status s ∨ status s' = QUESTION
                     ∨ status s' = FINISHED)).
    { rewrite Hst. intros [?|[?|?]]; destruct Hst'; congruence. }
    destruct Hstep as [->|Hstep]; [exfalso; apply Hno; by left|].
    destruct e; try done.
    + destruct Hstep as [p Hadd]. apply addPlayer_Ret in Hadd as (? & _). congruence.
    + exfalso. apply Hno.
      apply opened_shape in Hstep as (_ & _ & [[? _]|[? _]]); by auto.
    + destruct Hstep as [Hacc [[_ ->]|[Hall _]]].
      * exfalso. apply Hno. left.
        apply submitAnswer_shape in Hacc as (p & _ & _ & _ & ->). done.
      * right. by eexists _, _, _.
    + exfalso. apply Hno. destruct Hstep as [Hstep|Hstep].
      * apply opened_shape in Hstep as (_ & _ & [[? _]|[? _]]); by auto.
      * apply torn_down_shape in Hstep as (_ & _ & _ & [?|?]); by auto.
    + exfalso. apply Hno.
      apply torn_down_shape in Hstep as (_ & _ & _ & [?|?]); by auto.
    + exfalso. apply Hno. destruct Hstep as [Hstep| ->]; [|by left].
      apply torn_down_shape in Hstep as (_ & _ & _ & [?|?]); by auto.
    + left. by eexists.
Qed.

(** ** Deadlines *)

Lemma clearTimeout_elem h h' cb tm :
  (h', cb) ∈ pending (clearTimeout h tm) ↔ h' ≠ h ∧ (h', cb) ∈ pending tm.
Proof. unfold clearTimeout. simpl. by rewrite list_elem_of_filter. Qed.

Lemma clearTimeout_NoDup h tm :
  NoDup (pending tm).*1 → NoDup (pending (clearTimeout h tm)).*1.
Proof.
  intros Hnd. eapply sublist_NoDup; [exact Hnd|].
  unfold clearTimeout. simpl. apply fmap_sublist, sublist_filter.
Qed.

Lemma closeQuestion_server cs srv r s :
  (closeQuestion cs srv r s).1
  = mkServer (<[r := closeSession cs (timeouts srv) s]> (objects srv))
      (activeGames srv)
      (match questionTimer s with
       | Some h => clearTimeout h (timeouts srv)
       | None => timeouts srv
       end).
Proof.
  unfold closeQuestion, closeSession, endQuestion. simpl.
  destruct (questionTimer s); simpl;
    destruct (js_index _ _); simpl; try done;
    destruct (endQuestion_loop _ _ _ _ _) as [[? ?] ?]; done.
Qed.

Lemma finishGame_server srv socket r s :
  registry_ok srv →
  getGameByAdminSocket srv socket = Some (r, s) →
  (finishGame srv r s).1
  = mkServer (<[r := (cleanup (timeouts srv) (set_status FINISHED s)).2]> (objects srv))
      (JsMap.delete (gameCode s) (activeGames srv))
      (match questionTimer s with
       | Some h => clearTimeout h (timeouts srv)
       | None => timeouts srv
       end).
Proof.
  intros Hok Hadm. pose proof (getGame_of_admin srv socket r s Hok Hadm) as Hg.
  apply getGame_Some in Hg as [Hc Hs].
  unfold finishGame, removeGame. simpl.
  assert (Hg' : getGame (store srv r (set_status FINISHED s)) (gameCode s)
                = Some (r, set_status FINISHED s)).
  { apply getGame_Some. split; [done | by eapply store_lookup_eq]. }
  rewrite Hg'. unfold cleanup. simpl.
  destruct (questionTimer s); simpl; by rewrite list_insert_insert_eq.
Qed.

Section Deadlines.

Variable calculateScore : Q → Z → Z.
Variable db : Db.

Lemma timers_ok_empty : timers_ok emptyServer.
Proof.
  split; simpl.
  - intros h r H. by apply elem_of_nil in H.
  - intros h cb H. by apply elem_of_nil in H.
  - apply NoDup_nil_2.
Qed.

(** Changing an object without touching its recorded deadline, and without
    closing its question. *)
Lemma timers_ok_store srv r s s' :
  timers_ok srv →
  objects srv !! r = Some s →
  questionTimer s' = questionTimer s →
  (status s = QUESTION → status s' = QUESTION) →
  timers_ok (store srv r s').
Proof.
  intros [Hrec Hfresh Hnd] Hs Htimer Hst. split; simpl; [|done..].
  intros h r0 Hin. destruct (Hrec h r0 Hin) as (s0 & Hs0 & Ht0 & Hst0).
  destruct (decide (r = r0)) as [->|Hne].
  - replace s0 with s in * by congruence. exists s'.
    split; [by eapply (store_lookup_eq srv)|]. split; [congruence | auto].
  - exists s0. split; [|done]. by rewrite list_lookup_insert_ne.
Qed.

(** Cancelling the deadline an object records: whatever the object becomes,
    no deadline is pending for it afterwards. *)
Lemma timers_ok_cancel srv r s s' registry :
  timers_ok srv →
  objects srv !! r = Some s →
  timers_ok (mkServer (<[r := s']> (objects srv)) registry
               (match questionTimer s with
                | Some h => clearTimeout h (timeouts srv)
                | None => timeouts srv
                end)).
Proof.
  intros [Hrec Hfresh Hnd] Hs.
  assert (Hsub : ∀ h cb,
            (h, cb) ∈ pending (match questionTimer s with
                               | Some h0 => clearTimeout h0 (timeouts srv)
                               | None => timeouts srv
                               end) →
            (h, cb) ∈ pending (timeouts srv) ∧ questionTimer s ≠ Some h).
  { intros h cb Hin. destruct (questionTimer s) as [h0|]; [|done].
    apply clearTimeout_elem in Hin as [? ?]. split; [done | congruence]. }
  split; simpl.
  - intros h r0 Hin. apply Hsub in Hin as [Hin Hne].
    destruct (Hrec h r0 Hin) as (s0 & Hs0 & Ht0 & Hst0).
    destruct (decide (r = r0)) as [->|Hr]; [congruence|].
    exists s0. by rewrite list_lookup_insert_ne.
  - intros h cb Hin. apply Hsub in Hin as [Hin _].
    destruct (questionTimer s); [|by eauto]. simpl. by eauto.
  - destruct (questionTimer s); [by apply clearTimeout_NoDup | done].
Qed.

Lemma timers_ok_clear srv h :
  timers_ok srv → timers_ok (set_timeouts (clearTimeout h (timeouts srv)) srv).
Proof.
  intros [Hrec Hfresh Hnd]. split; simpl.
  - intros h' r Hin. apply list_elem_of_filter in Hin as [_ Hin]. by apply Hrec.
  - intros h' cb Hin. apply list_elem_of_filter in Hin as [_ Hin]. by eapply Hfresh.
  - by apply (clearTimeout_NoDup h (timeouts srv)).
Qed.

(** Arming the deadline of a question that has just been opened, for a
    session without a pending deadline. *)
Lemma timers_ok_arm srv r s s' d :
  timers_ok srv →
  objects srv !! r = Some s →
  status s ≠ QUESTION →
  status s' = QUESTION →
  timers_ok (handleQuestion srv r s' d).1.
Proof.
  intros [Hrec Hfresh Hnd] Hs Hclosed Hopen.
  unfold handleQuestion, setQuestionTimer, setTimeout. split; simpl.
  - intros h r0 Hin. apply elem_of_app in Hin as [Hin|Hin].
    + destruct (Hrec h r0 Hin) as (s0 & Hs0 & Ht0 & Hst0).
      destruct (decide (r = r0)) as [->|Hr]; [congruence|].
      exists s0. by rewrite list_lookup_insert_ne.
    + apply list_elem_of_singleton in Hin. injection Hin as -> <-.
      eexists. split; [apply list_lookup_insert_eq; by eapply lookup_lt_Some|].
      by split.
  - intros h cb Hin. apply elem_of_app in Hin as [Hin|Hin].
    + apply Hfresh in Hin. lia.
    + apply list_elem_of_singleton in Hin. injection Hin as -> _. lia.
  - rewrite fmap_app. apply NoDup_app. split; [done|]. split; [|apply NoDup_singleton].
    intros h Hin Hin'. simpl in Hin'. apply list_elem_of_singleton in Hin'. subst h.
    apply list_elem_of_fmap in Hin as [[h cb] [Heq Hin]]. simpl in Heq. subst h.
    apply Hfresh in Hin. lia.
Qed.

Lemma timers_ok_start srv socket r s now :
  timers_ok srv →
  getGameByAdminSocket srv socket = Some (r, s) →
  status s ≠ QUESTION →
  timers_ok
    match startNextQuestion s now with
    | (session', Throw _) => store srv r session'
    | (session', Ret None) => store srv r session'
    | (session', Ret (Some d)) => (handleQuestion srv r session' d).1
    end.
Proof.
  intros Hok Hadm Hclosed. apply getGameByAdminSocket_Some in Hadm as (_ & Hs & _).
  pose proof (startNextQuestion_shape s now) as (_ & _ & Htimer & Hshape).
  destruct (startNextQuestion s now) as [s' [[d|]|msg]] eqn:Hstart;
    cbn [fst snd] in Htimer, Hshape.
  - destruct Hshape as [(_ & _ & ?)|[Hst _]]; [done|].
    by apply (timers_ok_arm srv r s).
  - apply (timers_ok_store srv r s); [done..|].
    destruct Hshape as [(-> & _)|[-> _]]; done.
  - apply (timers_ok_store srv r s); [done..|].
    destruct Hshape as [(-> & _)|[-> _]]; done.
Qed.

Lemma timers_ok_step srv e :
  registry_ok srv → timers_ok srv → guarded srv e = true →
  timers_ok (step calculateScore db srv e).1.
Proof.
  intros Hreg Hok Hguard.
  destruct e as [socket token quiz code|socket code name|socket now
                |socket optionId now|socket now|socket|socket|h]; simpl.
  - (* create_game *)
    unfold on_create_game. destruct token; try done.
    destruct (getGameByAdminSocket srv socket) as [[r existing]|]; [done|].
    unfold createGame. destruct (GameSession_constructor _ _ _ _); [|done].
    destruct Hok as [Hrec Hfresh Hnd]. split; simpl; [|done..].
    intros h r Hin. destruct (Hrec h r Hin) as (s0 & Hs0 & ?).
    exists s0. split; [by apply lookup_app_l_Some | done].
  - (* join_game *)
    unfold on_join_game.
    destruct (getGame srv (toUpperCase code)) as [[r session]|] eqn:Hg; [|done].
    apply getGame_Some in Hg as [_ Hs].
    destruct (addPlayer session socket name) as [[session' p]|msg] eqn:Hadd; [|done].
    apply addPlayer_Ret in Hadd as (_ & _ & ->). by eapply timers_ok_store.
  - (* start_game *)
    unfold on_start_game. simpl in Hguard.
    destruct (getGameByAdminSocket srv socket) as [[r session]|] eqn:Hadm; [|done].
    destruct (decide _); [done|].
    apply negb_true_iff, bool_decide_eq_false in Hguard.
    pose proof (timers_ok_start srv socket r session now Hok Hadm Hguard) as H.
    by destruct (startNextQuestion session now) as [s' [[d|]|msg]].
  - (* submit_answer *)
    unfold on_submit_answer.
    destruct (getGameByPlayerSocket srv socket) as [[r session]|] eqn:Hp; [|done].
    apply getGameByPlayerSocket_Some in Hp as (_ & Hs & _).
    destruct (submitAnswer session socket optionId now) as [s1 accepted] eqn:Hsub.
    destruct accepted; simpl; [|done].
    assert (Hs1 : s1 = (submitAnswer session socket optionId now).1) by by rewrite Hsub.
    assert (Hacc : (submitAnswer session socket optionId now).2 = true) by by rewrite Hsub.
    apply submitAnswer_shape in Hacc as (p & _ & _ & _ & Hshape).
    rewrite Hshape in Hs1.
    assert (Hok1 : timers_ok (store srv r s1)).
    { eapply timers_ok_store; eauto; by subst s1. }
    destruct (allPlayersAnswered s1); [|done].
    rewrite closeQuestion_server.
    replace (questionTimer s1) with (questionTimer session) by by subst s1.
    by apply timers_ok_cancel.
  - (* next_question *)
    unfold on_next_question. simpl in Hguard.
    destruct (getGameByAdminSocket srv socket) as [[r session]|] eqn:Hadm; [|done].
    apply negb_true_iff, bool_decide_eq_false in Hguard.
    destruct (isLastQuestion session).
    + rewrite (finishGame_server srv socket r session Hreg Hadm).
      apply getGameByAdminSocket_Some in Hadm as (_ & Hs & _).
      by apply timers_ok_cancel.
    + pose proof (timers_ok_start srv socket r session now Hok Hadm Hguard) as H.
      by destruct (startNextQuestion session now) as [s' [[d|]|msg]].
  - (* end_game *)
    unfold on_end_game.
    destruct (getGameByAdminSocket srv socket) as [[r session]|] eqn:Hadm; [|done].
    rewrite (finishGame_server srv socket r session Hreg Hadm).
    apply getGameByAdminSocket_Some in Hadm as (_ & Hs & _).
    by apply timers_ok_cancel.
  - (* disconnect *)
    unfold on_disconnect.
    destruct (getGameByAdminSocket srv socket) as [[r session]|] eqn:Hadm.
    + rewrite (finishGame_server srv socket r session Hreg Hadm).
      apply getGameByAdminSocket_Some in Hadm as (_ & Hs & _).
      by apply timers_ok_cancel.
    + destruct (getGameByPlayerSocket srv socket) as [[r session]|] eqn:Hp; [|done].
      apply getGameByPlayerSocket_Some in Hp as (_ & Hs & _).
      simpl. by eapply timers_ok_store.
  - (* timeout_fires *)
    unfold on_timeout.
    destruct (find _ _) as [[h' [r]]|]; [|done].
    unfold deadline_callback. simpl.
    pose proof (timers_ok_clear srv h Hok) as Hok'.
    destruct (objects srv !! r) as [session|] eqn:Hs; [|done].
    rewrite closeQuestion_server. by apply (timers_ok_cancel _ r session).
Qed.

Lemma timers_ok_run trace srv :
  registry_ok srv → timers_ok srv →
  guarded_trace calculateScore db srv trace = true →
  timers_ok (run calculateScore db srv trace).
Proof.
  revert srv. induction trace as [|e trace IH]; intros srv Hreg Hok Hg; [done|].
  simpl in *. apply andb_true_iff in Hg as [Hg1 Hg2].
  apply IH; [by apply registry_ok_step | by apply timers_ok_step | done].
Qed.

End Deadlines.

Lemma length_le_1 {A B} (l : list (A * B)) :
  NoDup l.*1 → (∀ x y, x ∈ l → y ∈ l → x.1 = y.1) → (length l ≤ 1)%nat.
Proof.
  destruct l as [|x [|y l]]; simpl; [lia..|].
  intros Hnd Hsame. exfalso. apply NoDup_cons in Hnd as [Hnotin _].
  apply Hnotin. rewrite (Hsame x y); [left | left | right; left].
Qed.

(** C2, amended. [endQuestion] and [cleanup] cancel the deadline that the
    session records, and the deadline callback runs the closing statements
    whatever the status. As long as the admin asks for a question
    ([start_game], [next_question]) only while no question of the game is
    open, a session has at most one pending deadline, which is the one it
    records, and it is pending only while the status is [question]: it
    cannot fire on a question that has closed. *)
Theorem one_deadline_when_guarded (calculateScore : Q → Z → Z) (db : Db)
    (trace : list Event) :
  guarded_trace calculateScore db emptyServer trace = true →
  let srv := run calculateScore db emptyServer trace in
  (∀ r, (length (deadlines_of srv r) ≤ 1)%nat) ∧
  (∀ h r, (h, Deadline r) ∈ pending (timeouts srv) →
     ∃ s, objects srv !! r = Some s ∧ questionTimer s = Some h ∧
          status s = QUESTION) ∧
  (∀ tm s h cb,
     questionTimer s = Some h →
     ((h, cb) ∉ pending ((endQuestion calculateScore tm s).1.1)) ∧
     ((h, cb) ∉ pending ((cleanup tm s).1))) ∧
  (∀ srv' r s,
     objects srv' !! r = Some s →
     deadline_callback calculateScore srv' (Deadline r)
     = closeQuestion calculateScore srv' r s).
Proof.
  intros Hguard. simpl.
  pose proof (timers_ok_run calculateScore db trace emptyServer
                registry_ok_empty timers_ok_empty Hguard) as [Hrec Hfresh Hnd].
  split; [|split; [done|split]].
  - intros r. unfold deadlines_of. apply length_le_1.
    + eapply sublist_NoDup; [exact Hnd|]. apply fmap_sublist, sublist_filter.
    + intros [h1 cb1] [h2 cb2] H1 H2.
      apply list_elem_of_filter in H1 as [Hcb1 H1].
      apply list_elem_of_filter in H2 as [Hcb2 H2]. simpl in *. subst cb1 cb2.
      destruct (Hrec _ _ H1) as (s1 & Hs1 & Ht1 & _).
      destruct (Hrec _ _ H2) as (s2 & Hs2 & Ht2 & _). congruence.
  - intros tm s h cb Htimer. split.
    + intros Hin. unfold endQuestion in Hin. simpl in Hin. rewrite Htimer in Hin.
      assert (Hin' : (h, cb) ∈ pending (clearTimeout h tm)).
      { destruct (js_index _ _); [|done].
        by destruct (endQuestion_loop _ _ _ _ _) as [[? ?] ?]. }
      apply clearTimeout_elem in Hin' as [? _]. done.
    + unfold cleanup. rewrite Htimer. intros Hin.
      apply clearTimeout_elem in Hin as [? _]. done.
  - intros srv' r s Hs. simpl. by rewrite Hs.
Qed.

End AnyCase.

(** ** The theorems on the sample game *)

(** The sample games have ASCII codes and names, on which the runtime's case
    conversions are those of [ascii_case]. *)
Section SampleRuns.

Local Existing Instance ascii_case.

(** C4 as stated fails: issuing [start_game] twice on a one-question quiz
    leaves the live session with index 1, one past the last question. *)
Lemma index_leaves_range :
  ∃ s, objects (run scoreModel sampleDb emptyServer traceTwoStarts) !! 0%nat = Some s ∧
       JsMap.get "ONEQ42" (activeGames (run scoreModel sampleDb emptyServer traceTwoStarts))
       = Some 0%nat ∧
       totalQuestions s = 1 ∧
       ¬ (-1 ≤ currentQuestionIndex s ≤ totalQuestions s - 1).
Proof. eexists. split; [vm_compute; reflexivity|]. vm_compute. repeat split; try done.
  intros [_ H]. by apply H. Qed.

(** C3 as stated fails: a game created while "ABC123" is held by a live
    game, and drawing "ABC123", takes over the registry entry; the first
    game can no longer be found by code, by admin or by player. *)
Lemma createGame_takes_over_held_code :
  let srv1 := run scoreModel sampleDb emptyServer traceLive in
  let srv2 := run scoreModel sampleDb emptyServer traceCollision in
  (λ rg, adminSocketId rg.2) <$> getGame srv1 "ABC123" = Some "admin" ∧
  (λ rg, adminSocketId rg.2) <$> getGame srv2 "ABC123" = Some "other" ∧
  getGameByAdminSocket srv2 "admin" = None ∧
  getGameByPlayerSocket srv2 "alice" = None.
Proof. by vm_compute. Qed.

(** C2 as stated fails. When the admin asks for the next question while
    the first one is open, two deadlines are pending for the session. The
    first of them outlives the close of the second question by Alice's
    answer (975 points), and when it fires on the closed question it runs
    the closing logic again: 1950 points. *)
Lemma stale_deadline_fires_on_closed_question :
  let srv1 := run scoreModel sampleDb emptyServer traceNextWhileOpen in
  let srv2 := run scoreModel sampleDb emptyServer traceStaleDeadline in
  let srv3 := (step scoreModel sampleDb srv2 (timeout_fires 0%nat)).1 in
  deadlines_of srv1 0%nat = [(0%nat, Deadline 0); (1%nat, Deadline 0)] ∧
  deadlines_of srv2 0%nat = [(0%nat, Deadline 0)] ∧
  status <$> objects srv2 !! 0%nat = Some LEADERBOARD ∧
  scoreOf "alice" <$> objects srv2 !! 0%nat = Some (Some 975) ∧
  scoreOf "alice" <$> objects srv3 !! 0%nat = Some (Some 1950).
Proof. by vm_compute. Qed.

Lemma scoreModel_nonneg t b : 0 ≤ scoreModel t b.
Proof. unfold scoreModel, calculateScore_model. lia. Qed.

Lemma endQuestion_twice_witness :
  js_index (questions sessionA) (currentQuestionIndex sessionA) = Some questionA ∧
  JsMap.get "alice" (players sessionA) = Some aliceA ∧
  let r1 := endQuestion scoreModel (timeouts serverA) sessionA in
  let r2 := endQuestion scoreModel r1.1.1 r1.1.2 in
  let points := (answerOutcome scoreModel sessionA (correctOptionIdOf questionA) aliceA).2 in
  scoreOf "alice" r1.1.2 = Some (score aliceA + points) ∧
  scoreOf "alice" r2.1.2 = Some (score aliceA + 2 * points).
Proof.
  split; [reflexivity|]. split; [reflexivity|].
  apply (endQuestion_twice scoreModel (timeouts serverA) sessionA questionA);
    reflexivity.
Defined.

Lemma one_deadline_when_guarded_witness :
  guarded_trace scoreModel sampleDb emptyServer traceA = true ∧
  (length (deadlines_of serverA 0%nat) ≤ 1)%nat.
Proof.
  split; [reflexivity|].
  apply (one_deadline_when_guarded scoreModel sampleDb traceA). reflexivity.
Defined.

Lemma createGame_stores_drawn_code_witness :
  let srv := run scoreModel sampleDb emptyServer traceLive in
  createGame sampleDb srv 4 "other" "FRESH1"
  = ((createGame sampleDb srv 4 "other" "FRESH1").1, Ret (1%nat, sessionFresh)) ∧
  gameCode sessionFresh = "FRESH1" ∧
  (JsMap.get "FRESH1" (activeGames srv) = None →
   ∀ code' r', JsMap.get code' (activeGames srv) = Some r' →
     JsMap.get code' (activeGames (createGame sampleDb srv 4 "other" "FRESH1").1)
     = Some r').
Proof.
  split; [reflexivity|].
  pose proof (createGame_stores_drawn_code sampleDb
                (run scoreModel sampleDb emptyServer traceLive)
                (createGame sampleDb (run scoreModel sampleDb emptyServer traceLive)
                   4 "other" "FRESH1").1
                4 "other" "FRESH1" 1%nat sessionFresh eq_refl)
    as (H1 & _ & _ & _ & _ & _ & H2 & _).
  split; [exact H1 | exact H2].
Defined.

Lemma scores_never_decrease_witness :
  (∀ t b, 0 ≤ scoreModel t b) ∧
  (∀ trace r s socketId p,
     objects (run scoreModel sampleDb emptyServer trace) !! r = Some s →
     JsMap.get socketId (players s) = Some p →
     0 ≤ score p).
Proof.
  split; [exact scoreModel_nonneg|].
  apply (scores_never_decrease scoreModel sampleDb scoreModel_nonneg).
Defined.

Lemma endQuestion_unflagged_question_witness :
  status sessionUnflagged = QUESTION ∧
  JsMap.get "alice" (players sessionUnflagged) = Some aliceUnflagged ∧
  currentAnswer aliceUnflagged = None ∧
  js_index (questions sessionUnflagged) (currentQuestionIndex sessionUnflagged)
  = Some questionUnflagged ∧
  find is_correct (qw_options questionUnflagged) = None ∧
  questionStartTime sessionUnflagged = Some 1000 ∧ 1000 ≠ 0 ∧ 3000 ≠ 0 ∧
  (submitAnswer sessionUnflagged "alice" (-1) 3000).2 = true.
Proof.
  repeat (split; [first [reflexivity | by vm_compute]|]).
  apply (endQuestion_unflagged_question scoreModel (mkTimeouts [] 0%nat)
           sessionUnflagged "alice" aliceUnflagged questionUnflagged 1000 3000 (-1));
    first [reflexivity | by vm_compute].
Defined.

End SampleRuns.

(** * Further properties of the session, the registry and the handlers *)

Section AnyCaseFurther.

Context {folding : CaseFolding}.

(** ** Joining and leaving *)

(** X1. [addPlayer] refuses with "Game has already started" exactly when
    the status is not [waiting], and with "Username already taken" exactly
    when the game is waiting and a player on the roster has the same name up
    to case. Otherwise it returns the new player, with score 0 and no
    answer, stored under the socket; nothing else of the session changes. *)
Theorem addPlayer_outcomes (s : GameSession) (socketId name : string) :
  (addPlayer s socketId name = Throw "Game has already started" ↔
     status s ≠ WAITING) ∧
  (addPlayer s socketId name = Throw "Username already taken" ↔
     status s = WAITING ∧
     ∃ q, q ∈ JsMap.values (players s) ∧
          toLowerCase (username q) = toLowerCase name) ∧
  (∀ s' p, addPlayer s socketId name = Ret (s', p) ↔
     status s = WAITING ∧
     (∀ q, q ∈ JsMap.values (players s) →
           toLowerCase (username q) ≠ toLowerCase name) ∧
     p = mkPlayer socketId name 0 None None ∧
     s' = set_players (JsMap.set socketId p) s).
Proof.
  unfold addPlayer.
  destruct (decide (status s ≠ WAITING)) as [Hst|Hst].
  { split; [done|]. split; [split; [done | by intros [? _]]|].
    intros s' p. split; [done | by intros [? _]]. }
  apply dec_stable in Hst.
  destruct (existsb _ _) eqn:Hex.
  - apply existsb_exists in Hex as (q & Hin & Hq).
    apply list_elem_of_In in Hin. apply bool_decide_eq_true in Hq.
    split; [split; [done | intros H; by destruct H]|].
    split; [split; [intros _; split; [done | by exists q] | done]|].
    intros s' p. split; [done|]. intros (_ & Hno & _). by destruct (Hno q Hin).
  - split; [split; [done | intros H; by destruct H]|].
    split.
    + split; [done|]. intros (_ & q & Hin & Hq).
      assert (existsb (λ p, bool_decide (toLowerCase (username p) = toLowerCase name))
                (JsMap.values (players s)) = true) as Hyes; [|congruence].
      apply existsb_exists. exists q.
      split; [by apply list_elem_of_In | by apply bool_decide_eq_true].
    + intros s' p. split.
      * intros [= <- <-]. repeat split; try done. intros q Hin Hq.
        assert (existsb (λ p, bool_decide (toLowerCase (username p) = toLowerCase name))
                  (JsMap.values (players s)) = true) as Hyes; [|congruence].
        apply existsb_exists. exists q.
        split; [by apply list_elem_of_In | by apply bool_decide_eq_true].
      * by intros (_ & _ & -> & ->).
Qed.

Lemma delete_absent {V} k (m : JsMap.t V) : k ∉ JsMap.keys m → JsMap.delete k m = m.
Proof.
  unfold JsMap.keys. induction m as [|[k' v'] m IH]; simpl; [done|].
  rewrite not_elem_of_cons. intros [Hne Hnotin].
  rewrite decide_False by done. by rewrite IH.
Qed.

Lemma delete_set_absent {V} k (v : V) (m : JsMap.t V) :
  k ∉ JsMap.keys m → JsMap.delete k (JsMap.set k v m) = m.
Proof.
  unfold JsMap.keys. induction m as [|[k' v'] m IH]; simpl.
  - intros _. by rewrite decide_True.
  - rewrite not_elem_of_cons. intros [Hne Hnotin].
    rewrite decide_False by done. simpl. rewrite decide_False by done.
    by rewrite IH.
Qed.

Lemma has_false_keys {V} k (m : JsMap.t V) :
  JsMap.has k m = false ↔ k ∉ JsMap.keys m.
Proof.
  unfold JsMap.has. rewrite <- get_None_keys.
  destruct (JsMap.get k m); split; done.
Qed.

(** X4. Leaving undoes joining: for a socket that is not on the roster,
    [removePlayer] after a successful [addPlayer] gives back the session as
    it was, and [removePlayer] alone changes nothing. *)
Theorem removePlayer_undoes_addPlayer (s : GameSession) (socketId name : string) :
  JsMap.has socketId (players s) = false →
  removePlayer s socketId = s ∧
  ∀ s' p, addPlayer s socketId name = Ret (s', p) → removePlayer s' socketId = s.
Proof.
  intros Hfresh. apply has_false_keys in Hfresh. split.
  - unfold removePlayer, set_players. rewrite delete_absent by done. by destruct s.
  - intros s' p Hadd. apply addPlayer_Ret in Hadd as (_ & _ & ->).
    unfold removePlayer, set_players. simpl. rewrite delete_set_absent by done.
    by destruct s.
Qed.

(** ** Opening and closing a question *)

(** X5. When [startNextQuestion] opens a question, the status is
    [question], the start time is the current time, the outcomes of the
    previous question are dropped, and every player is back to "no answer"
    with the score, the name and the socket kept: [allPlayersAnswered] is
    then false unless the roster is empty. The payload carries the new
    index, the number of questions, the time budget, and the text and the
    options (id and text, in order) of the question at that index. *)
Theorem startNextQuestion_opens (s : GameSession) (now : Z) (d : QuestionData) :
  (startNextQuestion s now).2 = Ret (Some d) →
  let s' := (startNextQuestion s now).1 in
  status s' = QUESTION ∧
  questionStartTime s' = Some now ∧
  questionResults s' = [] ∧
  players s' = JsMap.update_all (set_answer None None) (players s) ∧
  (∀ k, JsMap.get k (players s')
        = (λ p, mkPlayer (p_id p) (username p) (score p) None None)
            <$> JsMap.get k (players s)) ∧
  allPlayersAnswered s' = bool_decide (players s = []) ∧
  ∃ q, js_index (questions s) (currentQuestionIndex s + 1) = Some q ∧
       d = {| qd_questionIndex := currentQuestionIndex s + 1;
              qd_totalQuestions := totalQuestions s;
              qd_questionText := qw_question_text q;
              qd_options := (λ o, (opt_id o, option_text o)) <$> qw_options q;
              qd_timerSeconds := timerSeconds s |}.
Proof.
  unfold startNextQuestion. simpl.
  destruct (decide (_ >= _)); simpl; [done|].
  destruct (js_index (questions s) (currentQuestionIndex s + 1)) as [q|] eqn:Hq;
    simpl; [|done].
  intros [= <-]. repeat split.
  - intros k. by rewrite get_update_all.
  - unfold allPlayersAnswered. simpl. destruct (players s) as [|[k p] ps]; done.
  - by exists q.
Qed.

Lemma js_index_None {A} (l : list A) (i : Z) :
  js_index l i = None ↔ i < 0 ∨ Z.of_nat (length l) ≤ i.
Proof.
  unfold js_index. destruct (decide (0 ≤ i)) as [Hi|Hi].
  - rewrite lookup_ge_None. lia.
  - split; [lia | done].
Qed.

(** X7. [endQuestion] throws exactly when there is no question at the
    current index (the index is negative, or at or past the number of
    questions). It has then already set the status to [reveal] and dropped
    the recorded deadline, and it has touched neither the players nor the
    recorded outcomes. *)
Theorem endQuestion_throws_iff (calculateScore : Q → Z → Z) (tm : Timeouts)
    (s : GameSession) :
  ((∃ msg, (endQuestion calculateScore tm s).2 = Throw msg) ↔
     currentQuestionIndex s < 0 ∨
     Z.of_nat (length (questions s)) ≤ currentQuestionIndex s) ∧
  (∀ msg, (endQuestion calculateScore tm s).2 = Throw msg →
     (endQuestion calculateScore tm s).1.2
     = set_questionTimer None (set_status REVEAL s)).
Proof.
  rewrite <- js_index_None.
  destruct (js_index (questions s) (currentQuestionIndex s)) as [q|] eqn:Hq.
  - rewrite (endQuestion_defined calculateScore tm s q Hq). simpl.
    split; [split; [by intros [? ?] | done] | done].
  - unfold endQuestion. simpl.
    destruct (questionTimer s) eqn:Ht; simpl; rewrite Hq; simpl.
    + split; [split; [done | by eexists] | done].
    + split; [split; [done | by eexists]|]. intros _ _.
      unfold set_questionTimer, set_status. simpl. by rewrite Ht.
Qed.

Lemma endQuestion_loop_results_other cs s cid ps results k :
  k ∉ (λ kp, p_id kp.2) <$> ps →
  JsMap.get k (endQuestion_loop cs s cid ps results).1.2 = JsMap.get k results.
Proof.
  revert results. induction ps as [|[k0 p] ps IH]; intros results; [done|].
  rewrite fmap_cons, not_elem_of_cons. simpl. intros [Hne Hnotin].
  specialize (IH (JsMap.set (p_id p)
    (bool_decide (currentAnswer p = Some cid), (answerOutcome cs s cid p).2) results)
    Hnotin).
  unfold answerOutcome in *. simpl in *.
  destruct (endQuestion_loop _ _ _ _ _) as [[ps' results'] out]. simpl in *.
  rewrite IH. by apply get_set_ne.
Qed.

Lemma endQuestion_loop_results cs s cid ps results k p :
  NoDup ((λ kp, p_id kp.2) <$> ps) →
  (k, p) ∈ ps →
  JsMap.get (p_id p) (endQuestion_loop cs s cid ps results).1.2
  = Some (answerOutcome cs s cid p).
Proof.
  revert results. induction ps as [|[k0 p0] ps IH]; intros results Hnd Hin.
  { by apply elem_of_nil in Hin. }
  rewrite fmap_cons in Hnd. apply NoDup_cons in Hnd as [Hnotin Hnd].
  apply elem_of_cons in Hin as [[= -> ->]|Hin].
  - pose proof (endQuestion_loop_results_other cs s cid ps
      (JsMap.set (p_id p0)
         (bool_decide (currentAnswer p0 = Some cid), (answerOutcome cs s cid p0).2)
         results) (p_id p0) Hnotin) as Hother.
    simpl. unfold answerOutcome in *. simpl in *.
    destruct (endQuestion_loop _ _ _ _ _) as [[ps' results'] out]. simpl in *.
    rewrite Hother. apply get_set_eq.
  - specialize (IH (JsMap.set (p_id p0)
      (bool_decide (currentAnswer p0 = Some cid), (answerOutcome cs s cid p0).2)
      results) Hnd Hin).
    simpl. unfold answerOutcome in *. simpl in *.
    by destruct (endQuestion_loop _ _ _ _ _) as [[ps' results'] out].
Qed.

(** X6. On a session with a question at the current index, [endQuestion]
    reports one result per player, in roster order: the player's name,
    whether the recorded answer is the correct option, and the points; the
    points are 0 for an answer that is not correct, and they are exactly
    what is added to that player's score. When the players have distinct
    ids, the outcome recorded for the leaderboard under a player's id is the
    reported one. *)
Theorem endQuestion_results_match_scores (calculateScore : Q → Z → Z)
    (tm : Timeouts) (s : GameSession) (q : QuestionWithOptions) :
  js_index (questions s) (currentQuestionIndex s) = Some q →
  ∃ out,
    (endQuestion calculateScore tm s).2
    = Ret {| correctOptionId := correctOptionIdOf q; playerResults := out |} ∧
    length out = length (players s) ∧
    length (players (endQuestion calculateScore tm s).1.2) = length (players s) ∧
    (∀ i k p, players s !! i = Some (k, p) →
       ∃ correct points,
         out !! i = Some (username p, correct, points) ∧
         players (endQuestion calculateScore tm s).1.2 !! i
         = Some (k, set_score (score p + points) p) ∧
         (correct = true ↔ currentAnswer p = Some (correctOptionIdOf q)) ∧
         (correct = false → points = 0) ∧
         (NoDup ((λ kp, p_id kp.2) <$> players s) →
          JsMap.get (p_id p) (questionResults (endQuestion calculateScore tm s).1.2)
          = Some (correct, points))).
Proof.
  intros Hq. rewrite (endQuestion_defined calculateScore tm s q Hq).
  cbn [fst snd players questionResults set_questionResults set_players].
  eexists. split; [reflexivity|].
  split; [by rewrite length_fmap|].
  split; [unfold JsMap.update_all; by rewrite length_fmap|].
  intros i k p Hi. unfold JsMap.t in *.
  exists (answerOutcome calculateScore s (correctOptionIdOf q) p).1,
         (answerOutcome calculateScore s (correctOptionIdOf q) p).2.
  split; [by rewrite list_lookup_fmap, Hi|].
  split; [unfold JsMap.update_all; by rewrite list_lookup_fmap, Hi|].
  split; [unfold answerOutcome; simpl; by rewrite bool_decide_eq_true|].
  split.
  - unfold answerOutcome. simpl. intros ->.
    by destruct (questionStartTime s), (answerTimestamp p).
  - intros Hnd.
    assert (Hloop : ∀ ps results,
      (endQuestion_loop calculateScore
         (set_questionTimer None (set_status REVEAL s)) (correctOptionIdOf q)
         ps results).1.2
      = (endQuestion_loop calculateScore s (correctOptionIdOf q) ps results).1.2).
    { intros ps. induction ps as [|[k0 p0] ps IH]; intros results; [done|].
      cbn [endQuestion_loop].
      rewrite (answerOutcome_ext calculateScore s
                 (set_questionTimer None (set_status REVEAL s)) _ p0 p0) by done.
      destruct (answerOutcome _ _ _ _) as [c pts].
      specialize (IH (JsMap.set (p_id p0) (c, pts) results)).
      do 2 destruct (endQuestion_loop _ _ _ _ _) as [[? ?] ?]. simpl in *.
      done. }
    rewrite Hloop.
    rewrite (endQuestion_loop_results calculateScore s _ (players s) _ k p Hnd).
    + by destruct (answerOutcome _ _ _ _).
    + by eapply list_elem_of_lookup_2.
Qed.

(** ** What the events keep of a session *)

Lemma same_snapshot_refl s : same_snapshot s s.
Proof. by repeat split. Qed.

Lemma closeSession_frame cs tm s :
  same_snapshot s (closeSession cs tm s) ∧
  currentQuestionIndex (closeSession cs tm s) = currentQuestionIndex s ∧
  status (closeSession cs tm s) ≠ WAITING.
Proof.
  unfold closeSession, endQuestion. simpl.
  destruct (questionTimer s); simpl;
    destruct (js_index _ _); simpl; try (by repeat split);
    destruct (endQuestion_loop _ _ _ _ _) as [[? ?] ?]; by repeat split.
Qed.

Lemma startNextQuestion_frame s now :
  same_snapshot s (startNextQuestion s now).1 ∧
  currentQuestionIndex (startNextQuestion s now).1 = currentQuestionIndex s + 1 ∧
  (status (startNextQuestion s now).1 = WAITING → status s = WAITING).
Proof.
  unfold startNextQuestion. simpl.
  destruct (decide (_ >= _)); simpl; [by repeat split|].
  destruct (js_index _ _); simpl; by repeat split.
Qed.

Lemma torn_down_frame s s' :
  torn_down s s' →
  same_snapshot s s' ∧ currentQuestionIndex s' = currentQuestionIndex s ∧
  (status s' = WAITING → status s = WAITING).
Proof.
  intros [->|[[tm ->]|[tm ->]]]; [by repeat split| |].
  - destruct (cleanup_session tm s) as [->| ->]; by repeat split.
  - destruct (cleanup_session tm (set_status FINISHED s)) as [->| ->];
      by repeat split.
Qed.

Lemma obj_step_frame cs e s s' :
  obj_step cs e s s' →
  same_snapshot s s' ∧
  currentQuestionIndex s ≤ currentQuestionIndex s' ≤ currentQuestionIndex s + 1 ∧
  (status s' = WAITING → status s = WAITING).
Proof.
  assert (Hopen : ∀ now, opened now s s' →
    same_snapshot s s' ∧
    currentQuestionIndex s ≤ currentQuestionIndex s' ≤ currentQuestionIndex s + 1 ∧
    (status s' = WAITING → status s = WAITING)).
  { intros now H. pose proof (startNextQuestion_frame s now) as (Hsnap & Hidx & Hst).
    destruct H as [->|[h ->]]; (split; [exact Hsnap|]); simpl; split; (lia || done). }
  assert (Hdown : torn_down s s' →
    same_snapshot s s' ∧
    currentQuestionIndex s ≤ currentQuestionIndex s' ≤ currentQuestionIndex s + 1 ∧
    (status s' = WAITING → status s = WAITING)).
  { intros H. apply torn_down_frame in H as (? & -> & ?). split; [done|].
    split; [lia | done]. }
  assert (Hclose : ∀ tm s1,
    same_snapshot s s1 → currentQuestionIndex s1 = currentQuestionIndex s →
    same_snapshot s (closeSession cs tm s1) ∧
    currentQuestionIndex s ≤ currentQuestionIndex (closeSession cs tm s1)
      ≤ currentQuestionIndex s + 1 ∧
    (status (closeSession cs tm s1) = WAITING → status s = WAITING)).
  { intros tm s1 Hsnap Hidx.
    pose proof (closeSession_frame cs tm s1) as (Hsnap1 & Hidx1 & Hst1).
    split; [|split; [lia | done]].
    unfold same_snapshot in *. destruct_and!. repeat split; congruence. }
  intros [->|H].
  { split; [apply same_snapshot_refl|]. split; [lia | done]. }
  destruct e; try done; eauto.
  - destruct H as [p H]. apply addPlayer_Ret in H as (_ & _ & ->).
    split; [by repeat split|]. simpl. split; [lia | done].
  - destruct H as [Hacc H].
    apply submitAnswer_shape in Hacc as (p & _ & _ & _ & Hs1).
    destruct H as [[_ ->]|[_ [tm ->]]].
    + rewrite Hs1. split; [by repeat split|]. simpl. split; [lia | done].
    + apply Hclose; by rewrite Hs1.
  - destruct H as [H|H]; eauto.
  - destruct H as [H| ->]; [eauto|].
    split; [by repeat split|]. simpl. split; [lia | done].
  - destruct H as [tm ->]. apply Hclose; [apply same_snapshot_refl | done].
Qed.

(** X9. No event changes what the constructor loaded into a session: the
    game code, the quiz, the admin socket, the questions, their number and
    the time budget stay as they are, and the question index moves by at
    most one step forward. In every state the server can reach the number
    of questions is the length of the question list and is positive, and the
    index is at least -1. *)
Theorem quiz_snapshot_is_kept (calculateScore : Q → Z → Z) (db : Db) :
  (∀ srv e r s s',
     objects srv !! r = Some s →
     objects (step calculateScore db srv e).1 !! r = Some s' →
     same_snapshot s s' ∧
     currentQuestionIndex s ≤ currentQuestionIndex s' ≤ currentQuestionIndex s + 1) ∧
  (∀ trace r s,
     objects (run calculateScore db emptyServer trace) !! r = Some s →
     snapshot_ok s).
Proof.
  split.
  - intros srv e r s s' Hs Hs'.
    destruct (step_obj calculateScore db srv e r s Hs) as (s'' & Hs'' & Hstep).
    replace s'' with s' in * by congruence.
    apply obj_step_frame in Hstep as (? & ? & _). by split.
  - intros trace. apply (run_objects_inv calculateScore db snapshot_ok).
    + intros e s s' Hstep (Htot & Hpos & Hidx).
      apply obj_step_frame in Hstep as ((_ & _ & _ & _ & Hq & Ht & _) & Hi & _).
      unfold snapshot_ok. rewrite Hq, Ht. repeat split; [done | done | lia].
    + intros quiz admin code s Hc.
      apply constructor_Ret in Hc as (_ & _ & _ & _ & _ & Hidx & Htot & Hpos).
      unfold snapshot_ok. rewrite Hidx. repeat split; [done | done | lia].
    + intros r s H. simpl in H. by rewrite lookup_nil in H.
Qed.

(** X8. A game that has left [waiting] never waits again: whatever the
    event, its status stays different from [waiting], and every [join_game]
    that names it is refused with "Game has already started" and leaves the
    server as it was. *)
Theorem started_game_takes_no_players (calculateScore : Q → Z → Z) (db : Db)
    (srv : Server) (r : nat) (s : GameSession) :
  objects srv !! r = Some s →
  status s ≠ WAITING →
  (∀ e, ∃ s', objects (step calculateScore db srv e).1 !! r = Some s' ∧
              status s' ≠ WAITING) ∧
  (∀ socket code name,
     getGame srv (toUpperCase code) = Some (r, s) →
     step calculateScore db srv (join_game socket code name)
     = (srv, [ToSocket socket (error_msg "Game has already started")])).
Proof.
  intros Hs Hst. split.
  - intros e. destruct (step_obj calculateScore db srv e r s Hs) as (s' & Hs' & Hstep).
    exists s'. split; [done|]. apply obj_step_frame in Hstep as (_ & _ & Hw). auto.
  - intros socket code name Hg. simpl. unfold on_join_game. rewrite Hg.
    unfold addPlayer. by rewrite decide_True.
Qed.

(** ** Who is on the roster *)

Lemma identities_update_all (f : Player → Player) ps :
  (∀ p, p_id (f p) = p_id p ∧ username (f p) = username p) →
  identities (JsMap.update_all f ps) = identities ps.
Proof.
  intros Hf. unfold identities, JsMap.update_all. rewrite <- list_fmap_compose.
  apply list_fmap_ext. intros i [k p] _. simpl. by destruct (Hf p) as [-> ->].
Qed.

Lemma identities_set_existing k p p' ps :
  JsMap.get k ps = Some p → p_id p' = p_id p → username p' = username p →
  identities (JsMap.set k p' ps) = identities ps.
Proof.
  intros Hget Hid Hname. unfold identities.
  induction ps as [|[k0 p0] ps IH]; simpl in *; [done|].
  destruct (decide (k0 = k)) as [->|Hne]; simpl.
  - injection Hget as ->. by rewrite Hid, Hname.
  - f_equal. by apply IH.
Qed.

Lemma roster_ok_identities s s' :
  identities (players s') = identities (players s) → roster_ok s → roster_ok s'.
Proof.
  intros Hid [Hnd Hkey]. split.
  - assert (Hn : ∀ x, rosterNames x = (λ i, toLowerCase i.2) <$> identities (players x)).
    { intros x. unfold rosterNames, identities, JsMap.values.
      rewrite <- !list_fmap_compose. by apply list_fmap_ext. }
    rewrite Hn, Hid, <- Hn. done.
  - assert (Hk : ∀ x, (∀ k p, (k, p) ∈ players x → p_id p = k) ↔
                      ∀ i, i ∈ identities (players x) → i.1.2 = i.1.1).
    { intros x. unfold identities. split.
      - intros H i Hin. apply list_elem_of_fmap in Hin as [[k p] [-> Hin]]. simpl. eauto.
      - intros H k p Hin. apply (H (k, p_id p, username p)).
        apply list_elem_of_fmap. by exists (k, p). }
    apply Hk. rewrite Hid. by apply Hk.
Qed.

Lemma obj_step_identities cs e s s' :
  obj_step cs e s s' →
  identities (players s') = identities (players s)
  ∨ (∃ socket name p, addPlayer s socket name = Ret (s', p))
  ∨ (∃ socket, s' = removePlayer s socket).
Proof.
  assert (Hopen : ∀ now, opened now s s' →
            identities (players s') = identities (players s)).
  { intros now H. apply opened_shape in H as (_ & _ & [[_ ->]|[_ ->]]); [done|].
    by apply identities_update_all. }
  assert (Hdown : torn_down s s' → identities (players s') = identities (players s)).
  { intros H. by apply torn_down_shape in H as (_ & _ & -> & _). }
  assert (Hclose : ∀ tm s1,
            identities (players (closeSession cs tm s1)) = identities (players s1)).
  { intros tm s1.
    pose proof (closeSession_shape cs tm s1)
      as (_ & _ & _ & [[_ ->]|[_ (q & _ & ->)]]); [done|].
    by apply identities_update_all. }
  intros [->|H]; [by left|]. destruct e; try done.
  - destruct H as [p H]. right. left. by eexists _, _, _.
  - left. eauto.
  - left. destruct H as [Hacc H].
    apply submitAnswer_shape in Hacc as (p & Hp & _ & _ & Hs1).
    assert (Hid1 : identities (players (submitAnswer s socket optionId now).1)
                   = identities (players s)).
    { rewrite Hs1. by eapply identities_set_existing. }
    destruct H as [[_ ->]|[_ [tm ->]]]; [done|]. by rewrite Hclose.
  - left. destruct H as [H|H]; eauto.
  - left. eauto.
  - destruct H as [H| ->]; [left; eauto|]. right. right. by eexists.
  - left. destruct H as [tm ->]. apply Hclose.
Qed.

Lemma addPlayer_fresh_name s socketId name s' p :
  addPlayer s socketId name = Ret (s', p) →
  toLowerCase name ∉ rosterNames s.
Proof.
  unfold addPlayer. destruct (decide _); [done|].
  destruct (existsb _ _) eqn:Hex; [done|]. intros _ Hin.
  apply list_elem_of_fmap in Hin as [q [Hq Hin]].
  assert (existsb (λ p, bool_decide (toLowerCase (username p) = toLowerCase name))
            (JsMap.values (players s)) = true) as Hyes; [|congruence].
  apply existsb_exists. exists q.
  split; [by apply list_elem_of_In | by apply bool_decide_eq_true].
Qed.

Lemma names_set (name : Player → string) k p (ps : JsMap.t Player) :
  NoDup (name <$> JsMap.values ps) →
  name p ∉ name <$> JsMap.values ps →
  NoDup (name <$> JsMap.values (JsMap.set k p ps)).
Proof.
  unfold JsMap.values. induction ps as [|[k0 p0] ps IH]; simpl.
  - intros _ _. apply NoDup_singleton.
  - rewrite NoDup_cons, not_elem_of_cons. intros [Hnotin Hnd] [Hne Hp].
    destruct (decide (k0 = k)) as [->|Hk]; simpl; apply NoDup_cons.
    + done.
    + split; [|by apply IH]. intros Hin.
      apply list_elem_of_fmap in Hin as [q [Hq Hin]].
      apply list_elem_of_fmap in Hin as [[k1 q1] [-> Hin]]. simpl in Hq.
      apply elem_set in Hin as [[= _ ->]|Hin]; [congruence|].
      apply Hnotin. rewrite Hq. apply list_elem_of_fmap. exists q1.
      split; [done|]. apply list_elem_of_fmap. by exists (k1, q1).
Qed.

Lemma names_delete (name : Player → string) k (ps : JsMap.t Player) :
  NoDup (name <$> JsMap.values ps) →
  NoDup (name <$> JsMap.values (JsMap.delete k ps)).
Proof.
  unfold JsMap.values. induction ps as [|[k0 p0] ps IH]; simpl; [done|].
  rewrite NoDup_cons. intros [Hnotin Hnd].
  destruct (decide (k0 = k)) as [->|Hk]; simpl; [done|].
  apply NoDup_cons. split; [|by apply IH]. intros Hin. apply Hnotin.
  apply list_elem_of_fmap in Hin as [q [Hq Hin]].
  apply list_elem_of_fmap in Hin as [[k1 q1] [-> Hin]]. simpl in Hq.
  apply elem_delete in Hin. rewrite Hq. apply list_elem_of_fmap. exists q1.
  split; [done|]. apply list_elem_of_fmap. by exists (k1, q1).
Qed.

Lemma obj_step_roster_ok cs e s s' : obj_step cs e s s' → roster_ok s → roster_ok s'.
Proof.
  intros Hstep Hok.
  destruct (obj_step_identities cs e s s' Hstep)
    as [Hid|[(socket & name & p & Hadd)|[socket ->]]].
  - by eapply roster_ok_identities.
  - pose proof (addPlayer_fresh_name _ _ _ _ _ Hadd) as Hfresh.
    apply addPlayer_Ret in Hadd as (_ & -> & ->). destruct Hok as [Hnd Hkey].
    split.
    + by apply (names_set (λ p, toLowerCase (username p))).
    + intros k p Hin. simpl in Hin.
      apply elem_set in Hin as [[= -> ->]|Hin]; [done | by apply Hkey].
  - destruct Hok as [Hnd Hkey]. split.
    + by apply (names_delete (λ p, toLowerCase (username p))).
    + intros k p Hin. simpl in Hin. apply elem_delete in Hin. by apply Hkey.
Qed.

(** X2. In every state the server can reach, no two players of a game
    have the same name up to case, and the [id] of every player is the
    socket it is stored under (so the outcomes that [endQuestion] records
    by player id are found under the player's socket). *)
Theorem roster_names_are_distinct (calculateScore : Q → Z → Z) (db : Db)
    (trace : list Event) (r : nat) (s : GameSession) :
  objects (run calculateScore db emptyServer trace) !! r = Some s →
  NoDup (rosterNames s) ∧
  NoDup (JsMap.keys (players s)) ∧
  (∀ k p, JsMap.get k (players s) = Some p → p_id p = k) ∧
  NoDup ((λ kp, p_id kp.2) <$> players s).
Proof.
  intros Hs.
  assert (Hok : roster_ok s).
  { revert r s Hs. apply (run_objects_inv calculateScore db roster_ok).
    - intros e s0 s'. apply obj_step_roster_ok.
    - intros quiz admin code s0 Hc. apply constructor_Ret in Hc as (_ & _ & Hp & _).
      unfold roster_ok, rosterNames. rewrite Hp. split; [apply NoDup_nil_2|].
      intros k p Hin. by apply elem_of_nil in Hin.
    - intros r0 s0 H. simpl in H. by rewrite lookup_nil in H. }
  pose proof (roster_keys_run calculateScore db trace r s Hs) as Hkeys.
  destruct Hok as [Hnd Hkey]. repeat split; try done.
  - intros k p Hget. apply Hkey. by apply get_Some_elem.
  - replace ((λ kp, p_id kp.2) <$> players s) with (JsMap.keys (players s)); [done|].
    unfold JsMap.keys. apply list_fmap_ext. intros i [k p] Hi. simpl.
    symmetry. apply Hkey. by eapply list_elem_of_lookup_2.
Qed.

(** ** The registry *)

Lemma find_None_intro {A} (f : A → bool) (l : list A) :
  (∀ x, x ∈ l → f x = false) → find f l = None.
Proof.
  induction l as [|x l IH]; simpl; [done|]. intros H.
  rewrite (H x) by left. apply IH. intros y Hy. apply H. by right.
Qed.

Lemma find_Some_intro {A} (f : A → bool) (l : list A) x :
  x ∈ l → f x = true → ∃ y, find f l = Some y.
Proof.
  intros Hin Hx. destruct (find f l) as [y|] eqn:Hf; [by eexists|].
  by rewrite (find_None_elem f l x Hf Hin) in Hx.
Qed.

Lemma registered_getGame srv r s :
  registry_ok srv → (r, s) ∈ sessions srv → getGame srv (gameCode s) = Some (r, s).
Proof.
  intros [Hkeys Hcode _] Hin. apply sessions_elem in Hin as [Hin Hs].
  apply values_elem in Hin as [c Hin].
  destruct (Hcode c r Hin) as (g & Hg & Hgc).
  replace g with s in * by congruence.
  apply getGame_Some. split; [|done]. apply get_elem; [done | by rewrite Hgc].
Qed.

Lemma getGame_sessions srv code r g :
  getGame srv code = Some (r, g) → (r, g) ∈ sessions srv.
Proof.
  intros H. apply getGame_Some in H as [Hc Hg]. apply sessions_elem.
  split; [|done]. apply values_elem. exists code. by apply get_Some_elem.
Qed.

(** X10. In every state the server can reach the three lookups agree. A
    session found under a code carries that code and is the one found for
    its admin socket. A session found for a player socket has the socket on
    its roster and is registered under its own code; and a socket that is on
    the roster of a registered session is found by the player lookup. *)
Theorem registry_lookups_agree (calculateScore : Q → Z → Z) (db : Db)
    (trace : list Event) :
  let srv := run calculateScore db emptyServer trace in
  (∀ code r g, getGame srv code = Some (r, g) →
     gameCode g = code ∧
     getGameByAdminSocket srv (adminSocketId g) = Some (r, g)) ∧
  (∀ socket r g, getGameByPlayerSocket srv socket = Some (r, g) →
     JsMap.has socket (players g) = true ∧
     getGame srv (gameCode g) = Some (r, g)) ∧
  (∀ socket code r g,
     getGame srv code = Some (r, g) → JsMap.has socket (players g) = true →
     ∃ r' g', getGameByPlayerSocket srv socket = Some (r', g')).
Proof.
  simpl. set (srv := run calculateScore db emptyServer trace).
  assert (Hok : registry_ok srv) by apply registry_ok_run, registry_ok_empty.
  split; [|split].
  - intros code r g Hg. pose proof (getGame_sessions srv code r g Hg) as Hin.
    pose proof (registered_getGame srv r g Hok Hin) as Hg'.
    assert (Hcode : gameCode g = code).
    { apply getGame_Some in Hg as [Hc Hr].
      destruct (reg_code srv Hok code r (get_Some_elem _ _ _ Hc)) as (g0 & Hg0 & <-).
      congruence. }
    split; [done|].
    destruct (find_Some_intro (λ rg, bool_decide (adminSocketId rg.2 = adminSocketId g))
                (sessions srv) (r, g) Hin) as [[r' g'] Hfind].
    { by apply bool_decide_eq_true. }
    unfold getGameByAdminSocket. rewrite Hfind. f_equal.
    pose proof (getGameByAdminSocket_Some srv _ r' g' Hfind) as (_ & Hg1 & Hadm).
    pose proof (getGame_of_admin srv _ r' g' Hok Hfind) as Hgg.
    apply getGame_Some in Hgg as [Hc' _]. apply getGame_Some in Hg' as [Hc Hr].
    assert (gameCode g' = gameCode g) as Heq.
    { eapply (reg_admin srv Hok _ _ r' r g' g); eauto using get_Some_elem. }
    rewrite Heq in Hc'. congruence.
  - intros socket r g Hp.
    pose proof (getGameByPlayerSocket_Some srv socket r g Hp) as (Hin & Hg & Hhas).
    split; [done|]. apply registered_getGame; [done|]. by apply sessions_elem.
  - intros socket code r g Hg Hhas.
    destruct (find_Some_intro (λ rg, JsMap.has socket (players rg.2))
                (sessions srv) (r, g)) as [[r' g'] Hfind];
      [by eapply getGame_sessions | done | by exists r', g'].
Qed.

Lemma finished_lookups srv socket r s :
  registry_ok srv →
  getGameByAdminSocket srv socket = Some (r, s) →
  let srv' := (finishGame srv r s).1 in
  getGame srv' (gameCode s) = None ∧
  (∀ r' g', (r', g') ∈ sessions srv' →
     r' ≠ r ∧ (r', g') ∈ sessions srv ∧ adminSocketId g' ≠ socket) ∧
  (∀ code, code ≠ gameCode s →
     JsMap.get code (activeGames srv') = JsMap.get code (activeGames srv)) ∧
  objects srv' !! r = Some ((cleanup (timeouts srv) (set_status FINISHED s)).2).
Proof.
  intros Hok Hadm. cbv zeta. rewrite (finishGame_server srv socket r s Hok Hadm).
  pose proof (getGame_of_admin srv socket r s Hok Hadm) as Hg.
  apply getGame_Some in Hg as [Hc Hs].
  pose proof (getGameByAdminSocket_Some srv socket r s Hadm) as (_ & _ & Hsock).
  destruct Hok as [Hkeys Hcode Hadmin].
  split; [|split; [|split]].
  - unfold getGame. simpl. by rewrite get_delete_eq.
  - intros r' g' Hin. apply sessions_elem in Hin as [Hin Hg']. simpl in Hin, Hg'.
    apply values_elem in Hin as [c Hin].
    pose proof (elem_delete_ne _ _ _ _ Hkeys Hin) as Hne.
    apply elem_delete in Hin.
    destruct (Hcode c r' Hin) as (g0 & Hg0 & Hgc).
    assert (Hr : r' ≠ r).
    { intros ->. replace g0 with s in * by congruence. congruence. }
    rewrite list_lookup_insert_ne in Hg' by done.
    replace g0 with g' in * by congruence.
    split; [done|]. split.
    + apply sessions_elem. split; [|done]. apply values_elem. by exists c.
    + intros Hsame. apply Hne.
      eapply (Hadmin c (gameCode s) r' r g' s); eauto using get_Some_elem.
      congruence.
  - intros code Hne. simpl. by apply get_delete_ne.
  - simpl. apply list_lookup_insert_eq. by eapply lookup_lt_Some.
Qed.

(** X11. In every state the server can reach, the events that end the game
    of an admin ([end_game], the admin's [disconnect], [next_question] on the
    last question) broadcast [game_end] to the game's room and take the game
    out of the registry: it is no longer found under its code, for its admin
    or for any player socket, its status is [finished], and the entries of
    the other codes are kept. *)
Theorem ended_game_leaves_registry (calculateScore : Q → Z → Z) (db : Db)
    (trace : list Event) (socket : string) (r : nat) (s : GameSession) (e : Event) :
  getGameByAdminSocket (run calculateScore db emptyServer trace) socket = Some (r, s) →
  ends_game socket s e →
  let srv := run calculateScore db emptyServer trace in
  let srv' := (step calculateScore db srv e).1 in
  (step calculateScore db srv e).2 = [ToRoom (gameCode s) game_end] ∧
  getGame srv' (gameCode s) = None ∧
  getGameByAdminSocket srv' socket = None ∧
  (∀ socket' r' g', getGameByPlayerSocket srv' socket' = Some (r', g') → r' ≠ r) ∧
  (∀ code, code ≠ gameCode s →
     JsMap.get code (activeGames srv') = JsMap.get code (activeGames srv)) ∧
  status <$> objects srv' !! r = Some FINISHED.
Proof.
  intros Hadm Hends. simpl. set (srv := run calculateScore db emptyServer trace) in *.
  assert (Hok : registry_ok srv) by apply registry_ok_run, registry_ok_empty.
  assert (Hstep : step calculateScore db srv e = finishGame srv r s).
  { destruct Hends as [->|[->|(now & -> & Hlast)]]; simpl.
    - unfold on_end_game. by rewrite Hadm.
    - unfold on_disconnect. by rewrite Hadm.
    - unfold on_next_question. by rewrite Hadm, Hlast. }
  rewrite Hstep.
  destruct (finished_lookups srv socket r s Hok Hadm) as (Hcode & Hsess & Hother & Hobj).
  split; [done|]. split; [done|]. split; [|split; [|split; [done|]]].
  - apply find_None_intro. intros [r' g'] Hin.
    destruct (Hsess r' g' Hin) as (_ & _ & Hne). by apply bool_decide_eq_false.
  - intros socket' r' g' Hp. apply find_Some_elem in Hp as [Hin _].
    by destruct (Hsess r' g' Hin).
  - rewrite Hobj. simpl. by destruct (cleanup_session (timeouts srv) (set_status FINISHED s))
      as [->| ->].
Qed.

Lemma size_set {V} k (v : V) (m : JsMap.t V) :
  JsMap.size (JsMap.set k v m)
  = if JsMap.has k m then JsMap.size m else JsMap.size m + 1.
Proof.
  unfold JsMap.size, JsMap.has. induction m as [|[k' v'] m IH]; simpl; [done|].
  destruct (decide (k' = k)) as [->|Hne]; simpl; [done|].
  destruct (JsMap.get k m); lia.
Qed.

Lemma length_delete {V} k (v : V) (m : JsMap.t V) :
  JsMap.get k m = Some v → JsMap.size (JsMap.delete k m) = JsMap.size m - 1.
Proof.
  unfold JsMap.size. induction m as [|[k' v'] m IH]; simpl; [done|].
  destruct (decide (k' = k)) as [->|Hne]; simpl; [lia|].
  intros H. specialize (IH H). lia.
Qed.

(** X3. A [join_game] that [addPlayer] accepts stores the session with the
    new player, tells the room the name and the number of players, and
    tells the joiner the status, [waiting]. That number is the size of the
    new roster: one more than before, or the same when the socket was on
    the roster already (its entry is replaced). *)
Theorem join_game_counts_players (calculateScore : Q → Z → Z) (db : Db)
    (srv : Server) (socket code name : string) (r : nat)
    (session session' : GameSession) (p : Player) :
  getGame srv (toUpperCase code) = Some (r, session) →
  addPlayer session socket name = Ret (session', p) →
  let n := if JsMap.has socket (players session)
           then JsMap.size (players session)
           else JsMap.size (players session) + 1 in
  JsMap.size (players session') = n ∧
  step calculateScore db srv (join_game socket code name)
  = (store srv r session',
     [ToRoom (toUpperCase code) (player_joined name n);
      ToSocket socket (game_status WAITING n)]).
Proof.
  intros Hg Hadd. simpl. unfold on_join_game. rewrite Hg, Hadd.
  apply addPlayer_Ret in Hadd as (Hst & -> & ->).
  cbn [players set_players status]. rewrite size_set, Hst. done.
Qed.

(** X13. Tearing down is safe to repeat. [cleanup] after [cleanup] changes
    nothing more; in every state the server can reach, [removeGame] of a
    code that is not registered leaves the server as it is, and a second
    [removeGame] of the same code does nothing. *)
Theorem teardown_is_idempotent (calculateScore : Q → Z → Z) (db : Db)
    (trace : list Event) (code : string) :
  let srv := run calculateScore db emptyServer trace in
  (∀ tm s, cleanup (cleanup tm s).1 (cleanup tm s).2 = cleanup tm s) ∧
  (getGame srv code = None → removeGame srv code = srv) ∧
  getGame (removeGame srv code) code = None ∧
  removeGame (removeGame srv code) code = removeGame srv code.
Proof.
  simpl. set (srv := run calculateScore db emptyServer trace).
  assert (Hok : registry_ok srv) by apply registry_ok_run, registry_ok_empty.
  assert (Hgone : getGame (removeGame srv code) code = None).
  { unfold removeGame. destruct (getGame srv code) as [[r g]|] eqn:Hg; [|done].
    destruct (cleanup _ g) as [tm g']. unfold getGame. simpl.
    by rewrite (get_delete_eq _ _ (reg_keys srv Hok)). }
  split; [|split; [|split; [done|]]].
  - intros tm s. unfold cleanup.
    destruct (questionTimer s) eqn:Ht; simpl; [done | by rewrite Ht].
  - intros Hnone. unfold removeGame. by rewrite Hnone.
  - unfold removeGame at 1. by rewrite Hgone.
Qed.

(** ** Questions and deadlines in the handlers *)

Lemma snapshot_ok_run cs db trace r s :
  objects (run cs db emptyServer trace) !! r = Some s → snapshot_ok s.
Proof.
  apply (run_objects_inv cs db snapshot_ok).
  - intros e s0 s' Hstep (Htot & Hpos & Hidx).
    apply obj_step_frame in Hstep as ((_ & _ & _ & _ & Hq & Ht & _) & Hi & _).
    unfold snapshot_ok. rewrite Hq, Ht. repeat split; [done | done | lia].
  - intros quiz admin code s0 Hc.
    apply constructor_Ret in Hc as (_ & _ & _ & _ & _ & Hidx & Htot & Hpos).
    unfold snapshot_ok. rewrite Hidx. repeat split; [done | done | lia].
  - intros r0 s0 H. simpl in H. by rewrite lookup_nil in H.
Qed.

Lemma startNextQuestion_Some s now :
  snapshot_ok s → isLastQuestion s = false →
  ∃ d, startNextQuestion s now
       = (set_players (JsMap.update_all (set_answer None None))
            (set_questionResults []
               (set_questionStartTime (Some now)
                  (set_status QUESTION
                     (set_currentQuestionIndex (currentQuestionIndex s + 1) s)))),
          Ret (Some d)) ∧
       qd_questionIndex d = currentQuestionIndex s + 1.
Proof.
  intros (Htot & Hpos & Hidx) Hlast. apply bool_decide_eq_false in Hlast.
  unfold startNextQuestion. simpl. rewrite decide_False by lia.
  unfold js_index. simpl. rewrite decide_True by lia.
  destruct (questions s !! Z.to_nat (currentQuestionIndex s + 1)) as [q|] eqn:Hq.
  - by eexists.
  - apply lookup_ge_None in Hq. lia.
Qed.

(** X15. In every state the server can reach, when the admin's game is not
    on its last question, [next_question], and [start_game] with at least
    one player, open the next question: the game's room gets
    [question_start] with the next index, the session is in status
    [question] with that index, and one new deadline is armed for it, which
    is the one the session records. The registry is untouched. *)
Theorem question_opens_with_deadline (calculateScore : Q → Z → Z) (db : Db)
    (trace : list Event) (socket : string) (now : Z) (r : nat) (s : GameSession)
    (e : Event) :
  getGameByAdminSocket (run calculateScore db emptyServer trace) socket = Some (r, s) →
  isLastQuestion s = false →
  (e = start_game socket now ∧ players s ≠ []) ∨ e = next_question socket now →
  let srv := run calculateScore db emptyServer trace in
  let srv' := (step calculateScore db srv e).1 in
  ∃ d s',
    (step calculateScore db srv e).2 = [ToRoom (gameCode s) (question_start d)] ∧
    qd_questionIndex d = currentQuestionIndex s + 1 ∧
    objects srv' !! r = Some s' ∧
    status s' = QUESTION ∧
    currentQuestionIndex s' = currentQuestionIndex s + 1 ∧
    questionTimer s' = Some (nextTimeout (timeouts srv)) ∧
    pending (timeouts srv')
    = (pending (timeouts srv) ++ [(nextTimeout (timeouts srv), Deadline r)])%list ∧
    activeGames srv' = activeGames srv.
Proof.
  intros Hadm Hlast He. simpl.
  set (srv := run calculateScore db emptyServer trace) in *.
  pose proof (getGameByAdminSocket_Some srv socket r s Hadm) as (_ & Hs & _).
  pose proof (snapshot_ok_run calculateScore db trace r s Hs) as Hsnap.
  destruct (startNextQuestion_Some s now Hsnap Hlast) as (d & Hstart & Hd).
  assert (Hstep : step calculateScore db srv e
                  = handleQuestion srv r (startNextQuestion s now).1 d).
  { destruct He as [[-> Hne]| ->]; simpl.
    - unfold on_start_game. rewrite Hadm.
      rewrite decide_False; [by rewrite Hstart|].
      unfold JsMap.size. destruct (players s); [done | simpl; lia].
    - unfold on_next_question. by rewrite Hadm, Hlast, Hstart. }
  rewrite Hstep, Hstart. unfold handleQuestion, setQuestionTimer, setTimeout.
  cbn [fst snd]. eexists d, _. split; [done|]. split; [done|].
  split; [simpl; apply list_lookup_insert_eq; by eapply lookup_lt_Some|].
  done.
Qed.

(** X16. What [start_game] refuses. Without a game for the socket it
    answers "No game found", with an empty roster "No players have joined",
    both leaving the server as it was. In a reachable state, on a game that
    is on or past its last question, it answers "No questions available",
    and the only change is the question index, one higher. *)
Theorem start_game_refusals (calculateScore : Q → Z → Z) (db : Db)
    (trace : list Event) (socket : string) (now : Z) :
  let srv := run calculateScore db emptyServer trace in
  (getGameByAdminSocket srv socket = None →
     step calculateScore db srv (start_game socket now)
     = (srv, [ToSocket socket (error_msg "No game found")])) ∧
  (∀ r s, getGameByAdminSocket srv socket = Some (r, s) → players s = [] →
     step calculateScore db srv (start_game socket now)
     = (srv, [ToSocket socket (error_msg "No players have joined")])) ∧
  (∀ r s, getGameByAdminSocket srv socket = Some (r, s) → players s ≠ [] →
     isLastQuestion s = true →
     step calculateScore db srv (start_game socket now)
     = (store srv r (set_currentQuestionIndex (currentQuestionIndex s + 1) s),
        [ToSocket socket (error_msg "No questions available")])).
Proof.
  simpl. set (srv := run calculateScore db emptyServer trace).
  unfold on_start_game. split; [|split].
  - by intros ->.
  - intros r s -> Hp. by rewrite Hp.
  - intros r s Hadm Hne Hlast. rewrite Hadm.
    rewrite decide_False
      by (unfold JsMap.size; destruct (players s); [done | simpl; lia]).
    apply bool_decide_eq_true in Hlast.
    unfold startNextQuestion. simpl. by rewrite decide_True by lia.
Qed.

Lemma filter_nil_intro {A} (P : A → Prop) `{∀ x, Decision (P x)} (l : list A) :
  (∀ x, x ∈ l → ¬ P x) → filter P l = [].
Proof.
  intros Hno. destruct (filter P l) as [|x l'] eqn:Hf; [done|].
  assert (Hin : x ∈ filter P l) by (rewrite Hf; left).
  apply list_elem_of_filter in Hin as [HP Hin]. by destruct (Hno x Hin).
Qed.

(** X12. As long as the admin has asked for questions only while none was
    open, ending the game ([end_game] or the admin's [disconnect], also in
    the middle of a question) leaves no deadline pending for it: the timer
    of the open question will not fire. *)
Theorem ended_game_has_no_deadline (calculateScore : Q → Z → Z) (db : Db)
    (trace : list Event) (socket : string) (r : nat) (s : GameSession) (e : Event) :
  guarded_trace calculateScore db emptyServer trace = true →
  getGameByAdminSocket (run calculateScore db emptyServer trace) socket = Some (r, s) →
  e = end_game socket ∨ e = disconnect socket →
  deadlines_of (step calculateScore db (run calculateScore db emptyServer trace) e).1 r
  = [].
Proof.
  intros Hguard Hadm He. set (srv := run calculateScore db emptyServer trace) in *.
  assert (Hreg : registry_ok srv) by apply registry_ok_run, registry_ok_empty.
  assert (Hok : timers_ok srv)
    by (apply timers_ok_run; [apply registry_ok_empty | apply timers_ok_empty | done]).
  assert (Hok' : timers_ok (step calculateScore db srv e).1).
  { apply timers_ok_step; [done..|]. by destruct He as [-> | ->]. }
  assert (Hstep : step calculateScore db srv e = finishGame srv r s).
  { destruct He as [-> | ->]; simpl.
    - unfold on_end_game. by rewrite Hadm.
    - unfold on_disconnect. by rewrite Hadm. }
  destruct (finished_lookups srv socket r s Hreg Hadm) as (_ & _ & _ & Hobj).
  unfold deadlines_of. apply filter_nil_intro. intros [h cb] Hin Hcb.
  simpl in Hcb. subst cb.
  destruct (tm_recorded _ Hok' h r Hin) as (s' & Hs' & _ & Hst).
  rewrite Hstep, Hobj in Hs'. injection Hs' as <-.
  by destruct (cleanup_session (timeouts srv) (set_status FINISHED s)) as [Hc|Hc];
    rewrite Hc in Hst.
Qed.

(** X18. A deadline fires at most once and arms nothing. After
    [timeout_fires h] the handle [h] is not pending, and every timeout that
    is pending was pending before. When [h] was not pending (it was
    cancelled, or it has fired), the event does nothing at all. *)
Theorem fired_deadline_is_spent (calculateScore : Q → Z → Z) (db : Db)
    (srv : Server) (h : Timeout) :
  let srv' := (step calculateScore db srv (timeout_fires h)).1 in
  (h ∉ (pending (timeouts srv')).*1) ∧
  (∀ h' cb, (h', cb) ∈ pending (timeouts srv') → (h', cb) ∈ pending (timeouts srv)) ∧
  (h ∉ (pending (timeouts srv)).*1 →
   step calculateScore db srv (timeout_fires h) = (srv, [])).
Proof.
  simpl. unfold on_timeout.
  destruct (find _ _) as [[h' [r]]|] eqn:Hfind.
  - apply find_Some_elem in Hfind as [Hin Hh]. simpl in Hh.
    apply bool_decide_eq_true in Hh. subst h'.
    assert (Hsub : ∀ h' cb,
      (h', cb) ∈ pending (timeouts (deadline_callback calculateScore
                   (set_timeouts (clearTimeout h (timeouts srv)) srv) (Deadline r)).1) →
      h' ≠ h ∧ (h', cb) ∈ pending (timeouts srv)).
    { intros h' cb. unfold deadline_callback. simpl.
      destruct (objects srv !! r) as [session|]; simpl.
      - rewrite closeQuestion_server. simpl.
        destruct (questionTimer session) as [h0|].
        + intros Hp. apply clearTimeout_elem in Hp as [_ Hp].
          by apply clearTimeout_elem in Hp.
        + intros Hp. by apply clearTimeout_elem in Hp.
      - intros Hp. by apply list_elem_of_filter in Hp. }
    split; [|split].
    + intros Hp. apply list_elem_of_fmap in Hp as [[h' cb] [-> Hp]].
      by destruct (Hsub _ _ Hp).
    + intros h' cb Hp. by destruct (Hsub _ _ Hp).
    + intros Hno. destruct Hno. apply list_elem_of_fmap. by exists (h, Deadline r).
  - split; [|split; [done | done]].
    intros Hp. apply list_elem_of_fmap in Hp as [[h' cb] [-> Hp]].
    apply (find_None_elem _ _ _ Hfind) in Hp. simpl in Hp.
    by apply bool_decide_eq_false in Hp.
Qed.

Lemma length_set_existing {V} k (v v0 : V) (m : JsMap.t V) :
  JsMap.get k m = Some v0 → length (JsMap.set k v m) = length m.
Proof.
  induction m as [|[k' v'] m IH]; simpl; [done|].
  destruct (decide (k' = k)); simpl; [done|]. intros H. by rewrite IH.
Qed.

(** X17. An accepted answer closes the question in the same turn exactly
    when it completes the roster. If some player has still not answered,
    the answer is stored, nothing is broadcast and the timeouts are as they
    were. If all have answered and the question at the current index
    exists, the room gets [question_end] with the correct option id and then
    [leaderboard_update], the session is in status [leaderboard] with no
    recorded deadline, and the deadline it recorded is no longer pending. *)
Theorem completing_answer_closes (calculateScore : Q → Z → Z) (db : Db)
    (srv : Server) (socket : string) (optionId now : Z) (r : nat)
    (s : GameSession) :
  getGameByPlayerSocket srv socket = Some (r, s) →
  (submitAnswer s socket optionId now).2 = true →
  let s1 := (submitAnswer s socket optionId now).1 in
  let res := step calculateScore db srv (submit_answer socket optionId now) in
  (allPlayersAnswered s1 = false →
     res = (store srv r s1, [])) ∧
  (allPlayersAnswered s1 = true →
   ∀ q, js_index (questions s) (currentQuestionIndex s) = Some q →
     ∃ results s',
       res.2 = [ToRoom (gameCode s) (question_end results);
                ToRoom (gameCode s) leaderboard_update] ∧
       correctOptionId results = correctOptionIdOf q ∧
       length (playerResults results) = length (players s) ∧
       objects res.1 !! r = Some s' ∧
       status s' = LEADERBOARD ∧ questionTimer s' = None ∧
       (∀ h cb, questionTimer s = Some h → (h, cb) ∉ pending (timeouts res.1))).
Proof.
  intros Hp Hacc. simpl. unfold on_submit_answer. rewrite Hp.
  pose proof (getGameByPlayerSocket_Some srv socket r s Hp) as (_ & Hs & _).
  pose proof (submitAnswer_shape s socket optionId now Hacc) as (p & Hget & _ & _ & Hs1).
  destruct (submitAnswer s socket optionId now) as [s1 accepted] eqn:Hsub.
  simpl in Hacc, Hs1. subst accepted. cbn [fst snd negb].
  split.
  - by intros ->.
  - intros -> q Hq.
    assert (Hq1 : js_index (questions s1) (currentQuestionIndex s1) = Some q)
      by by subst s1.
    unfold closeQuestion.
    rewrite (endQuestion_defined calculateScore (timeouts srv) s1 q Hq1).
    cbn [fst snd]. eexists _, _. split; [by subst s1|]. split; [done|].
    split; [simpl; rewrite length_fmap; subst s1; simpl;
            by eapply length_set_existing|].
    split; [simpl; apply list_lookup_insert_eq; by eapply lookup_lt_Some|].
    split; [done|]. split; [done|].
    intros h cb Ht. simpl. replace (questionTimer s1) with (Some h) by by subst s1.
    intros Hin. apply clearTimeout_elem in Hin as [? _]. done.
Qed.

(** X19. In every state the server can reach, the [disconnect] of a socket
    that is a player's and not an admin's removes that player from the
    first game that has it: the room is told the player's name and a count
    one lower, the socket is no longer on that roster, and the other
    players are as they were. *)
Theorem player_disconnect_leaves_roster (calculateScore : Q → Z → Z) (db : Db)
    (trace : list Event) (socket : string) (r : nat) (s : GameSession) :
  getGameByAdminSocket (run calculateScore db emptyServer trace) socket = None →
  getGameByPlayerSocket (run calculateScore db emptyServer trace) socket = Some (r, s) →
  let srv := run calculateScore db emptyServer trace in
  ∃ p, JsMap.get socket (players s) = Some p ∧
    step calculateScore db srv (disconnect socket)
    = (store srv r (removePlayer s socket),
       [ToRoom (gameCode s) (player_left (username p) (JsMap.size (players s) - 1))]) ∧
    JsMap.has socket (players (removePlayer s socket)) = false ∧
    (∀ k, k ≠ socket →
       JsMap.get k (players (removePlayer s socket)) = JsMap.get k (players s)).
Proof.
  intros Hadm Hp. simpl. set (srv := run calculateScore db emptyServer trace) in *.
  pose proof (getGameByPlayerSocket_Some srv socket r s Hp) as (_ & Hs & Hhas).
  pose proof (roster_keys_run calculateScore db trace r s Hs) as Hnd.
  unfold JsMap.has in Hhas.
  destruct (JsMap.get socket (players s)) as [p|] eqn:Hget; [|done].
  exists p. split; [done|]. split; [|split].
  - unfold on_disconnect. rewrite Hadm, Hp, Hget. simpl.
    by rewrite (length_delete _ _ _ Hget).
  - unfold JsMap.has. simpl. by rewrite get_delete_eq.
  - intros k Hne. simpl. by apply get_delete_ne.
Qed.

Lemma admin_lookup_of_registered srv r g :
  registry_ok srv → (r, g) ∈ sessions srv →
  getGameByAdminSocket srv (adminSocketId g) = Some (r, g).
Proof.
  intros Hok Hin.
  pose proof (registered_getGame srv r g Hok Hin) as Hg.
  destruct (find_Some_intro (λ rg, bool_decide (adminSocketId rg.2 = adminSocketId g))
              (sessions srv) (r, g) Hin) as [[r' g'] Hfind].
  { by apply bool_decide_eq_true. }
  unfold getGameByAdminSocket. rewrite Hfind. f_equal.
  pose proof (getGameByAdminSocket_Some srv _ r' g' Hfind) as (_ & Hg1 & Hadm).
  pose proof (getGame_of_admin srv _ r' g' Hok Hfind) as Hgg.
  apply getGame_Some in Hgg as [Hc' _]. apply getGame_Some in Hg as [Hc Hr].
  assert (gameCode g' = gameCode g) as Heq.
  { eapply (reg_admin srv Hok _ _ r' r g' g); eauto using get_Some_elem. }
  rewrite Heq in Hc'. congruence.
Qed.

(** X20. In every state the server can reach, a [create_game] with a valid
    token, from a socket that owns no game, for a quiz that can be loaded,
    answers [game_created] with the drawn code and registers a new session:
    it is what the lookup by that code and the lookup by the admin socket
    return afterwards, it waits with an empty roster and index -1, and the
    timeouts are untouched. *)
Theorem create_game_registers_session (calculateScore : Q → Z → Z) (db : Db)
    (trace : list Event) (socket : string) (quiz : Z) (code : string)
    (session : GameSession) :
  getGameByAdminSocket (run calculateScore db emptyServer trace) socket = None →
  GameSession_constructor db quiz socket code = Ret session →
  let srv := run calculateScore db emptyServer trace in
  let res := step calculateScore db srv (create_game socket ValidToken quiz code) in
  res.2 = [ToSocket socket (game_created code)] ∧
  getGame res.1 code = Some (length (objects srv), session) ∧
  getGameByAdminSocket res.1 socket = Some (length (objects srv), session) ∧
  status session = WAITING ∧ players session = [] ∧
  currentQuestionIndex session = -1 ∧
  timeouts res.1 = timeouts srv.
Proof.
  intros Hnone Hc. simpl. set (srv := run calculateScore db emptyServer trace) in *.
  assert (Hok' : registry_ok
            (step calculateScore db srv (create_game socket ValidToken quiz code)).1)
    by apply registry_ok_step, registry_ok_run, registry_ok_empty.
  simpl in Hok'. unfold on_create_game, createGame in *. rewrite Hnone, Hc in *.
  pose proof (constructor_Ret db quiz socket code session Hc)
    as (Hcode & Hadm & Hp & Hst & _ & Hidx & _).
  cbn [fst snd] in *. rewrite Hcode in *.
  assert (Hg : getGame
            {| objects := objects srv ++ [session];
               activeGames := JsMap.set code (length (objects srv)) (activeGames srv);
               timeouts := timeouts srv |} code
          = Some (length (objects srv), session)).
  { apply getGame_Some. simpl. split; [apply get_set_eq|].
    by rewrite lookup_app_r, Nat.sub_diag. }
  split; [done|]. split; [done|]. split; [|done].
  rewrite <- Hadm. apply admin_lookup_of_registered; [done|].
  by eapply getGame_sessions.
Qed.

(** ** Which session an event touches *)

Lemma start_other srv r session now r0 :
  r0 ≠ r →
  objects
    match startNextQuestion session now with
    | (session', Throw _) => store srv r session'
    | (session', Ret None) => store srv r session'
    | (session', Ret (Some d)) => (handleQuestion srv r session' d).1
    end !! r0
  = objects srv !! r0.
Proof.
  intros Hne. destruct (startNextQuestion session now) as [s' [[d|]|msg]]; simpl;
    by rewrite list_lookup_insert_ne.
Qed.

Lemma finish_other srv socket r s r0 :
  registry_ok srv → getGameByAdminSocket srv socket = Some (r, s) → r0 ≠ r →
  objects (finishGame srv r s).1 !! r0 = objects srv !! r0.
Proof.
  intros Hok Hadm Hne. rewrite (finishGame_server srv socket r s Hok Hadm). simpl.
  by rewrite list_lookup_insert_ne.
Qed.

Lemma step_touches srv cs db e :
  registry_ok srv →
  objects (step cs db srv e).1 = objects srv
  ∨ (∃ r, is_Some (objects srv !! r) ∧
          ∀ r0, r0 ≠ r → objects (step cs db srv e).1 !! r0 = objects srv !! r0)
  ∨ (∃ session, objects (step cs db srv e).1 = (objects srv ++ [session])%list).
Proof.
  intros Hok.
  destruct e as [socket token quiz code|socket code name|socket now
                |socket optionId now|socket now|socket|socket|h]; simpl.
  - unfold on_create_game. destruct token; try by left.
    destruct (getGameByAdminSocket srv socket) as [[r existing]|]; [by left|].
    unfold createGame. destruct (GameSession_constructor _ _ _ _); [|by left].
    right. right. by eexists.
  - unfold on_join_game.
    destruct (getGame srv (toUpperCase code)) as [[r session]|] eqn:Hg; [|by left].
    apply getGame_Some in Hg as [_ Hs].
    destruct (addPlayer session socket name) as [[session' p]|msg]; [|by left].
    right. left. exists r. split; [by eexists|]. intros r0 Hne. simpl.
    by rewrite list_lookup_insert_ne.
  - unfold on_start_game.
    destruct (getGameByAdminSocket srv socket) as [[r session]|] eqn:Hadm; [|by left].
    apply getGameByAdminSocket_Some in Hadm as (_ & Hs & _).
    destruct (decide _); [by left|].
    right. left. exists r. split; [by eexists|]. intros r0 Hne.
    pose proof (start_other srv r session now r0 Hne) as H.
    by destruct (startNextQuestion session now) as [s' [[d|]|msg]].
  - unfold on_submit_answer.
    destruct (getGameByPlayerSocket srv socket) as [[r session]|] eqn:Hp; [|by left].
    apply getGameByPlayerSocket_Some in Hp as (_ & Hs & _).
    destruct (submitAnswer session socket optionId now) as [s1 [|]]; simpl; [|by left].
    right. left. exists r. split; [by eexists|]. intros r0 Hne.
    destruct (allPlayersAnswered s1).
    + rewrite closeQuestion_objects. by rewrite list_lookup_insert_ne.
    + simpl. by rewrite list_lookup_insert_ne.
  - unfold on_next_question.
    destruct (getGameByAdminSocket srv socket) as [[r session]|] eqn:Hadm; [|by left].
    pose proof (getGameByAdminSocket_Some srv socket r session Hadm) as (_ & Hs & _).
    right. left. exists r. split; [by eexists|]. intros r0 Hne.
    destruct (isLastQuestion session); [by eapply finish_other|].
    pose proof (start_other srv r session now r0 Hne) as H.
    by destruct (startNextQuestion session now) as [s' [[d|]|msg]].
  - unfold on_end_game.
    destruct (getGameByAdminSocket srv socket) as [[r session]|] eqn:Hadm; [|by left].
    pose proof (getGameByAdminSocket_Some srv socket r session Hadm) as (_ & Hs & _).
    right. left. exists r. split; [by eexists|]. intros r0 Hne. by eapply finish_other.
  - unfold on_disconnect.
    destruct (getGameByAdminSocket srv socket) as [[r session]|] eqn:Hadm.
    + pose proof (getGameByAdminSocket_Some srv socket r session Hadm) as (_ & Hs & _).
      right. left. exists r. split; [by eexists|]. intros r0 Hne.
      by eapply finish_other.
    + destruct (getGameByPlayerSocket srv socket) as [[r session]|] eqn:Hp; [|by left].
      apply getGameByPlayerSocket_Some in Hp as (_ & Hs & _).
      right. left. exists r. split; [by eexists|]. intros r0 Hne. simpl.
      by rewrite list_lookup_insert_ne.
  - unfold on_timeout.
    destruct (find _ _) as [[h' [r]]|]; [|by left].
    unfold deadline_callback. simpl.
    destruct (objects srv !! r) as [session|] eqn:Hs.
    + right. left. exists r. split; [by eexists|]. intros r0 Hne.
      rewrite closeQuestion_objects. simpl. by rewrite list_lookup_insert_ne.
    + by left.
Qed.

(** X24. In every state the server can reach, an event touches at most
    one session: either it adds a new session and leaves the existing ones
    alone, or all sessions but one are exactly as they were. *)
Theorem event_touches_one_session (calculateScore : Q → Z → Z) (db : Db)
    (trace : list Event) (e : Event) :
  let srv := run calculateScore db emptyServer trace in
  ∃ r, ∀ r0 s0, r0 ≠ r → objects srv !! r0 = Some s0 →
                objects (step calculateScore db srv e).1 !! r0 = Some s0.
Proof.
  simpl. set (srv := run calculateScore db emptyServer trace).
  assert (Hok : registry_ok srv) by apply registry_ok_run, registry_ok_empty.
  destruct (step_touches srv calculateScore db e Hok)
    as [Hsame|[(r & _ & Hother)|[session Hnew]]].
  - exists 0%nat. intros r0 s0 _ Hs. by rewrite Hsame.
  - exists r. intros r0 s0 Hne Hs. by rewrite Hother.
  - exists (length (objects srv)). intros r0 s0 _ Hs. rewrite Hnew.
    by apply lookup_app_l_Some.
Qed.

(** X21. The events that drive a game belong to its admin. In every state
    the server can reach, [start_game], [next_question] and [end_game] leave
    every session whose admin socket is not the caller's exactly as it was.
    When the caller owns no game, [next_question] and [end_game] do nothing
    at all: the server is as it was and nothing is sent; [start_game] leaves
    the server as it was and sends one message, the error "No game found",
    to the caller. *)
Theorem admin_events_touch_own_game (calculateScore : Q → Z → Z) (db : Db)
    (trace : list Event) (socket : string) (now : Z) :
  let srv := run calculateScore db emptyServer trace in
  (∀ e r0 s0,
     e = start_game socket now ∨ e = next_question socket now ∨ e = end_game socket →
     objects srv !! r0 = Some s0 → adminSocketId s0 ≠ socket →
     objects (step calculateScore db srv e).1 !! r0 = Some s0) ∧
  (getGameByAdminSocket srv socket = None →
     step calculateScore db srv (start_game socket now)
     = (srv, [ToSocket socket (error_msg "No game found")]) ∧
     step calculateScore db srv (next_question socket now) = (srv, []) ∧
     step calculateScore db srv (end_game socket) = (srv, [])).
Proof.
  cbv zeta. set (srv := run calculateScore db emptyServer trace).
  assert (Hok : registry_ok srv) by apply registry_ok_run, registry_ok_empty.
  split.
  - intros e r0 s0 He Hs0 Hne.
    destruct (getGameByAdminSocket srv socket) as [[r s]|] eqn:Hadm.
    + pose proof (getGameByAdminSocket_Some srv socket r s Hadm) as (_ & Hs & Hsock).
      assert (Hr : r0 ≠ r) by (intros ->; congruence).
      rewrite <- Hs0. destruct He as [->|[->| ->]]; simpl.
      * unfold on_start_game. rewrite Hadm. destruct (decide _); [done|].
        pose proof (start_other srv r s now r0 Hr) as H.
        by destruct (startNextQuestion s now) as [s' [[d|]|msg]].
      * unfold on_next_question. rewrite Hadm.
        destruct (isLastQuestion s); [by eapply finish_other|].
        pose proof (start_other srv r s now r0 Hr) as H.
        by destruct (startNextQuestion s now) as [s' [[d|]|msg]].
      * unfold on_end_game. rewrite Hadm. by eapply finish_other.
    + destruct He as [->|[->| ->]]; simpl;
        unfold on_start_game, on_next_question, on_end_game; by rewrite Hadm.
  - intros Hadm. simpl. unfold on_start_game, on_next_question, on_end_game.
    by rewrite Hadm.
Qed.

(** ** When scores and answers change *)

Lemma closeSession_get cs tm s k :
  (status (closeSession cs tm s) = REVEAL ∧
   JsMap.get k (players (closeSession cs tm s)) = JsMap.get k (players s))
  ∨ (status (closeSession cs tm s) = LEADERBOARD ∧
     ∃ cid, JsMap.get k (players (closeSession cs tm s))
            = scored cs s cid <$> JsMap.get k (players s)).
Proof.
  pose proof (closeSession_shape cs tm s) as (_ & _ & _ & [[Hst ->]|[Hst (q & _ & ->)]]).
  - by left.
  - right. split; [done|]. exists (correctOptionIdOf q). apply get_update_all.
Qed.

(** X22. Scores change only when a question closes. In every state the
    server can reach, after any event a player on a roster has the score
    the same socket had before, unless the socket has just joined (score
    0), or the event was an answer or a deadline that closed the question
    and left the session in status [leaderboard]. *)
Theorem scores_change_only_on_close (calculateScore : Q → Z → Z) (db : Db)
    (trace : list Event) (e : Event) (r : nat) (s s' : GameSession) (k : string)
    (p' : Player) :
  objects (run calculateScore db emptyServer trace) !! r = Some s →
  objects (step calculateScore db (run calculateScore db emptyServer trace) e).1 !! r
  = Some s' →
  JsMap.get k (players s') = Some p' →
  (∃ p, JsMap.get k (players s) = Some p ∧ score p' = score p)
  ∨ (score p' = 0 ∧ ∃ code name, e = join_game k code name)
  ∨ (status s' = LEADERBOARD ∧
     ((∃ h, e = timeout_fires h) ∨
      ∃ socket optionId now, e = submit_answer socket optionId now)).
Proof.
  intros Hs Hs' Hp'.
  pose proof (roster_keys_run calculateScore db trace r s Hs) as Hnd.
  destruct (step_obj calculateScore db _ e r s Hs) as (s'' & Hs'' & Hstep).
  replace s'' with s' in * by congruence. clear Hs''.
  assert (Hsame : players s' = players s →
            ∃ p, JsMap.get k (players s) = Some p ∧ score p' = score p).
  { intros Heq. rewrite Heq in Hp'. by exists p'. }
  assert (Hopen : ∀ now, opened now s s' →
            ∃ p, JsMap.get k (players s) = Some p ∧ score p' = score p).
  { intros now H. apply opened_shape in H as (_ & _ & [[_ Heq]|[_ Heq]]); [auto|].
    rewrite Heq, get_update_all in Hp'.
    destruct (JsMap.get k (players s)) as [p|]; [|done].
    injection Hp' as <-. by exists p. }
  assert (Hdown : torn_down s s' →
            ∃ p, JsMap.get k (players s) = Some p ∧ score p' = score p).
  { intros H. apply torn_down_shape in H as (_ & _ & Heq & _). auto. }
  destruct Hstep as [->|Hstep]; [left; by exists p'|].
  destruct e; try done.
  - destruct Hstep as [p0 Hadd]. apply addPlayer_Ret in Hadd as (_ & -> & ->).
    simpl in Hp'. rewrite get_set in Hp'.
    destruct (decide (socket = k)) as [->|Hne].
    + injection Hp' as <-. right. left. split; [done|]. by eexists _, _.
    + left. by exists p'.
  - left. eauto.
  - destruct Hstep as [Hacc Hstep].
    apply submitAnswer_shape in Hacc as (q & Hq & _ & _ & Hs1).
    assert (H1 : ∀ p1, JsMap.get k (players (submitAnswer s socket optionId now).1)
                       = Some p1 →
                 ∃ p, JsMap.get k (players s) = Some p ∧ score p1 = score p).
    { intros p1. rewrite Hs1. simpl. rewrite get_set.
      destruct (decide (socket = k)) as [->|Hne].
      - intros [= <-]. by exists q.
      - intros H. by exists p1. }
    destruct Hstep as [[_ ->]|[_ [tm ->]]]; [left; auto|].
    destruct (closeSession_get calculateScore tm (submitAnswer s socket optionId now).1 k)
      as [[_ Heq]|[Hst _]].
    + left. rewrite Heq in Hp'. auto.
    + right. right. split; [done|]. right. by eexists _, _, _.
  - left. destruct Hstep as [H|H]; eauto.
  - left. eauto.
  - left. destruct Hstep as [H| ->]; [eauto|].
    simpl in Hp'. destruct (decide (socket = k)) as [->|Hne].
    + by rewrite get_delete_eq in Hp'.
    + rewrite get_delete_ne in Hp' by done. by exists p'.
  - destruct Hstep as [tm ->].
    destruct (closeSession_get calculateScore tm s k) as [[_ Heq]|[Hst _]].
    + left. rewrite Heq in Hp'. by exists p'.
    + right. right. split; [done|]. left. by eexists.
Qed.

(** X23. The first answer stays. In every state the server can reach, for
    a game that has started, a player's recorded answer and its timestamp
    are the same after any event as before, as long as the player is on the
    roster; the only exception is [start_game] or [next_question] opening a
    question, which clears the answer. *)
Theorem recorded_answer_stays (calculateScore : Q → Z → Z) (db : Db)
    (trace : list Event) (e : Event) (r : nat) (s s' : GameSession) (k : string)
    (p p' : Player) (a : Z) :
  objects (run calculateScore db emptyServer trace) !! r = Some s →
  objects (step calculateScore db (run calculateScore db emptyServer trace) e).1 !! r
  = Some s' →
  status s ≠ WAITING →
  JsMap.get k (players s) = Some p → currentAnswer p = Some a →
  JsMap.get k (players s') = Some p' →
  (currentAnswer p' = Some a ∧ answerTimestamp p' = answerTimestamp p)
  ∨ (currentAnswer p' = None ∧ status s' = QUESTION ∧
     ∃ socket now, e = start_game socket now ∨ e = next_question socket now).
Proof.
  intros Hs Hs' Hst Hp Ha Hp'.
  pose proof (roster_keys_run calculateScore db trace r s Hs) as Hnd.
  destruct (step_obj calculateScore db _ e r s Hs) as (s'' & Hs'' & Hstep).
  replace s'' with s' in * by congruence. clear Hs''.
  assert (Hsame : players s' = players s →
            currentAnswer p' = Some a ∧ answerTimestamp p' = answerTimestamp p).
  { intros Heq. rewrite Heq in Hp'. by replace p' with p by congruence. }
  assert (Hopen : ∀ now, opened now s s' →
    (currentAnswer p' = Some a ∧ answerTimestamp p' = answerTimestamp p)
    ∨ (currentAnswer p' = None ∧ status s' = QUESTION)).
  { intros now H. apply opened_shape in H as (_ & _ & [[_ Heq]|[Hq Heq]]); [auto|].
    right. rewrite Heq, get_update_all, Hp in Hp'. injection Hp' as <-. done. }
  assert (Hdown : torn_down s s' →
            currentAnswer p' = Some a ∧ answerTimestamp p' = answerTimestamp p).
  { intros H. apply torn_down_shape in H as (_ & _ & Heq & _). auto. }
  assert (Hclose : ∀ tm s1, JsMap.get k (players s1) = Some p →
            JsMap.get k (players (closeSession calculateScore tm s1)) = Some p' →
            currentAnswer p' = Some a ∧ answerTimestamp p' = answerTimestamp p).
  { intros tm s1 H1 H2.
    destruct (closeSession_get calculateScore tm s1 k) as [[_ Heq]|[_ [cid Heq]]];
      rewrite Heq, H1 in H2; injection H2 as <-; done. }
  destruct Hstep as [->|Hstep]; [left; auto|].
  destruct e; try done.
  - destruct Hstep as [p0 Hadd]. apply addPlayer_Ret in Hadd as (? & _). done.
  - destruct (Hopen now Hstep) as [?|[? ?]]; [by left|].
    right. split; [done|]. split; [done|]. exists socket, now. by left.
  - left. destruct Hstep as [Hacc Hstep].
    apply submitAnswer_shape in Hacc as (q & Hq & Hqa & _ & Hs1).
    assert (Hne : socket ≠ k) by (intros ->; congruence).
    assert (H1 : JsMap.get k (players (submitAnswer s socket optionId now).1) = Some p).
    { rewrite Hs1. simpl. by rewrite get_set_ne. }
    destruct Hstep as [[_ ->]|[_ [tm ->]]]; [|by eapply Hclose].
    rewrite H1 in Hp'. by replace p' with p by congruence.
  - destruct Hstep as [H|H]; [|left; auto].
    destruct (Hopen now H) as [?|[? ?]]; [by left|].
    right. split; [done|]. split; [done|]. exists socket, now. by right.
  - left. auto.
  - left. destruct Hstep as [H| ->]; [auto|].
    simpl in Hp'. destruct (decide (socket = k)) as [->|Hne].
    + by rewrite get_delete_eq in Hp'.
    + rewrite get_delete_ne in Hp' by done. by replace p' with p by congruence.
  - left. destruct Hstep as [tm ->]. by eapply Hclose.
Qed.

(** ** Closing never fails in a guarded run *)

Lemma obj_step_keeps_open cs e s s' :
  obj_step cs e s s' →
  (∀ socket now, e ≠ start_game socket now) →
  (∀ socket now, e ≠ next_question socket now) →
  status s' = QUESTION →
  status s = QUESTION ∧ currentQuestionIndex s' = currentQuestionIndex s ∧
  questions s' = questions s.
Proof.
  assert (Hdown : torn_down s s' → status s' = QUESTION →
            status s = QUESTION ∧ currentQuestionIndex s' = currentQuestionIndex s ∧
            questions s' = questions s).
  { intros H Hq. pose proof (torn_down_frame s s' H) as ((_ & _ & _ & _ & ? & _) & ? & _).
    apply torn_down_shape in H as (_ & _ & _ & [Hst|Hst]); [|congruence].
    by rewrite <- Hst. }
  assert (Hclose : ∀ tm s1, status (closeSession cs tm s1) = QUESTION → False).
  { intros tm s1 Hq.
    pose proof (closeSession_shape cs tm s1) as (_ & _ & _ & [[Hst _]|[Hst _]]);
      congruence. }
  intros [->|H] Hstart Hnext Hq; [done|]. destruct e; try done.
  - destruct H as [p H]. apply addPlayer_Ret in H as (_ & _ & ->). done.
  - by destruct (Hstart socket now).
  - destruct H as [Hacc H].
    apply submitAnswer_shape in Hacc as (p & _ & _ & Hst & Hs1).
    destruct H as [[_ ->]|[_ [tm ->]]]; [by rewrite Hs1|]. by destruct (Hclose _ _ Hq).
  - by destruct (Hnext socket now).
  - auto.
  - destruct H as [H| ->]; [auto | done].
  - destruct H as [tm ->]. by destruct (Hclose _ _ Hq).
Qed.

Lemma startNextQuestion_in_range s now :
  snapshot_ok s → open_in_range (startNextQuestion s now).1 ∨
                  status (startNextQuestion s now).1 = status s.
Proof.
  intros (Htot & Hpos & Hidx). unfold startNextQuestion. simpl.
  destruct (decide (_ >= _)) as [Hge|Hlt]; simpl; [by right|].
  left. unfold js_index. simpl. rewrite decide_True by lia.
  destruct (questions s !! Z.to_nat (currentQuestionIndex s + 1)) as [q|] eqn:Hq; simpl.
  - intros _. exists q. unfold js_index. simpl. by rewrite decide_True by lia.
  - apply lookup_ge_None in Hq. lia.
Qed.

Lemma start_keeps_open srv r s now :
  snapshot_ok s → status s ≠ QUESTION →
  ∀ s', objects
          match startNextQuestion s now with
          | (session', Throw _) => store srv r session'
          | (session', Ret None) => store srv r session'
          | (session', Ret (Some d)) => (handleQuestion srv r session' d).1
          end !! r = Some s' →
        open_in_range s'.
Proof.
  intros Hsnap Hclosed s' Hs'.
  assert (Hr : is_Some (objects srv !! r)).
  { apply lookup_lt_is_Some.
    destruct (startNextQuestion s now) as [s1 [[d|]|msg]]; simpl in Hs';
      apply lookup_lt_Some in Hs'; by rewrite length_insert in Hs'. }
  destruct Hr as [s0 Hs0].
  pose proof (startNextQuestion_in_range s now Hsnap) as Hrange.
  destruct (startNextQuestion s now) as [s1 [[d|]|msg]]; simpl in *;
    rewrite list_lookup_insert_eq in Hs' by (by eapply lookup_lt_Some);
    injection Hs' as <-;
    (destruct Hrange as [Hrange|Hst]; [exact Hrange | intros Hq; simpl in Hq; congruence]).
Qed.

Section GuardedRuns.

Variable calculateScore : Q → Z → Z.
Variable db : Db.

Lemma open_in_range_step srv e :
  registry_ok srv →
  (∀ r s, objects srv !! r = Some s → snapshot_ok s ∧ open_in_range s) →
  guarded srv e = true →
  ∀ r s', objects (step calculateScore db srv e).1 !! r = Some s' →
          snapshot_ok s' ∧ open_in_range s'.
Proof.
  intros Hreg Hinv Hguard r s' Hs'.
  assert (Hsnap : snapshot_ok s').
  { apply step_objects_origin in Hs' as [(s & Hs & Hstep)|(quiz & admin & code & Hc)].
    - destruct (Hinv r s Hs) as [(Htot & Hpos & Hidx) _].
      apply obj_step_frame in Hstep as ((_ & _ & _ & _ & Hq & Ht & _) & Hi & _).
      unfold snapshot_ok. rewrite Hq, Ht. repeat split; [done | done | lia].
    - apply constructor_Ret in Hc as (_ & _ & _ & _ & _ & Hidx & Htot & Hpos).
      unfold snapshot_ok. rewrite Hidx. repeat split; [done | done | lia]. }
  split; [done|].
  assert (Hother : (∀ socket now, e ≠ start_game socket now) →
                   (∀ socket now, e ≠ next_question socket now) →
                   open_in_range s').
  { intros Hstart Hnext.
    apply step_objects_origin in Hs' as [(s & Hs & Hstep)|(quiz & admin & code & Hc)].
    - intros Hq.
      destruct (obj_step_keeps_open _ _ _ _ Hstep Hstart Hnext Hq) as (Hq0 & Hi & Hqs).
      destruct (Hinv r s Hs) as [_ Hopen]. rewrite Hi, Hqs. by apply Hopen.
    - apply constructor_Ret in Hc as (_ & _ & _ & Hst & _). intros Hq. congruence. }
  destruct e as [socket token quiz code|socket code name|socket now
                |socket optionId now|socket now|socket|socket|h];
    try (by apply Hother).
  - (* start_game *)
    simpl in Hs', Hguard. unfold on_start_game in Hs'.
    destruct (getGameByAdminSocket srv socket) as [[ra sa]|] eqn:Hadm;
      [|by apply (Hinv r)].
    apply negb_true_iff, bool_decide_eq_false in Hguard.
    pose proof (getGameByAdminSocket_Some srv socket ra sa Hadm) as (_ & Hsa & _).
    destruct (decide (JsMap.size (players sa) = 0)); [by apply (Hinv r)|].
    destruct (decide (r = ra)) as [->|Hne].
    + destruct (Hinv ra sa Hsa) as [Hsnapa _].
      apply (start_keeps_open srv ra sa now Hsnapa Hguard).
      by destruct (startNextQuestion sa now) as [s1 [[d|]|msg]].
    + pose proof (start_other srv ra sa now r Hne) as Hsame.
      apply (Hinv r). rewrite <- Hsame.
      by destruct (startNextQuestion sa now) as [s1 [[d|]|msg]].
  - (* next_question *)
    simpl in Hs', Hguard. unfold on_next_question in Hs'.
    destruct (getGameByAdminSocket srv socket) as [[ra sa]|] eqn:Hadm;
      [|by apply (Hinv r)].
    apply negb_true_iff, bool_decide_eq_false in Hguard.
    pose proof (getGameByAdminSocket_Some srv socket ra sa Hadm) as (_ & Hsa & _).
    destruct (decide (r = ra)) as [->|Hne].
    + destruct (isLastQuestion sa).
      * rewrite (finishGame_server srv socket ra sa Hreg Hadm) in Hs'. simpl in Hs'.
        rewrite list_lookup_insert_eq in Hs' by (by eapply lookup_lt_Some).
        injection Hs' as <-. intros Hq.
        by destruct (cleanup_session (timeouts srv) (set_status FINISHED sa)) as [Hc|Hc];
          rewrite Hc in Hq.
      * destruct (Hinv ra sa Hsa) as [Hsnapa _].
        apply (start_keeps_open srv ra sa now Hsnapa Hguard).
        by destruct (startNextQuestion sa now) as [s1 [[d|]|msg]].
    + apply (Hinv r). rewrite <- Hs'. symmetry.
      destruct (isLastQuestion sa); [by eapply finish_other|].
      pose proof (start_other srv ra sa now r Hne) as Hsame.
      by destruct (startNextQuestion sa now) as [s1 [[d|]|msg]].
Qed.

Lemma open_in_range_run trace srv :
  registry_ok srv →
  (∀ r s, objects srv !! r = Some s → snapshot_ok s ∧ open_in_range s) →
  guarded_trace calculateScore db srv trace = true →
  ∀ r s, objects (run calculateScore db srv trace) !! r = Some s →
         snapshot_ok s ∧ open_in_range s.
Proof.
  revert srv. induction trace as [|e trace IH]; intros srv Hreg Hinv Hg; [done|].
  simpl in *. apply andb_true_iff in Hg as [Hg1 Hg2].
  apply IH; [by apply registry_ok_step | by apply open_in_range_step | done].
Qed.

End GuardedRuns.

Lemma NoDup_fst_functional {A B} (l : list (A * B)) x y1 y2 :
  NoDup l.*1 → (x, y1) ∈ l → (x, y2) ∈ l → y1 = y2.
Proof.
  induction l as [|[a b] l IH]; simpl; [by intros _ H; apply elem_of_nil in H|].
  rewrite NoDup_cons, !elem_of_cons. intros [Hnotin Hnd] [H1|H1] [H2|H2].
  - congruence.
  - injection H1 as <- <-. destruct Hnotin. apply list_elem_of_fmap. by exists (x, y2).
  - injection H2 as <- <-. destruct Hnotin. apply list_elem_of_fmap. by exists (x, y1).
  - by apply IH.
Qed.

(** X25. As long as the admin has asked for questions only while none was
    open, a pending deadline that fires always closes its question: its
    session is in status [question], the closing logic does not throw, the
    room gets [question_end] with one result per player and then
    [leaderboard_update], and the session is left in status [leaderboard]
    with no deadline pending. *)
Theorem deadline_closes_its_question (calculateScore : Q → Z → Z) (db : Db)
    (trace : list Event) (h : Timeout) (r : nat) :
  guarded_trace calculateScore db emptyServer trace = true →
  (h, Deadline r) ∈ pending (timeouts (run calculateScore db emptyServer trace)) →
  let srv := run calculateScore db emptyServer trace in
  let res := step calculateScore db srv (timeout_fires h) in
  ∃ s results s',
    objects srv !! r = Some s ∧ status s = QUESTION ∧
    res.2 = [ToRoom (gameCode s) (question_end results);
             ToRoom (gameCode s) leaderboard_update] ∧
    length (playerResults results) = length (players s) ∧
    objects res.1 !! r = Some s' ∧ status s' = LEADERBOARD ∧
    deadlines_of res.1 r = [].
Proof.
  intros Hguard Hin. cbv zeta. set (srv := run calculateScore db emptyServer trace) in *.
  assert (Hreg : registry_ok srv) by apply registry_ok_run, registry_ok_empty.
  assert (Hok : timers_ok srv)
    by (apply timers_ok_run; [apply registry_ok_empty | apply timers_ok_empty | done]).
  assert (Hok' : timers_ok (step calculateScore db srv (timeout_fires h)).1)
    by by apply timers_ok_step.
  destruct (tm_recorded srv Hok h r Hin) as (s & Hs & Ht & Hst).
  destruct (open_in_range_run calculateScore db trace emptyServer registry_ok_empty)
    with (r := r) (s := s) as [_ Hopen]; [|done|done|].
  { intros r0 s0 H. simpl in H. by rewrite lookup_nil in H. }
  destruct (Hopen Hst) as [q Hq].
  assert (Hfind : find (λ e, bool_decide (e.1 = h)) (pending (timeouts srv))
                  = Some (h, Deadline r)).
  { destruct (find_Some_intro (λ e, bool_decide (e.1 = h)) _ _ Hin) as [[h' cb] Hf];
      [by apply bool_decide_eq_true|].
    rewrite Hf. pose proof Hf as Hf'. apply find_Some_elem in Hf' as [Hin' Hh].
    simpl in Hh. apply bool_decide_eq_true in Hh. subst h'.
    by rewrite (NoDup_fst_functional _ h cb (Deadline r) (tm_nodup srv Hok) Hin' Hin). }
  assert (Hstep : step calculateScore db srv (timeout_fires h)
                  = closeQuestion calculateScore
                      (set_timeouts (clearTimeout h (timeouts srv)) srv) r s).
  { simpl. unfold on_timeout. rewrite Hfind. simpl. by rewrite Hs. }
  rewrite Hstep in *. unfold closeQuestion in *.
  rewrite (endQuestion_defined calculateScore _ s q Hq) in *. cbn [fst snd] in *.
  eexists s, _, _. split; [done|]. split; [done|]. split; [done|].
  split; [simpl; by rewrite length_fmap|].
  split; [simpl; apply list_lookup_insert_eq; by eapply lookup_lt_Some|].
  split; [done|].
  unfold deadlines_of. apply filter_nil_intro. intros [h' cb] Hin' Hcb.
  simpl in Hcb. subst cb.
  destruct (tm_recorded _ Hok' h' r Hin') as (s1 & Hs1 & _ & Hst1).
  simpl in Hs1. rewrite list_lookup_insert_eq in Hs1 by (by eapply lookup_lt_Some).
  by injection Hs1 as <-.
Qed.

(** ** The question index along a run *)

Lemma startNextQuestion_status s now :
  if isLastQuestion s
  then (startNextQuestion s now).2 = Ret None ∧
       status (startNextQuestion s now).1 = status s
  else status (startNextQuestion s now).1 = QUESTION.
Proof.
  unfold isLastQuestion, startNextQuestion. simpl.
  destruct (decide (currentQuestionIndex s + 1 >= totalQuestions s)) as [Hge|Hlt].
  - by rewrite bool_decide_eq_true_2 by lia.
  - rewrite bool_decide_eq_false_2 by lia. by destruct (js_index _ _).
Qed.

Lemma opened_index now s s' :
  opened now s s' →
  currentQuestionIndex s' = currentQuestionIndex s + 1 ∧
  totalQuestions s' = totalQuestions s ∧
  status s' = status (startNextQuestion s now).1.
Proof.
  pose proof (startNextQuestion_frame s now) as ((_ & _ & _ & _ & _ & Ht & _) & Hi & _).
  by intros [->|[h ->]].
Qed.

Lemma obj_step_index cs e s s' :
  obj_step cs e s s' →
  currentQuestionIndex s' = currentQuestionIndex s ∨
  ((∃ socket now, e = start_game socket now ∨ e = next_question socket now) ∧
   ∃ now, opened now s s').
Proof.
  assert (Hdown : torn_down s s' → currentQuestionIndex s' = currentQuestionIndex s).
  { intros H. by apply torn_down_frame in H as (_ & ? & _). }
  assert (Hclose : ∀ tm s1,
            currentQuestionIndex (closeSession cs tm s1) = currentQuestionIndex s1).
  { intros tm s1. by destruct (closeSession_frame cs tm s1) as (_ & ? & _). }
  intros [->|H]; [by left|]. destruct e; try done.
  - left. destruct H as [p H]. apply addPlayer_Ret in H as (_ & _ & ->). done.
  - right. split; [|by exists now]. exists socket, now. by left.
  - left. destruct H as [Hacc H].
    apply submitAnswer_shape in Hacc as (p & _ & _ & _ & Hs1).
    destruct H as [[_ ->]|[_ [tm ->]]]; [by rewrite Hs1|].
    by rewrite Hclose, Hs1.
  - destruct H as [H|H]; [right | left; auto].
    split; [|by exists now]. exists socket, now. by right.
  - left. auto.
  - left. destruct H as [H| ->]; [auto | done].
  - left. destruct H as [tm ->]. apply Hclose.
Qed.

Lemma start_keeps_range srv r s now :
  isLastQuestion s = false →
  ∀ s', objects
          match startNextQuestion s now with
          | (session', Throw _) => store srv r session'
          | (session', Ret None) => store srv r session'
          | (session', Ret (Some d)) => (handleQuestion srv r session' d).1
          end !! r = Some s' →
        currentQuestionIndex s' ≤ totalQuestions s' - 1.
Proof.
  intros Hlast s' Hs'. apply bool_decide_eq_false in Hlast.
  assert (Hr : is_Some (objects srv !! r)).
  { apply lookup_lt_is_Some.
    destruct (startNextQuestion s now) as [s1 [[d|]|msg]]; simpl in Hs';
      apply lookup_lt_Some in Hs'; by rewrite length_insert in Hs'. }
  destruct Hr as [s0 Hs0].
  pose proof (startNextQuestion_frame s now) as ((_ & _ & _ & _ & _ & Ht & _) & Hi & _).
  destruct (startNextQuestion s now) as [s1 [[d|]|msg]]; simpl in *;
    rewrite list_lookup_insert_eq in Hs' by (by eapply lookup_lt_Some);
    injection Hs' as <-; simpl; lia.
Qed.

Section IndexRange.

Variable calculateScore : Q → Z → Z.
Variable db : Db.

Lemma waiting_index_run trace r s :
  objects (run calculateScore db emptyServer trace) !! r = Some s →
  snapshot_ok s ∧ (status s = WAITING → currentQuestionIndex s = -1).
Proof.
  apply (run_objects_inv calculateScore db
           (λ s, snapshot_ok s ∧ (status s = WAITING → currentQuestionIndex s = -1))).
  - intros e s0 s' Hstep [(Htot & Hpos & Hidx) Hwait].
    pose proof (obj_step_frame _ _ _ _ Hstep) as ((_ & _ & _ & _ & Hq & Ht & _) & Hi & Hw).
    split.
    { unfold snapshot_ok. rewrite Hq, Ht. repeat split; [done | done | lia]. }
    intros Hst. specialize (Hwait (Hw Hst)).
    destruct (obj_step_index _ _ _ _ Hstep) as [Hsame|[_ [now Hopen]]]; [congruence|].
    apply opened_index in Hopen as (_ & _ & Hst').
    pose proof (startNextQuestion_status s0 now) as Hnext.
    unfold isLastQuestion in Hnext. rewrite bool_decide_eq_false_2 in Hnext by lia.
    congruence.
  - intros quiz admin code s0 Hc.
    apply constructor_Ret in Hc as (_ & _ & _ & _ & _ & Hidx & Htot & Hpos).
    split; [|done]. unfold snapshot_ok. rewrite Hidx. repeat split; [done | done | lia].
  - intros r0 s0 H. simpl in H. by rewrite lookup_nil in H.
Qed.

Lemma index_in_range_step srv e :
  registry_ok srv →
  (∀ r s, objects srv !! r = Some s →
          snapshot_ok s ∧ currentQuestionIndex s ≤ totalQuestions s - 1) →
  start_has_question srv e = true →
  ∀ r s', objects (step calculateScore db srv e).1 !! r = Some s' →
          snapshot_ok s' ∧ currentQuestionIndex s' ≤ totalQuestions s' - 1.
Proof.
  intros Hreg Hinv Hguard r s' Hs'.
  assert (Hsnap : snapshot_ok s').
  { apply step_objects_origin in Hs' as [(s & Hs & Hstep)|(quiz & admin & code & Hc)].
    - destruct (Hinv r s Hs) as [(Htot & Hpos & Hidx) _].
      apply obj_step_frame in Hstep as ((_ & _ & _ & _ & Hq & Ht & _) & Hi & _).
      unfold snapshot_ok. rewrite Hq, Ht. repeat split; [done | done | lia].
    - apply constructor_Ret in Hc as (_ & _ & _ & _ & _ & Hidx & Htot & Hpos).
      unfold snapshot_ok. rewrite Hidx. repeat split; [done | done | lia]. }
  split; [done|].
  assert (Hother : (∀ socket now, e ≠ start_game socket now) →
                   (∀ socket now, e ≠ next_question socket now) →
                   currentQuestionIndex s' ≤ totalQuestions s' - 1).
  { intros Hstart Hnext.
    apply step_objects_origin in Hs' as [(s & Hs & Hstep)|(quiz & admin & code & Hc)].
    - destruct (Hinv r s Hs) as [_ Hle].
      pose proof (obj_step_frame _ _ _ _ Hstep) as ((_ & _ & _ & _ & _ & Ht & _) & _ & _).
      destruct (obj_step_index _ _ _ _ Hstep)
        as [Hi|[(socket & now & [->| ->]) _]]; [lia | |].
      + by destruct (Hstart socket now).
      + by destruct (Hnext socket now).
    - apply constructor_Ret in Hc as (_ & _ & _ & _ & _ & Hidx & Htot & Hpos). lia. }
  destruct e as [socket token quiz code|socket code name|socket now
                |socket optionId now|socket now|socket|socket|h];
    try (by apply Hother).
  - (* start_game *)
    simpl in Hs', Hguard. unfold on_start_game in Hs'.
    destruct (getGameByAdminSocket srv socket) as [[ra sa]|] eqn:Hadm;
      [|by apply (Hinv r)].
    apply negb_true_iff in Hguard.
    pose proof (getGameByAdminSocket_Some srv socket ra sa Hadm) as (_ & Hsa & _).
    destruct (decide (JsMap.size (players sa) = 0)); [by apply (Hinv r)|].
    destruct (decide (r = ra)) as [->|Hne].
    + apply (start_keeps_range srv ra sa now Hguard).
      by destruct (startNextQuestion sa now) as [s1 [[d|]|msg]].
    + pose proof (start_other srv ra sa now r Hne) as Hsame.
      apply (Hinv r). rewrite <- Hsame.
      by destruct (startNextQuestion sa now) as [s1 [[d|]|msg]].
  - (* next_question *)
    simpl in Hs'. unfold on_next_question in Hs'.
    destruct (getGameByAdminSocket srv socket) as [[ra sa]|] eqn:Hadm;
      [|by apply (Hinv r)].
    pose proof (getGameByAdminSocket_Some srv socket ra sa Hadm) as (_ & Hsa & _).
    destruct (decide (r = ra)) as [->|Hne].
    + destruct (isLastQuestion sa) eqn:Hlast.
      * rewrite (finishGame_server srv socket ra sa Hreg Hadm) in Hs'. simpl in Hs'.
        rewrite list_lookup_insert_eq in Hs' by (by eapply lookup_lt_Some).
        injection Hs' as <-. destruct (Hinv ra sa Hsa) as [_ Hle].
        by destruct (cleanup_session (timeouts srv) (set_status FINISHED sa)) as [Hc|Hc];
          rewrite Hc.
      * apply (start_keeps_range srv ra sa now Hlast).
        by destruct (startNextQuestion sa now) as [s1 [[d|]|msg]].
    + apply (Hinv r). rewrite <- Hs'. symmetry.
      destruct (isLastQuestion sa); [by eapply finish_other|].
      pose proof (start_other srv ra sa now r Hne) as Hsame.
      by destruct (startNextQuestion sa now) as [s1 [[d|]|msg]].
Qed.

Lemma index_in_range_run trace srv :
  registry_ok srv →
  (∀ r s, objects srv !! r = Some s →
          snapshot_ok s ∧ currentQuestionIndex s ≤ totalQuestions s - 1) →
  starts_have_question calculateScore db srv trace = true →
  ∀ r s, objects (run calculateScore db srv trace) !! r = Some s →
         snapshot_ok s ∧ currentQuestionIndex s ≤ totalQuestions s - 1.
Proof.
  revert srv. induction trace as [|e trace IH]; intros srv Hreg Hinv Hg; [done|].
  simpl in *. apply andb_true_iff in Hg as [Hg1 Hg2].
  apply IH; [by apply registry_ok_step | by apply index_in_range_step | done].
Qed.

End IndexRange.

(** C4, amended. [startNextQuestion] always increments the index by one;
    on or after the last question it returns "no more questions" and leaves
    the status as it was, with the index at [totalQuestions] or above, which
    is outside the range. In every session of every run the index is at
    least -1, it is -1 while the session waits, and on a session that is not
    on its last question [startNextQuestion] opens the next question with
    the index within [0, totalQuestions-1]. [next_question] asks
    [isLastQuestion] first and [start_game] does not: the index stays in
    [-1, totalQuestions-1] in every run in which [start_game] reaches only
    games that are not on their last question, as is every game that still
    waits. *)
Theorem question_index_range (calculateScore : Q → Z → Z) (db : Db)
    (trace : list Event) :
  (∀ s now,
     currentQuestionIndex (startNextQuestion s now).1 = currentQuestionIndex s + 1 ∧
     (isLastQuestion s = true →
      (startNextQuestion s now).2 = Ret None ∧
      status (startNextQuestion s now).1 = status s ∧
      totalQuestions s ≤ currentQuestionIndex (startNextQuestion s now).1)) ∧
  (∀ r s,
     objects (run calculateScore db emptyServer trace) !! r = Some s →
     -1 ≤ currentQuestionIndex s ∧
     (status s = WAITING → currentQuestionIndex s = -1 ∧ isLastQuestion s = false) ∧
     (isLastQuestion s = false →
      ∀ now, (∃ d, (startNextQuestion s now).2 = Ret (Some d)) ∧
             status (startNextQuestion s now).1 = QUESTION ∧
             0 ≤ currentQuestionIndex (startNextQuestion s now).1
               ≤ totalQuestions s - 1)) ∧
  (starts_have_question calculateScore db emptyServer trace = true →
   ∀ r s,
     objects (run calculateScore db emptyServer trace) !! r = Some s →
     -1 ≤ currentQuestionIndex s ≤ totalQuestions s - 1).
Proof.
  split; [|split].
  - intros s now.
    pose proof (startNextQuestion_frame s now) as (_ & Hi & _).
    split; [done|]. intros Hlast.
    pose proof (startNextQuestion_status s now) as Hst. rewrite Hlast in Hst.
    destruct Hst as [Hret Hst]. apply bool_decide_eq_true in Hlast.
    repeat split; [done | done | lia].
  - intros r s Hs.
    destruct (waiting_index_run calculateScore db trace r s Hs)
      as [(Htot & Hpos & Hidx) Hwait].
    split; [done|]. split.
    + intros Hst. specialize (Hwait Hst). split; [done|].
      apply bool_decide_eq_false. lia.
    + intros Hlast now.
      destruct (startNextQuestion_Some s now) as (d & Heq & Hd); [done | done |].
      pose proof (startNextQuestion_frame s now) as (_ & Hi & _).
      apply bool_decide_eq_false in Hlast. rewrite Heq in *. simpl in *.
      repeat split; [by exists d | lia | lia].
  - intros Hguard r s Hs.
    destruct (waiting_index_run calculateScore db trace r s Hs) as [(_ & _ & Hidx) _].
    destruct (index_in_range_run calculateScore db trace emptyServer registry_ok_empty)
      with (r := r) (s := s) as [_ Hle]; [|done|done|lia].
    intros r0 s0 H. simpl in H. by rewrite lookup_nil in H.
Qed.

(** ** One registered session per admin *)

Lemma create_game_admin_lookup cs db srv socket quiz code session :
  registry_ok srv →
  getGameByAdminSocket srv socket = None →
  GameSession_constructor db quiz socket code = Ret session →
  getGameByAdminSocket (step cs db srv (create_game socket ValidToken quiz code)).1 socket
  = Some (length (objects srv), session).
Proof.
  intros Hok Hnone Hc.
  assert (Hok' : registry_ok (step cs db srv (create_game socket ValidToken quiz code)).1)
    by by apply registry_ok_step.
  simpl in *. unfold on_create_game, createGame in *. rewrite Hnone, Hc in *.
  pose proof (constructor_Ret db quiz socket code session Hc) as (Hcode & Hadm & _).
  cbn [fst snd] in *. rewrite Hcode in *.
  rewrite <- Hadm. apply admin_lookup_of_registered; [done|].
  eapply getGame_sessions. apply getGame_Some. simpl. split; [apply get_set_eq|].
  by rewrite lookup_app_r, Nat.sub_diag.
Qed.

(** C8. A session is live while it is registered: the registry is all that
    the handlers consult, and a session that has left it (torn down, or
    displaced by a colliding code, see C3) is found for no socket. In every
    state the server can reach, two registry entries with the same admin
    socket are the same entry, and every registered session is the one found
    for its admin socket. A [create_game] request of an admin who owns a
    registered game is answered with that game's code and leaves the server
    (sessions, registry and timeouts) as it was. The admin comes to own it
    by a first request: when the socket owns no registered game and the quiz
    can be loaded, [create_game] registers the new session for the socket,
    and every later request of the socket gets the same code back and
    changes nothing. *)
Theorem one_session_per_admin (calculateScore : Q → Z → Z) (db : Db)
    (trace : list Event) :
  let srv := run calculateScore db emptyServer trace in
  (∀ c1 c2 r1 r2 g1 g2,
     getGame srv c1 = Some (r1, g1) → getGame srv c2 = Some (r2, g2) →
     adminSocketId g1 = adminSocketId g2 → c1 = c2 ∧ r1 = r2 ∧ g1 = g2) ∧
  (∀ c r g,
     getGame srv c = Some (r, g) →
     getGameByAdminSocket srv (adminSocketId g) = Some (r, g)) ∧
  (∀ socket quiz code r existing,
     getGameByAdminSocket srv socket = Some (r, existing) →
     getGame srv (gameCode existing) = Some (r, existing) ∧
     step calculateScore db srv (create_game socket ValidToken quiz code)
     = (srv, [ToSocket socket (game_created (gameCode existing))])) ∧
  (∀ socket quiz code session,
     getGameByAdminSocket srv socket = None →
     GameSession_constructor db quiz socket code = Ret session →
     let srv' := (step calculateScore db srv
                    (create_game socket ValidToken quiz code)).1 in
     length (objects srv') = S (length (objects srv)) ∧
     getGameByAdminSocket srv' socket = Some (length (objects srv), session) ∧
     gameCode session = code ∧
     ∀ quiz' code',
       step calculateScore db srv' (create_game socket ValidToken quiz' code')
       = (srv', [ToSocket socket (game_created code)])).
Proof.
  cbv zeta. set (srv := run calculateScore db emptyServer trace).
  assert (Hok : registry_ok srv) by apply registry_ok_run, registry_ok_empty.
  split; [|split; [|split]].
  - intros c1 c2 r1 r2 g1 g2 H1 H2 Heq.
    pose proof H1 as H1'. pose proof H2 as H2'.
    apply getGame_Some in H1 as [Hc1 Hg1]. apply getGame_Some in H2 as [Hc2 Hg2].
    assert (c1 = c2) as ->.
    { eapply (reg_admin srv Hok c1 c2 r1 r2 g1 g2); eauto using get_Some_elem. }
    rewrite H1' in H2'. by injection H2' as -> ->.
  - intros c r g Hg. apply admin_lookup_of_registered; [done|].
    by eapply getGame_sessions.
  - intros socket quiz code r existing Hadm. split.
    + by eapply getGame_of_admin.
    + simpl. unfold on_create_game. by rewrite Hadm.
  - intros socket quiz code session Hnone Hc.
    pose proof (create_game_admin_lookup calculateScore db srv socket quiz code session
                  Hok Hnone Hc) as Hadm.
    pose proof (constructor_Ret db quiz socket code session Hc) as (Hcode & _).
    split.
    { simpl. unfold on_create_game, createGame. rewrite Hnone, Hc. simpl.
      rewrite length_app. simpl. lia. }
    split; [done|]. split; [done|].
    set (srv' := (step calculateScore db srv
                    (create_game socket ValidToken quiz code)).1) in *.
    intros quiz' code'. cbn [step]. unfold on_create_game.
    rewrite Hadm. by rewrite Hcode.
Qed.

End AnyCaseFurther.

(** ** Letter case on ASCII text *)

(** On ASCII text the runtime's case conversions are those of
    [ascii_case]. *)
Section SampleRunsFurther.

Local Existing Instance ascii_case.

Lemma upper_ascii_idemp c : upper_ascii (upper_ascii c) = upper_ascii c.
Proof. by destruct c as [[] [] [] [] [] [] [] []]. Qed.

Lemma lower_upper_ascii c : lower_ascii (upper_ascii c) = lower_ascii c.
Proof. by destruct c as [[] [] [] [] [] [] [] []]. Qed.

Lemma toUpperCase_idemp s : toUpperCase (toUpperCase s) = toUpperCase s.
Proof.
  change (map_string upper_ascii (map_string upper_ascii s) = map_string upper_ascii s).
  induction s as [|c s IH]; simpl; [done|].
  by rewrite upper_ascii_idemp, IH.
Qed.

Lemma toLowerCase_toUpperCase s : toLowerCase (toUpperCase s) = toLowerCase s.
Proof.
  change (map_string lower_ascii (map_string upper_ascii s) = map_string lower_ascii s).
  induction s as [|c s IH]; simpl; [done|].
  by rewrite lower_upper_ascii, IH.
Qed.

(** X14. Letter case does not matter when joining, for a code and a name
    in ASCII: [join_game] with a code does what it does with the code in
    upper case, and [addPlayer] refuses a name (with the same message)
    exactly when it refuses that name in upper case. *)
Theorem joining_ignores_case (calculateScore : Q → Z → Z) (db : Db)
    (srv : Server) (socket code name : string) :
  ascii_text code = true → ascii_text name = true →
  step calculateScore db srv (join_game socket code name)
  = step calculateScore db srv (join_game socket (toUpperCase code) name) ∧
  (∀ s msg, addPlayer s socket name = Throw msg ↔
            addPlayer s socket (toUpperCase name) = Throw msg).
Proof.
  intros _ _. split.
  - cbn [step]. unfold on_join_game. by rewrite toUpperCase_idemp.
  - intros s msg. unfold addPlayer. rewrite toLowerCase_toUpperCase.
    destruct (decide _); [done|]. by destruct (existsb _ _).
Qed.

(** ** The further properties on the sample game *)

Lemma roster_names_are_distinct_witness :
  objects (run scoreModel sampleDb emptyServer traceA) !! 0%nat = Some sessionA ∧
  NoDup (rosterNames sessionA).
Proof.
  assert (H : objects (run scoreModel sampleDb emptyServer traceA) !! 0%nat
              = Some sessionA) by (vm_compute; reflexivity).
  split; [exact H|].
  exact (proj1 (roster_names_are_distinct scoreModel sampleDb traceA 0%nat sessionA H)).
Defined.

Lemma join_game_counts_players_witness :
  getGame serverLive (toUpperCase "abc123") = Some (0%nat, sessionLive) ∧
  addPlayer sessionLive "bob" "Bob"
  = Ret (set_players (JsMap.set "bob" bobA) sessionLive, bobA) ∧
  JsMap.size (players (set_players (JsMap.set "bob" bobA) sessionLive))
  = (if JsMap.has "bob" (players sessionLive)
     then JsMap.size (players sessionLive)
     else JsMap.size (players sessionLive) + 1).
Proof.
  assert (H1 : getGame serverLive (toUpperCase "abc123") = Some (0%nat, sessionLive))
    by (vm_compute; reflexivity).
  assert (H2 : addPlayer sessionLive "bob" "Bob"
               = Ret (set_players (JsMap.set "bob" bobA) sessionLive, bobA))
    by (vm_compute; reflexivity).
  split; [exact H1|]. split; [exact H2|].
  exact (proj1 (join_game_counts_players scoreModel sampleDb serverLive
                  "bob" "abc123" "Bob" 0%nat sessionLive
                  (set_players (JsMap.set "bob" bobA) sessionLive) bobA H1 H2)).
Defined.

Lemma removePlayer_undoes_addPlayer_witness :
  JsMap.has "bob" (players sessionLive) = false ∧
  removePlayer sessionLive "bob" = sessionLive.
Proof.
  assert (H : JsMap.has "bob" (players sessionLive) = false)
    by (vm_compute; reflexivity).
  split; [exact H|].
  exact (proj1 (removePlayer_undoes_addPlayer sessionLive "bob" "Bob" H)).
Defined.

Lemma startNextQuestion_opens_witness :
  (startNextQuestion sessionLive 1000).2
  = Ret (Some {| qd_questionIndex := 0;
                 qd_totalQuestions := 2;
                 qd_questionText := "Capital of France?";
                 qd_options := [(100, "Paris"); (101, "Rome")];
                 qd_timerSeconds := 20 |}) ∧
  status (startNextQuestion sessionLive 1000).1 = QUESTION.
Proof.
  assert (H : (startNextQuestion sessionLive 1000).2
              = Ret (Some {| qd_questionIndex := 0;
                             qd_totalQuestions := 2;
                             qd_questionText := "Capital of France?";
                             qd_options := [(100, "Paris"); (101, "Rome")];
                             qd_timerSeconds := 20 |}))
    by (vm_compute; reflexivity).
  split; [exact H|].
  exact (proj1 (startNextQuestion_opens sessionLive 1000 _ H)).
Defined.

Lemma endQuestion_results_match_scores_witness :
  js_index (questions sessionA) (currentQuestionIndex sessionA) = Some questionA ∧
  ∃ out,
    (endQuestion scoreModel (timeouts serverA) sessionA).2
    = Ret {| correctOptionId := correctOptionIdOf questionA; playerResults := out |} ∧
    length out = length (players sessionA).
Proof.
  assert (H : js_index (questions sessionA) (currentQuestionIndex sessionA)
              = Some questionA) by (vm_compute; reflexivity).
  split; [exact H|].
  destruct (endQuestion_results_match_scores scoreModel (timeouts serverA)
              sessionA questionA H) as (out & Hres & Hlen & _).
  exists out. exact (conj Hres Hlen).
Defined.

Lemma started_game_takes_no_players_witness :
  objects serverA !! 0%nat = Some sessionA ∧
  status sessionA ≠ WAITING ∧
  (getGame serverA (toUpperCase "abc123") = Some (0%nat, sessionA) →
   step scoreModel sampleDb serverA (join_game "carol" "abc123" "Carol")
   = (serverA, [ToSocket "carol" (error_msg "Game has already started")])).
Proof.
  assert (H1 : objects serverA !! 0%nat = Some sessionA) by (vm_compute; reflexivity).
  assert (H2 : status sessionA ≠ WAITING) by (vm_compute; discriminate).
  split; [exact H1|]. split; [exact H2|].
  exact (proj2 (started_game_takes_no_players scoreModel sampleDb serverA 0%nat
                  sessionA H1 H2) "carol" "abc123" "Carol").
Defined.

Lemma ended_game_leaves_registry_witness :
  getGameByAdminSocket (run scoreModel sampleDb emptyServer traceA) "admin"
  = Some (0%nat, sessionA) ∧
  ends_game "admin" sessionA (end_game "admin") ∧
  getGame (step scoreModel sampleDb (run scoreModel sampleDb emptyServer traceA)
             (end_game "admin")).1 (gameCode sessionA)
  = None.
Proof.
  assert (H1 : getGameByAdminSocket (run scoreModel sampleDb emptyServer traceA) "admin"
               = Some (0%nat, sessionA)) by (vm_compute; reflexivity).
  assert (H2 : ends_game "admin" sessionA (end_game "admin")) by (left; reflexivity).
  split; [exact H1|]. split; [exact H2|].
  exact (proj1 (proj2 (ended_game_leaves_registry scoreModel sampleDb traceA
                         "admin" 0%nat sessionA (end_game "admin") H1 H2))).
Defined.

Lemma ended_game_has_no_deadline_witness :
  guarded_trace scoreModel sampleDb emptyServer traceA = true ∧
  getGameByAdminSocket (run scoreModel sampleDb emptyServer traceA) "admin"
  = Some (0%nat, sessionA) ∧
  deadlines_of
    (step scoreModel sampleDb (run scoreModel sampleDb emptyServer traceA)
       (disconnect "admin")).1 0%nat
  = [].
Proof.
  assert (H1 : guarded_trace scoreModel sampleDb emptyServer traceA = true)
    by (vm_compute; reflexivity).
  assert (H2 : getGameByAdminSocket (run scoreModel sampleDb emptyServer traceA) "admin"
               = Some (0%nat, sessionA)) by (vm_compute; reflexivity).
  split; [exact H1|]. split; [exact H2|].
  exact (ended_game_has_no_deadline scoreModel sampleDb traceA "admin" 0%nat sessionA
           (disconnect "admin") H1 H2 (or_intror eq_refl)).
Defined.

Lemma question_opens_with_deadline_witness :
  getGameByAdminSocket (run scoreModel sampleDb emptyServer traceLive) "admin"
  = Some (0%nat, sessionLive) ∧
  isLastQuestion sessionLive = false ∧
  players sessionLive ≠ [] ∧
  ∃ d s',
    (step scoreModel sampleDb (run scoreModel sampleDb emptyServer traceLive)
       (start_game "admin" 1000)).2
    = [ToRoom (gameCode sessionLive) (question_start d)] ∧
    qd_questionIndex d = currentQuestionIndex sessionLive + 1 ∧
    objects (step scoreModel sampleDb (run scoreModel sampleDb emptyServer traceLive)
               (start_game "admin" 1000)).1 !! 0%nat
    = Some s' ∧
    status s' = QUESTION.
Proof.
  assert (H1 : getGameByAdminSocket (run scoreModel sampleDb emptyServer traceLive)
                 "admin" = Some (0%nat, sessionLive)) by (vm_compute; reflexivity).
  assert (H2 : isLastQuestion sessionLive = false) by (vm_compute; reflexivity).
  assert (H3 : players sessionLive ≠ []) by (vm_compute; discriminate).
  split; [exact H1|]. split; [exact H2|]. split; [exact H3|].
  destruct (question_opens_with_deadline scoreModel sampleDb traceLive "admin" 1000
              0%nat sessionLive (start_game "admin" 1000) H1 H2
              (or_introl (conj eq_refl H3)))
    as (d & s' & E1 & E2 & E3 & E4 & _).
  exists d, s'. exact (conj E1 (conj E2 (conj E3 E4))).
Defined.

Lemma completing_answer_closes_witness :
  getGameByPlayerSocket serverA "bob" = Some (0%nat, sessionA) ∧
  (submitAnswer sessionA "bob" 101 6000).2 = true ∧
  allPlayersAnswered (submitAnswer sessionA "bob" 101 6000).1 = true ∧
  js_index (questions sessionA) (currentQuestionIndex sessionA) = Some questionA ∧
  ∃ results,
    (step scoreModel sampleDb serverA (submit_answer "bob" 101 6000)).2
    = [ToRoom (gameCode sessionA) (question_end results);
       ToRoom (gameCode sessionA) leaderboard_update].
Proof.
  assert (H1 : getGameByPlayerSocket serverA "bob" = Some (0%nat, sessionA))
    by (vm_compute; reflexivity).
  assert (H2 : (submitAnswer sessionA "bob" 101 6000).2 = true)
    by (vm_compute; reflexivity).
  assert (H3 : allPlayersAnswered (submitAnswer sessionA "bob" 101 6000).1 = true)
    by (vm_compute; reflexivity).
  assert (H4 : js_index (questions sessionA) (currentQuestionIndex sessionA)
               = Some questionA) by (vm_compute; reflexivity).
  split; [exact H1|]. split; [exact H2|]. split; [exact H3|]. split; [exact H4|].
  destruct (proj2 (completing_answer_closes scoreModel sampleDb serverA "bob" 101 6000
                     0%nat sessionA H1 H2) H3 questionA H4)
    as (results & s' & E1 & _).
  exists results. exact E1.
Defined.

Lemma player_disconnect_leaves_roster_witness :
  getGameByAdminSocket (run scoreModel sampleDb emptyServer traceA) "bob" = None ∧
  getGameByPlayerSocket (run scoreModel sampleDb emptyServer traceA) "bob"
  = Some (0%nat, sessionA) ∧
  JsMap.has "bob" (players (removePlayer sessionA "bob")) = false.
Proof.
  assert (H1 : getGameByAdminSocket (run scoreModel sampleDb emptyServer traceA) "bob"
               = None) by (vm_compute; reflexivity).
  assert (H2 : getGameByPlayerSocket (run scoreModel sampleDb emptyServer traceA) "bob"
               = Some (0%nat, sessionA)) by (vm_compute; reflexivity).
  split; [exact H1|]. split; [exact H2|].
  destruct (player_disconnect_leaves_roster scoreModel sampleDb traceA "bob" 0%nat
              sessionA H1 H2) as (p & _ & _ & E & _).
  exact E.
Defined.

Lemma create_game_registers_session_witness :
  getGameByAdminSocket (run scoreModel sampleDb emptyServer traceLive) "other" = None ∧
  GameSession_constructor sampleDb 4 "other" "FRESH1" = Ret sessionFresh ∧
  getGameByAdminSocket
    (step scoreModel sampleDb (run scoreModel sampleDb emptyServer traceLive)
       (create_game "other" ValidToken 4 "FRESH1")).1
    "other"
  = Some (length (objects (run scoreModel sampleDb emptyServer traceLive)),
          sessionFresh).
Proof.
  assert (H1 : getGameByAdminSocket (run scoreModel sampleDb emptyServer traceLive)
                 "other" = None) by (vm_compute; reflexivity).
  assert (H2 : GameSession_constructor sampleDb 4 "other" "FRESH1" = Ret sessionFresh)
    by (vm_compute; reflexivity).
  split; [exact H1|]. split; [exact H2|].
  exact (proj1 (proj2 (proj2 (create_game_registers_session scoreModel sampleDb
                                traceLive "other" 4 "FRESH1" sessionFresh H1 H2)))).
Defined.

Lemma admin_events_touch_own_game_witness :
  objects (run scoreModel sampleDb emptyServer traceTwoGames) !! 0%nat
  = Some sessionLive ∧
  adminSocketId sessionLive ≠ "other" ∧
  status <$> objects (run scoreModel sampleDb emptyServer traceTwoGames) !! 1%nat
  = Some WAITING ∧
  status <$> objects (step scoreModel sampleDb
                        (run scoreModel sampleDb emptyServer traceTwoGames)
                        (start_game "other" 5000)).1 !! 1%nat
  = Some QUESTION ∧
  objects (step scoreModel sampleDb
             (run scoreModel sampleDb emptyServer traceTwoGames)
             (start_game "other" 5000)).1 !! 0%nat
  = Some sessionLive ∧
  getGameByAdminSocket (run scoreModel sampleDb emptyServer traceTwoGames) "alice"
  = None ∧
  step scoreModel sampleDb (run scoreModel sampleDb emptyServer traceTwoGames)
    (start_game "alice" 5000)
  = (run scoreModel sampleDb emptyServer traceTwoGames,
     [ToSocket "alice" (error_msg "No game found")]) ∧
  step scoreModel sampleDb (run scoreModel sampleDb emptyServer traceTwoGames)
    (next_question "alice" 5000)
  = (run scoreModel sampleDb emptyServer traceTwoGames, []) ∧
  step scoreModel sampleDb (run scoreModel sampleDb emptyServer traceTwoGames)
    (end_game "alice")
  = (run scoreModel sampleDb emptyServer traceTwoGames, []).
Proof.
  assert (H1 : objects (run scoreModel sampleDb emptyServer traceTwoGames) !! 0%nat
               = Some sessionLive) by (vm_compute; reflexivity).
  assert (H2 : adminSocketId sessionLive ≠ "other") by (vm_compute; discriminate).
  assert (H3 : status <$> objects (run scoreModel sampleDb emptyServer traceTwoGames)
                            !! 1%nat
               = Some WAITING) by (vm_compute; reflexivity).
  assert (H4 : status <$> objects (step scoreModel sampleDb
                                     (run scoreModel sampleDb emptyServer traceTwoGames)
                                     (start_game "other" 5000)).1 !! 1%nat
               = Some QUESTION) by (vm_compute; reflexivity).
  assert (H5 : getGameByAdminSocket
                 (run scoreModel sampleDb emptyServer traceTwoGames) "alice"
               = None) by (vm_compute; reflexivity).
  split; [exact H1|]. split; [exact H2|]. split; [exact H3|]. split; [exact H4|].
  split.
  - exact (proj1 (admin_events_touch_own_game scoreModel sampleDb traceTwoGames
                    "other" 5000)
             (start_game "other" 5000) 0%nat sessionLive (or_introl eq_refl) H1 H2).
  - split; [exact H5|].
    exact (proj2 (admin_events_touch_own_game scoreModel sampleDb traceTwoGames
                    "alice" 5000) H5).
Defined.

Lemma scores_change_only_on_close_witness :
  objects (run scoreModel sampleDb emptyServer traceA) !! 0%nat = Some sessionA ∧
  objects (step scoreModel sampleDb (run scoreModel sampleDb emptyServer traceA)
             (disconnect "bob")).1 !! 0%nat = Some sessionAfterBobLeft ∧
  JsMap.get "alice" (players sessionAfterBobLeft) = Some aliceA ∧
  ((∃ p, JsMap.get "alice" (players sessionA) = Some p ∧ score aliceA = score p)
   ∨ (score aliceA = 0 ∧ ∃ code name, disconnect "bob" = join_game "alice" code name)
   ∨ (status sessionAfterBobLeft = LEADERBOARD ∧
      ((∃ h, disconnect "bob" = timeout_fires h) ∨
       ∃ socket optionId now, disconnect "bob" = submit_answer socket optionId now))).
Proof.
  assert (H1 : objects (run scoreModel sampleDb emptyServer traceA) !! 0%nat
               = Some sessionA) by (vm_compute; reflexivity).
  assert (H2 : objects (step scoreModel sampleDb
                          (run scoreModel sampleDb emptyServer traceA)
                          (disconnect "bob")).1 !! 0%nat
               = Some sessionAfterBobLeft) by (vm_compute; reflexivity).
  assert (H3 : JsMap.get "alice" (players sessionAfterBobLeft) = Some aliceA)
    by (vm_compute; reflexivity).
  split; [exact H1|]. split; [exact H2|]. split; [exact H3|].
  exact (scores_change_only_on_close scoreModel sampleDb traceA (disconnect "bob")
           0%nat sessionA sessionAfterBobLeft "alice" aliceA H1 H2 H3).
Defined.

Lemma recorded_answer_stays_witness :
  objects (run scoreModel sampleDb emptyServer traceA) !! 0%nat = Some sessionA ∧
  objects (step scoreModel sampleDb (run scoreModel sampleDb emptyServer traceA)
             (timeout_fires 0%nat)).1 !! 0%nat = Some sessionAfterDeadline ∧
  status sessionA ≠ WAITING ∧
  JsMap.get "alice" (players sessionA) = Some aliceA ∧
  currentAnswer aliceA = Some 100 ∧
  JsMap.get "alice" (players sessionAfterDeadline) = Some (set_score 950 aliceA) ∧
  ((currentAnswer (set_score 950 aliceA) = Some 100 ∧
    answerTimestamp (set_score 950 aliceA) = answerTimestamp aliceA)
   ∨ (currentAnswer (set_score 950 aliceA) = None ∧
      status sessionAfterDeadline = QUESTION ∧
      ∃ socket now, timeout_fires 0%nat = start_game socket now
                    ∨ timeout_fires 0%nat = next_question socket now)).
Proof.
  assert (H1 : objects (run scoreModel sampleDb emptyServer traceA) !! 0%nat
               = Some sessionA) by (vm_compute; reflexivity).
  assert (H2 : objects (step scoreModel sampleDb
                          (run scoreModel sampleDb emptyServer traceA)
                          (timeout_fires 0%nat)).1 !! 0%nat
               = Some sessionAfterDeadline) by (vm_compute; reflexivity).
  assert (H3 : status sessionA ≠ WAITING) by (vm_compute; discriminate).
  assert (H4 : JsMap.get "alice" (players sessionA) = Some aliceA)
    by (vm_compute; reflexivity).
  assert (H5 : currentAnswer aliceA = Some 100) by reflexivity.
  assert (H6 : JsMap.get "alice" (players sessionAfterDeadline)
               = Some (set_score 950 aliceA)) by (vm_compute; reflexivity).
  split; [exact H1|]. split; [exact H2|]. split; [exact H3|].
  split; [exact H4|]. split; [exact H5|]. split; [exact H6|].
  exact (recorded_answer_stays scoreModel sampleDb traceA (timeout_fires 0%nat)
           0%nat sessionA sessionAfterDeadline "alice" aliceA (set_score 950 aliceA) 100
           H1 H2 H3 H4 H5 H6).
Defined.

Lemma deadline_closes_its_question_witness :
  guarded_trace scoreModel sampleDb emptyServer traceA = true ∧
  (0%nat, Deadline 0%nat)
    ∈ pending (timeouts (run scoreModel sampleDb emptyServer traceA)) ∧
  ∃ s results s',
    objects (run scoreModel sampleDb emptyServer traceA) !! 0%nat = Some s ∧
    status s = QUESTION ∧
    (step scoreModel sampleDb (run scoreModel sampleDb emptyServer traceA)
       (timeout_fires 0%nat)).2
    = [ToRoom (gameCode s) (question_end results);
       ToRoom (gameCode s) leaderboard_update] ∧
    length (playerResults results) = length (players s) ∧
    objects (step scoreModel sampleDb (run scoreModel sampleDb emptyServer traceA)
               (timeout_fires 0%nat)).1 !! 0%nat = Some s' ∧
    status s' = LEADERBOARD ∧
    deadlines_of (step scoreModel sampleDb (run scoreModel sampleDb emptyServer traceA)
                    (timeout_fires 0%nat)).1 0%nat = [].
Proof.
  assert (H1 : guarded_trace scoreModel sampleDb emptyServer traceA = true)
    by (vm_compute; reflexivity).
  assert (H2 : (0%nat, Deadline 0%nat)
                 ∈ pending (timeouts (run scoreModel sampleDb emptyServer traceA)))
    by (vm_compute; apply list_elem_of_here).
  split; [exact H1|]. split; [exact H2|].
  exact (deadline_closes_its_question scoreModel sampleDb traceA 0%nat 0%nat H1 H2).
Defined.

Lemma joining_ignores_case_witness :
  ascii_text "abc123" = true ∧ ascii_text "Alice" = true ∧
  step scoreModel sampleDb serverLive (join_game "bob" "abc123" "Alice")
  = step scoreModel sampleDb serverLive (join_game "bob" (toUpperCase "abc123") "Alice") ∧
  (∀ s msg, addPlayer s "bob" "Alice" = Throw msg ↔
            addPlayer s "bob" (toUpperCase "Alice") = Throw msg).
Proof.
  assert (H1 : ascii_text "abc123" = true) by (vm_compute; reflexivity).
  assert (H2 : ascii_text "Alice" = true) by (vm_compute; reflexivity).
  split; [exact H1|]. split; [exact H2|].
  exact (joining_ignores_case scoreModel sampleDb serverLive "bob" "abc123" "Alice" H1 H2).
Defined.

Lemma question_index_range_witness :
  starts_have_question scoreModel sampleDb emptyServer traceSecondQuestion = true ∧
  (currentQuestionIndex
     <$> objects (run scoreModel sampleDb emptyServer traceSecondQuestion) !! 0%nat
   = Some 1) ∧
  (totalQuestions
     <$> objects (run scoreModel sampleDb emptyServer traceSecondQuestion) !! 0%nat
   = Some 2) ∧
  ∀ r s,
    objects (run scoreModel sampleDb emptyServer traceSecondQuestion) !! r = Some s →
    -1 ≤ currentQuestionIndex s ≤ totalQuestions s - 1.
Proof.
  assert (H1 : starts_have_question scoreModel sampleDb emptyServer traceSecondQuestion
               = true) by (vm_compute; reflexivity).
  assert (H2 : currentQuestionIndex
                 <$> objects (run scoreModel sampleDb emptyServer traceSecondQuestion)
                       !! 0%nat
               = Some 1) by (vm_compute; reflexivity).
  assert (H3 : totalQuestions
                 <$> objects (run scoreModel sampleDb emptyServer traceSecondQuestion)
                       !! 0%nat
               = Some 2) by (vm_compute; reflexivity).
  split; [exact H1|]. split; [exact H2|]. split; [exact H3|].
  exact (proj2 (proj2 (question_index_range scoreModel sampleDb traceSecondQuestion)) H1).
Defined.

Lemma one_session_per_admin_witness :
  getGameByAdminSocket (run scoreModel sampleDb emptyServer traceLive) "admin"
  = Some (0%nat, sessionLive) ∧
  gameCode sessionLive = "ABC123" ∧
  step scoreModel sampleDb (run scoreModel sampleDb emptyServer traceLive)
    (create_game "admin" ValidToken 4 "FRESH1")
  = (run scoreModel sampleDb emptyServer traceLive,
     [ToSocket "admin" (game_created (gameCode sessionLive))]) ∧
  getGameByAdminSocket (run scoreModel sampleDb emptyServer traceLive) "other" = None ∧
  GameSession_constructor sampleDb 4 "other" "FRESH1" = Ret sessionFresh ∧
  getGameByAdminSocket
    (step scoreModel sampleDb (run scoreModel sampleDb emptyServer traceLive)
       (create_game "other" ValidToken 4 "FRESH1")).1 "other"
  = Some (length (objects (run scoreModel sampleDb emptyServer traceLive)),
          sessionFresh) ∧
  ∀ quiz' code',
    step scoreModel sampleDb
      (step scoreModel sampleDb (run scoreModel sampleDb emptyServer traceLive)
         (create_game "other" ValidToken 4 "FRESH1")).1
      (create_game "other" ValidToken quiz' code')
    = ((step scoreModel sampleDb (run scoreModel sampleDb emptyServer traceLive)
          (create_game "other" ValidToken 4 "FRESH1")).1,
       [ToSocket "other" (game_created "FRESH1")]).
Proof.
  assert (H1 : getGameByAdminSocket (run scoreModel sampleDb emptyServer traceLive)
                 "admin"
               = Some (0%nat, sessionLive)) by (vm_compute; reflexivity).
  assert (H2 : gameCode sessionLive = "ABC123") by (vm_compute; reflexivity).
  assert (H3 : getGameByAdminSocket (run scoreModel sampleDb emptyServer traceLive)
                 "other"
               = None) by (vm_compute; reflexivity).
  assert (H4 : GameSession_constructor sampleDb 4 "other" "FRESH1" = Ret sessionFresh)
    by (vm_compute; reflexivity).
  split; [exact H1|]. split; [exact H2|]. split.
  - exact (proj2 (proj1 (proj2 (proj2 (one_session_per_admin scoreModel sampleDb
                                          traceLive)))
                    "admin" 4 "FRESH1" 0%nat sessionLive H1)).
  - split; [exact H3|]. split; [exact H4|].
    destruct (proj2 (proj2 (proj2 (one_session_per_admin scoreModel sampleDb traceLive)))
                "other" 4 "FRESH1" sessionFresh H3 H4) as (_ & Hadm & _ & Hagain).
    split; [exact Hadm | exact Hagain].
Defined.

End SampleRunsFurther.
